(** * Newton-Raphson power flow (pandapower/pypower/newtonpf.py) and the
      voltage correction of the short-circuit branch currents, the peak and
      the thermal equivalent current (pandapower/shortcircuit/currents.py):
      a shallow embedding.

    The numpy arrays of the source are lists; numpy's exceptions are the
    [Raise] results of an error monad; float64 arithmetic is an interface
    ([Float64]) that the structural theorems never look into, with the exact
    real numbers as the instance used for the polar round trip and for the
    concrete runs. *)

From Stdlib Require Import String.
From Stdlib Require Import List ZArith Bool Lia QArith Reals Lra.
From Equations Require Import Equations.
Import ListNotations.

Set Implicit Arguments.
Local Open Scope Z_scope.

(** ** Exceptions and the error monad *)

Inductive exn : Type :=
| IndexError      (* an index outside an array *)
| ValueError      (* shapes that do not broadcast, reduction of an empty array *)
| TypeError       (* calling None *)
| NameError       (* a name that was never bound *)
| Collaborator (msg : string).  (* raised inside a function the solver calls *)

Inductive res (A : Type) : Type :=
| Ok (a : A)
| Raise (e : exn).

Arguments Ok {A} a.
Arguments Raise {A} e.

Definition bind {A B : Type} (c : res A) (k : A -> res B) : res B :=
  match c with
  | Ok a => k a
  | Raise e => Raise e
  end.

Notation "x <- c ;; k" := (bind c (fun x => k))
  (at level 61, c at next level, right associativity).
Notation "' pat <- c ;; k" := (bind c (fun x => match x with pat => k end))
  (at level 61, pat pattern, c at next level, right associativity).

(** case analysis of a chain of binds that returned *)
Ltac bind_cases H :=
  repeat match type of H with
         | bind ?c _ = Ok _ =>
             destruct c as [?v|] eqn:?; cbn [bind] in H; [|discriminate H]
         | match ?v with _ => _ end = Ok _ => destruct v
         end.

Fixpoint mapM {A B : Type} (f : A -> res B) (l : list A) : res (list B) :=
  match l with
  | [] => Ok []
  | a :: l' => b <- f a ;; bs <- mapM f l' ;; Ok (b :: bs)
  end.

(** ** float64 arithmetic as an interface *)

Class Float64 : Type := {
  f64 : Type;
  of_Z : Z -> f64;                 (* an int where numpy wants a float *)
  of_Q : Q -> f64;                 (* a decimal literal *)
  to_Z : f64 -> Z;                 (* astype(int) *)
  fadd : f64 -> f64 -> f64;
  fsub : f64 -> f64 -> f64;
  fmul : f64 -> f64 -> f64;
  fdiv : f64 -> f64 -> f64;
  fpow : f64 -> Z -> f64;          (* x ** n *)
  fneg : f64 -> f64;
  fabs : f64 -> f64;
  fsqrt : f64 -> f64;
  fexp : f64 -> f64;
  fcos : f64 -> f64;
  fsin : f64 -> f64;
  fhypot : f64 -> f64 -> f64;      (* abs of a complex number *)
  fatan2 : f64 -> f64 -> f64;      (* angle of a complex number: arctan2 im re *)
  fmax : f64 -> f64 -> f64;
  flt : f64 -> f64 -> bool;        (* x < y *)
  fsum : list f64 -> f64;          (* ndarray.sum() *)
  fcdiv : f64 * f64 -> f64 * f64 -> f64 * f64;  (* complex128 division *)
  fdeg2rad : f64 -> f64            (* numpy.deg2rad *)
}.

Section Arrays.

Context {F : Float64}.

(** complex128 *)
Record complex : Type := mkC { re : f64; im : f64 }.

Definition c_of_real (x : f64) : complex := mkC x (of_Z 0).
Definition cadd (a b : complex) : complex :=
  mkC (fadd (re a) (re b)) (fadd (im a) (im b)).
Definition csub (a b : complex) : complex :=
  mkC (fsub (re a) (re b)) (fsub (im a) (im b)).
Definition cmul (a b : complex) : complex :=
  mkC (fsub (fmul (re a) (re b)) (fmul (im a) (im b)))
      (fadd (fmul (re a) (im b)) (fmul (im a) (re b))).
Definition cdiv (a b : complex) : complex :=
  let q := fcdiv (re a, im a) (re b, im b) in mkC (fst q) (snd q).
Definition cneg (a : complex) : complex := mkC (fneg (re a)) (fneg (im a)).
Definition conj (a : complex) : complex := mkC (re a) (fneg (im a)).
Definition cabs (a : complex) : f64 := fhypot (re a) (im a).
Definition angle (a : complex) : f64 := fatan2 (im a) (re a).
Definition cexp (a : complex) : complex :=
  mkC (fmul (fexp (re a)) (fcos (im a))) (fmul (fexp (re a)) (fsin (im a))).
(** the literal 1j *)
Definition c_1j : complex := mkC (of_Z 0) (of_Z 1).

(** *** One-dimensional arrays

    A Python scalar and an array of one element broadcast alike, and a
    scalar is kept as a list of one element where the source mixes both
    ([slack]). *)

Definition zip_with {A B C : Type} (f : A -> B -> C) (xs : list A) (ys : list B)
  : list C :=
  map (fun p => f (fst p) (snd p)) (combine xs ys).

(** numpy broadcasting of two one-dimensional operands *)
Definition bcast2 {A B C : Type} (f : A -> B -> C) (xs : list A) (ys : list B)
  : res (list C) :=
  match xs, ys with
  | [x], _ => Ok (map (f x) ys)
  | _, [y] => Ok (map (fun x => f x y) xs)
  | _, _ =>
      if Nat.eqb (length xs) (length ys) then Ok (zip_with f xs ys)
      else Raise ValueError
  end.

(** an index as numpy reads it: negative indices count from the end *)
Definition norm_index (n : nat) (i : Z) : res nat :=
  if (0 <=? i) && (i <? Z.of_nat n) then Ok (Z.to_nat i)
  else if (- Z.of_nat n <=? i) && (i <? 0) then Ok (Z.to_nat (i + Z.of_nat n))
  else Raise IndexError.

Definition item {A : Type} (a : list A) (i : Z) : res A :=
  k <- norm_index (length a) i ;;
  match nth_error a k with
  | Some x => Ok x
  | None => Raise IndexError
  end.

(** [a[idx]] with an integer array [idx] *)
Definition take {A : Type} (a : list A) (idx : list Z) : res (list A) :=
  mapM (item a) idx.

Fixpoint update {A : Type} (a : list A) (k : nat) (v : A) : list A :=
  match a, k with
  | [], _ => []
  | _ :: a', O => v :: a'
  | x :: a', S k' => x :: update a' k' v
  end.

Fixpoint put_all {A : Type} (a : list A) (kvs : list (nat * A)) : list A :=
  match kvs with
  | [] => a
  | (k, v) :: kvs' => put_all (update a k v) kvs'
  end.

(** [a[idx] = vals]: the values broadcast to the shape of [idx]; with a
    repeated index the last assignment stays *)
Definition put {A : Type} (a : list A) (idx : list Z) (vals : list A)
  : res (list A) :=
  ks <- mapM (norm_index (length a)) idx ;;
  match vals with
  | [v] => Ok (put_all a (map (fun k => (k, v)) ks))
  | _ =>
      if Nat.eqb (length vals) (length idx) then Ok (put_all a (combine ks vals))
      else Raise ValueError
  end.

(** [a[lo:hi]] and [a[lo:]] for bounds that are lengths *)
Definition slice {A : Type} (a : list A) (lo hi : nat) : list A :=
  firstn (hi - lo) (skipn lo a).
Definition slice_from {A : Type} (a : list A) (lo : nat) : list A := skipn lo a.

(** arange(n) *)
Definition arange (n : nat) : list Z := map Z.of_nat (seq 0 n).

(** numpy.max of an integer array *)
Definition np_max (l : list Z) : res Z :=
  match l with
  | [] => Raise ValueError
  | x :: l' => Ok (fold_left Z.max l' x)
  end.

(** linalg.norm(F, Inf) *)
Definition norm_inf (l : list f64) : res f64 :=
  match map fabs l with
  | [] => Raise ValueError
  | x :: l' => Ok (fold_left fmax l' x)
  end.

End Arrays.

(** ** Two-dimensional arrays (the bus, gen and branch tables) *)

Section Tables.

Context {F : Float64}.

Record array2 : Type := mkArray2 { ncols : nat; rows : list (list f64) }.

Definition cell (k : nat) (r : list f64) : res f64 :=
  match nth_error r k with
  | Some x => Ok x
  | None => Raise IndexError
  end.

(** [M[:, k]] *)
Definition col (M : array2) (k : nat) : res (list f64) :=
  if Nat.ltb k (ncols M) then mapM (cell k) (rows M) else Raise IndexError.

(** [M[idx, k]] *)
Definition col_at (M : array2) (idx : list Z) (k : nat) : res (list f64) :=
  c <- col M k ;; take c idx.

(** [M[:, k] = vals] *)
Definition set_col (M : array2) (k : nat) (vals : list f64) : res array2 :=
  if Nat.ltb k (ncols M) then
    match vals with
    | [v] => Ok (mkArray2 (ncols M) (map (fun r => update r k v) (rows M)))
    | _ =>
        if Nat.eqb (length vals) (length (rows M))
        then Ok (mkArray2 (ncols M)
                   (zip_with (fun r v => update r k v) (rows M) vals))
        else Raise ValueError
    end
  else Raise IndexError.

(** ones(shape=n) *)
Definition ones (n : nat) : list f64 := repeat (of_Z 1) n.
(** zeros_like(a) *)
Definition zeros_like (a : list f64) : list f64 := map (fun _ => of_Z 0) a.

End Tables.

(** ** What the solver takes from the rest of pandapower and from scipy

    The column numbers of the tables (idx_bus, idx_gen, idx_brch), scipy's
    sparse matrices and the functions newtonpf imports are not part of the
    two files embedded here; they are parameters of the development. *)

Class Indices : Type := {
  PG : nat;
  PD : nat;
  SL_FAC : nat;
  BASE_KV : nat;
  BR_R : nat;
  F_BUS : nat;
  BR_R_OHM_PER_KM : nat
}.

Class Collaborators {F : Float64} : Type := {
  spmat : Type;                    (* a sparse complex matrix: Ybus, Yf, Yt *)
  jacobian : Type;                 (* the sparse real matrix J *)
  jac_fun : Type;                  (* what get_fastest_jacobian_function returns *)
  sp_indices : spmat -> list Z;    (* Ybus.indices *)
  sp_matvec : spmat -> list complex -> res (list complex);   (* Ybus * V *)
  sp_tocsr : spmat -> spmat;       (* Ybus.tocsr() *)
  jac_shape : jacobian -> nat * nat;   (* J.shape *)
  makeSbus : f64 -> array2 -> array2 -> list f64 -> res (list complex);
  get_fastest_jacobian_function :
    list Z -> list Z -> bool -> bool -> res jac_fun;
  create_jacobian_matrix :
    spmat -> list complex -> list Z -> list Z -> list Z -> list Z -> jac_fun ->
    list Z -> nat -> nat -> nat -> bool -> list f64 -> bool -> res jacobian;
  create_J_tdpf :
    array2 -> list f64 -> list f64 -> list Z -> list Z -> list Z -> list Z ->
    list f64 -> option f64 -> list f64 -> list f64 -> list complex ->
    list complex -> list complex -> list f64 -> jacobian -> res jacobian;
  spsolve : jacobian -> list f64 -> string -> bool -> res (list f64);
  (* _iwamoto_step writes into dVa and dVm and returns Vm and Va; the four
     arrays come back in the order Vm, Va, dVa, dVm *)
  _iwamoto_step :
    spmat -> jacobian -> list f64 -> list f64 -> list Z -> nat -> nat ->
    list f64 -> list f64 -> list f64 -> list f64 -> list Z ->
    nat -> nat -> nat -> nat -> nat -> nat ->
    res (list f64 * list f64 * list f64 * list f64);
  (* t_amb, t_max, r_ref_ohm_per_m, conductor_outer_diameter_m,
     mc_joule_per_m_k, v_m_per_s, wind_angle_degree, s_w_per_square_meter *)
  calc_a0_a1_a2_tau :
    f64 -> f64 -> list f64 -> f64 -> f64 -> f64 -> f64 -> f64 ->
    res (list f64 * list f64 * list f64 * list f64);
  get_S_flows :
    array2 -> spmat -> spmat -> f64 -> list complex ->
    res (list complex * list complex * list Z);
  calc_I : list complex -> array2 -> list Z -> list complex -> res (list f64)
}.

Section Newton.

Context {F : Float64} {IX : Indices} {X : Collaborators}.

Record options : Type := mkOptions {
  tolerance_mva : f64;
  max_iteration : Z;
  numba : bool;
  algorithm : string;
  voltage_depend_loads : bool;
  distributed_slack : bool;
  v_debug : bool;
  use_umfpack : bool;
  permc_spec : string;
  tdpf : option bool;              (* options.get('tdpf', False) *)
  tdpf_delay_s : option f64        (* options.get('tdpf_delay_s') *)
}.

Record ppci : Type := mkPpci {
  baseMVA : f64;
  bus : array2;
  gen : array2;
  branch : array2
}.

(** makeYbus(baseMVA, bus, branch) returns Ybus, Yf, Yt *)
Definition makeYbus_t : Type :=
  f64 -> array2 -> array2 -> res (spmat * spmat * spmat).

Definition T_base : f64 := of_Z 100.
Definition T_ref : f64 := of_Z 20.
Definition t_amb : f64 := of_Z 40.

(** *** _calc_T, _evaluate_dT, _evaluate_Fx, _check_for_convergence *)

Definition _calc_T (V : list complex) (I a0 a1 a2 tau : list f64)
    (tdpf_delay_s : option f64) (t_0_degree : list f64) : res (list f64) :=
  x1 <- bcast2 fmul a1 (map (fun c => fpow c 2) I) ;;
  s1 <- bcast2 fadd a0 x1 ;;
  x2 <- bcast2 fmul a2 (map (fun c => fpow c 4) I) ;;
  t_ss <- bcast2 fadd s1 x2 ;;
  match tdpf_delay_s with
  | Some delay =>
      d <- bcast2 fsub t_ss t_0_degree ;;
      m <- bcast2 fmul d (map (fun t => fexp (fdiv (fneg delay) t)) tau) ;;
      bcast2 fsub t_ss m
  | None => Ok t_ss
  end.

Definition _evaluate_dT (V : list complex) (T I a0 a1 a2 tau : list f64)
    (tdpf_delay_s : option f64) (t_0_degree : list f64) : res (list f64) :=
  t_calc <- _calc_T V I a0 a1 a2 tau tdpf_delay_s t_0_degree ;;
  bcast2 fsub t_calc T.

Definition _evaluate_Fx (Ybus : spmat) (V Sbus : list complex)
    (ref pv pq : list Z) (slack_weights : list f64) (dist_slack : bool)
    (slack : list f64) : res (list f64) :=
  if dist_slack then
    YV <- sp_matvec Ybus V ;;
    p <- bcast2 cmul V (map conj YV) ;;
    d <- bcast2 csub p Sbus ;;
    w <- bcast2 fmul slack_weights slack ;;
    mis <- bcast2 (fun c x => cadd c (c_of_real x)) d w ;;
    mref <- take mis ref ;;
    mpv <- take mis pv ;;
    mpq <- take mis pq ;;
    mpq' <- take mis pq ;;
    Ok (map re mref ++ map re mpv ++ map re mpq ++ map im mpq')
  else
    YV <- sp_matvec Ybus V ;;
    p <- bcast2 cmul V (map conj YV) ;;
    mis <- bcast2 csub p Sbus ;;
    mpv <- take mis pv ;;
    mpq <- take mis pq ;;
    mpq' <- take mis pq ;;
    Ok (map re mpv ++ map re mpq ++ map im mpq').

Definition _check_for_convergence (Fx : list f64) (tol : f64) : res bool :=
  n <- norm_inf Fx ;;
  Ok (flt n tol).

(** *** newtonpf *)

(** what the thermal extension binds, only when tdpf is on *)
Record thermal : Type := mkThermal {
  th_Yf : spmat;
  th_Yt : spmat;
  th_a0 : list f64;
  th_a1 : list f64;
  th_a2 : list f64;
  th_tau : list f64;
  th_Sf : list complex;
  th_St : list complex;
  th_I : list f64;
  th_i_pu : list f64
}.

(** the names bound before the loop and not assigned in it *)
Record env : Type := mkEnv {
  e_tol : f64;
  e_max_it : Z;
  e_numba : bool;
  e_iwamoto : bool;
  e_voltage_depend_loads : bool;
  e_dist_slack : bool;
  e_v_debug : bool;
  e_use_umfpack : bool;
  e_permc_spec : string;
  e_tdpf : bool;
  e_tdpf_delay_s : option f64;
  e_baseMVA : f64;
  e_bus : array2;
  e_gen : array2;
  e_slack_weights : list f64;
  e_makeYbus : option makeYbus_t;
  e_ref : list Z;
  e_pv : list Z;
  e_pq : list Z;
  e_pvpq : list Z;
  e_refpvpq : list Z;
  e_pvpq_lookup : list Z;
  e_pq_lookup : list Z;
  e_createJ : jac_fun;
  e_nref : nat;
  e_npv : nat;
  e_npq : nat;
  e_T0 : list f64;
  e_r_ref_pu : list f64;
  e_i_base_a : list f64;
  e_alpha : list f64
}.

(** the names the loop assigns *)
Record state : Type := mkState {
  st_i : Z;
  st_V : list complex;
  st_Va : list f64;
  st_Vm : list f64;
  st_dV : option (list f64 * list f64);          (* dVa, dVm *)
  st_Vm_it : option (list (list f64));           (* the columns of Vm_it *)
  st_Va_it : option (list (list f64));
  st_slack : list f64;
  st_T : list f64;
  st_branch : array2;
  st_Ybus : spmat;
  st_Sbus : list complex;
  st_th : option thermal;
  st_F : list f64;
  st_J : option jacobian;
  st_converged : bool
}.

(** the tuple newtonpf returns; a slot holds None where Python would *)
Record output : Type := mkOutput {
  out_V : list complex;
  out_converged : bool;
  out_i : Z;
  out_J : option jacobian;
  out_Vm_it : option (list (list f64));
  out_Va_it : option (list (list f64));
  out_T : option (list f64)
}.

Definition j1 (e : env) : nat := 0.
Definition j2 (e : env) : nat := e_npv e.
Definition j3 (e : env) : nat := j2 e.
Definition j4 (e : env) : nat := (j2 e + e_npq e)%nat.
Definition j5 (e : env) : nat := j4 e.
Definition j6 (e : env) : nat := (j4 e + e_npq e)%nat.
Definition j7 (e : env) : nat := j6 e.
Definition j8 (e : env) : nat := (j6 e + e_nref e)%nat.

(** lines 79-81: the reference and the voltage-controlled buses the solver
    works with, in this order *)
Definition bus_partition (dist_slack : bool) (ref pv : list Z)
  : res (list Z * list Z) :=
  if dist_slack && Nat.ltb 1 (length ref) then
    let pv' := skipn 1 ref ++ pv in
    ref' <- take ref [0] ;;
    Ok (ref', pv')
  else Ok (ref, pv).

(** [V = Vm * exp(1j * Va); Vm = abs(V); Va = angle(V)] *)
Definition polar (Vm Va : list f64) : res (list complex) :=
  bcast2 (fun m z => cmul (c_of_real m) z) Vm
         (map (fun a => cexp (cmul c_1j (c_of_real a))) Va).

Definition recompose (Vm Va : list f64)
  : res (list complex * list f64 * list f64) :=
  V <- polar Vm Va ;;
  Ok (V, map cabs V, map angle V).

(** column_stack((hist, v)) on the list of columns *)
Definition column_stack (hist : list (list f64)) (v : list f64)
  : res (list (list f64)) :=
  if forallb (fun c => Nat.eqb (length c) (length v)) hist
  then Ok (hist ++ [v]) else Raise ValueError.

(** lines 135-146 and 200-206: the thermal rows *)
Definition thermal_residual (e : env) (V : list complex) (T : list f64)
    (th : thermal) : res (list f64) :=
  F_t <- _evaluate_dT V (map (fun t => fmul t T_base) T) (th_I th) (th_a0 th)
           (th_a1 th) (th_a2 th) (th_tau th) (e_tdpf_delay_s e) (e_T0 e) ;;
  Ok (map (fun x => fdiv x T_base) F_t).

(** lines 43-150: everything before the loop *)
Definition newtonpf_init (Ybus : spmat) (Sbus V0 : list complex)
    (ref pv pq : list Z) (p : ppci) (o : options)
    (makeYbus : option makeYbus_t) : res (env * state) :=
  let tol := tolerance_mva o in
  let max_it := max_iteration o in
  let iwamoto := String.eqb (algorithm o) "iwamoto_nr" in
  let dist_slack := distributed_slack o in
  slack_weights <- col (bus p) SL_FAC ;;
  let tdpf := match tdpf o with Some b => b | None => false end in
  let V := V0 in
  let Va := map angle V in
  let Vm := map cabs V in
  let dV := if iwamoto then Some (zeros_like Va, zeros_like Vm) else None in
  let Vm_it := if v_debug o then Some [Vm] else None in
  let Va_it := if v_debug o then Some [Va] else None in
  '(ref, pv) <- bus_partition dist_slack ref pv ;;
  let pvpq := pv ++ pq in
  let refpvpq := ref ++ pvpq in
  m <- np_max (sp_indices Ybus) ;;
  let zeros := repeat 0 (Z.to_nat (m + 1)) in
  pvpq_lookup <- (if dist_slack then put zeros refpvpq (arange (length refpvpq))
                  else put zeros pvpq (arange (length pvpq))) ;;
  pq_lookup <- put (repeat 0 (length pvpq + 1)) pq (arange (length pq)) ;;
  createJ <- get_fastest_jacobian_function pvpq pq (numba o) dist_slack ;;
  let nref := length ref in
  let npv := length pv in
  let npq := length pq in
  let T0 := map (fun x => fmul x T_ref) (ones (length (rows (branch p)))) in
  let T := map (fun x => fdiv x T_base) T0 in
  r_ref_pu <- col (branch p) BR_R ;;
  fb <- col (branch p) F_BUS ;;
  v_base <- col_at (bus p) (map to_Z fb) BASE_KV ;;
  let z_base_ohm :=
    map (fun v => fdiv (fmul v v) (baseMVA p)) v_base in
  let i_base_a :=
    map (fun v => fmul (fdiv (baseMVA p) (fmul v (fsqrt (of_Z 3))))
                       (of_Q (1000 # 1))) v_base in
  r_km <- col (branch p) BR_R_OHM_PER_KM ;;
  let r_ref_ohm_per_m := map (fmul (of_Q (1 # 1000))) r_km in
  let alpha :=
    map (fun x => fmul x (of_Q (4 # 1000))) (ones (length (rows (branch p)))) in
  pg <- col (gen p) PG ;;
  pd <- col (bus p) PD ;;
  let slack := [fsub (fsum pg) (fsum pd)] in
  Fx <- _evaluate_Fx Ybus V Sbus ref pv pq slack_weights dist_slack slack ;;
  let e := mkEnv tol max_it (numba o) iwamoto (voltage_depend_loads o)
             dist_slack (v_debug o) (use_umfpack o) (permc_spec o) tdpf
             (tdpf_delay_s o) (baseMVA p) (bus p) (gen p) slack_weights
             makeYbus ref pv pq pvpq refpvpq pvpq_lookup pq_lookup createJ
             nref npv npq T0 r_ref_pu i_base_a alpha in
  '(Ybus, T, th, Fx) <-
    (if tdpf then
       match makeYbus with
       | None => Raise TypeError
       | Some mk =>
           '(Ybus', Yf, Yt) <- mk (baseMVA p) (bus p) (branch p) ;;
           '(a0, a1, a2, tau) <-
             calc_a0_a1_a2_tau t_amb (of_Z 90) r_ref_ohm_per_m
               (of_Q (182 # 10000)) (of_Z 525) (of_Q (5 # 10)) (of_Z 45)
               (of_Z 1000) ;;
           '(Sf, St, f_bus) <- get_S_flows (branch p) Yf Yt (baseMVA p) V ;;
           I <- calc_I Sf (bus p) f_bus V ;;
           i_pu <- bcast2 fdiv I i_base_a ;;
           T1 <- _calc_T V I a0 a1 a2 tau (tdpf_delay_s o) T0 ;;
           let T' := map (fun x => fdiv x T_base) T1 in
           let th := mkThermal Yf Yt a0 a1 a2 tau Sf St I i_pu in
           F_t <- thermal_residual e V T' th ;;
           Ok (Ybus', T', Some th, Fx ++ F_t)
       end
     else Ok (Ybus, T, None, Fx)) ;;
  converged <- _check_for_convergence Fx tol ;;
  let Ybus := sp_tocsr Ybus in
  Ok (e, mkState 0 V Va Vm dV Vm_it Va_it slack T (branch p) Ybus Sbus th Fx
           None converged).

(** lines 173-185: the step applied to Vm, Va, slack and T *)
Definition update_voltage (e : env) (Ybus : spmat) (J : jacobian)
    (Fx dx : list f64) (st : state)
  : res (list f64 * list f64 * option (list f64 * list f64)
         * list f64 * list f64) :=
  let Va := st_Va st in
  let Vm := st_Vm st in
  Va <- (if negb (Nat.eqb (e_npv e) 0) && negb (e_iwamoto e) then
           g <- take Va (e_pv e) ;;
           s <- bcast2 fadd g (slice dx (j1 e) (j2 e)) ;;
           put Va (e_pv e) s
         else Ok Va) ;;
  '(Va, Vm) <- (if negb (Nat.eqb (e_npq e) 0) && negb (e_iwamoto e) then
                  g <- take Va (e_pq e) ;;
                  s <- bcast2 fadd g (slice dx (j3 e) (j4 e)) ;;
                  Va' <- put Va (e_pq e) s ;;
                  g' <- take Vm (e_pq e) ;;
                  s' <- bcast2 fadd g' (slice dx (j5 e) (j6 e)) ;;
                  Vm' <- put Vm (e_pq e) s' ;;
                  Ok (Va', Vm')
                else Ok (Va, Vm)) ;;
  slack <- (if e_dist_slack e
            then bcast2 fadd (st_slack st) (slice dx (j7 e) (j8 e))
            else Ok (st_slack st)) ;;
  T <- (if e_tdpf e then bcast2 fadd (st_T st) (slice_from dx (j7 e))
        else Ok (st_T st)) ;;
  '(Vm, Va, dV) <-
    (if e_iwamoto e && negb (e_tdpf e) then
       match st_dV st with
       | None => Raise NameError
       | Some (dVa, dVm) =>
           '(Vm', Va', dVa', dVm') <-
             _iwamoto_step Ybus J Fx dx (e_pq e) (e_npv e) (e_npq e) dVa dVm
               Vm Va (e_pv e) (j1 e) (j2 e) (j3 e) (j4 e) (j5 e) (j6 e) ;;
           Ok (Vm', Va', Some (dVa', dVm'))
       end
     else Ok (Vm, Va, st_dV st)) ;;
  Ok (Vm, Va, dV, slack, T).

(** lines 155-208: the body of the while loop *)
Definition newton_iteration (e : env) (st : state) : res state :=
  let i := st_i st + 1 in
  '(branch, Ybus, th) <-
    (if e_tdpf e then
       match st_th st, e_makeYbus e with
       | None, _ => Raise NameError
       | _, None => Raise TypeError
       | Some th, Some mk =>
           x <- bcast2 fmul (e_alpha e)
                  (map (fun t => fsub (fmul t T_base) T_ref) (st_T st)) ;;
           r <- bcast2 fmul (e_r_ref_pu e) (map (fadd (of_Z 1)) x) ;;
           branch <- set_col (st_branch st) BR_R r ;;
           '(Ybus, Yf, Yt) <- mk (e_baseMVA e) (e_bus e) branch ;;
           Ok (branch, Ybus,
               Some (mkThermal Yf Yt (th_a0 th) (th_a1 th) (th_a2 th)
                       (th_tau th) (th_Sf th) (th_St th) (th_I th)
                       (th_i_pu th)))
       end
     else Ok (st_branch st, st_Ybus st, st_th st)) ;;
  J <- create_jacobian_matrix Ybus (st_V st) (e_ref e) (e_refpvpq e)
         (e_pvpq e) (e_pq e) (e_createJ e) (e_pvpq_lookup e) (e_nref e)
         (e_npv e) (e_npq e) (e_numba e) (e_slack_weights e)
         (e_dist_slack e) ;;
  J <- (if e_tdpf e then
          match th with
          | None => Raise NameError
          | Some th =>
              a1' <- bcast2 fmul (th_a1 th)
                       (map (fun x => fpow x 2) (e_i_base_a e)) ;;
              a2' <- bcast2 fmul (th_a2 th)
                       (map (fun x => fpow x 4) (e_i_base_a e)) ;;
              create_J_tdpf branch (e_alpha e) (e_r_ref_pu e) (e_pvpq e)
                (e_pq e) (e_pvpq_lookup e) (e_pq_lookup e) (th_tau th)
                (e_tdpf_delay_s e)
                (map (fun x => fdiv x T_base) a1')
                (map (fun x => fdiv x T_base) a2')
                (st_V st)
                (map (fun s => cdiv s (c_of_real (e_baseMVA e))) (th_Sf th))
                (map (fun s => cdiv s (c_of_real (e_baseMVA e))) (th_St th))
                (th_i_pu th) J
          end
        else Ok J) ;;
  sol <- spsolve J (st_F st) (e_permc_spec e) (e_use_umfpack e) ;;
  let dx := map (fmul (of_Z (-1))) sol in
  '(Vm, Va, dV, slack, T) <- update_voltage e Ybus J (st_F st) dx st ;;
  '(V, Vm, Va) <- recompose Vm Va ;;
  Vm_it <- (match st_Vm_it st with
            | Some h => if e_v_debug e then h' <- column_stack h Vm ;; Ok (Some h')
                        else Ok (Some h)
            | None => if e_v_debug e then Raise TypeError else Ok None
            end) ;;
  Va_it <- (match st_Va_it st with
            | Some h => if e_v_debug e then h' <- column_stack h Va ;; Ok (Some h')
                        else Ok (Some h)
            | None => if e_v_debug e then Raise TypeError else Ok None
            end) ;;
  Sbus <- (if e_voltage_depend_loads e
           then makeSbus (e_baseMVA e) (e_bus e) (e_gen e) Vm
           else Ok (st_Sbus st)) ;;
  Fx <- _evaluate_Fx Ybus V Sbus (e_ref e) (e_pv e) (e_pq e)
          (e_slack_weights e) (e_dist_slack e) slack ;;
  '(th, Fx) <-
    (if e_tdpf e then
       match th with
       | None => Raise NameError
       | Some th =>
           '(Sf, St, f_bus) <-
             get_S_flows branch (th_Yf th) (th_Yt th) (e_baseMVA e) V ;;
           I <- calc_I Sf (e_bus e) f_bus V ;;
           i_pu <- bcast2 fdiv I (e_i_base_a e) ;;
           let th' := mkThermal (th_Yf th) (th_Yt th) (th_a0 th) (th_a1 th)
                        (th_a2 th) (th_tau th) Sf St I i_pu in
           F_t <- thermal_residual e V T th' ;;
           Ok (Some th', Fx ++ F_t)
       end
     else Ok (th, Fx)) ;;
  converged <- _check_for_convergence Fx (e_tol e) ;;
  Ok (mkState i V Va Vm dV Vm_it Va_it slack T branch Ybus Sbus th Fx (Some J)
        converged).

Definition inspect {A : Type} (a : A) : {b : A | a = b} := exist _ a eq_refl.

(** the while loop of line 154; it ends because every pass adds one to i *)
Equations? newton_loop (e : env) (st : state) : res state
  by wf (Z.to_nat (e_max_it e - st_i st)) lt :=
newton_loop e st with inspect (negb (st_converged st) && (st_i st <? e_max_it e)) := {
  | exist _ true Hc with inspect (newton_iteration e st) := {
      | exist _ (Ok st') Hit => newton_loop e st'
      | exist _ (Raise x) _ => Raise x };
  | exist _ false _ => Ok st }.
Proof.
  assert (Hi : st_i st' = st_i st + 1).
  { unfold newton_iteration in Hit. bind_cases Hit. inversion Hit.
    reflexivity. }
  apply andb_prop in Hc. destruct Hc as [_ Hc].
  apply Z.ltb_lt in Hc. lia.
Qed.

(** line 210 *)
Definition newtonpf_return (st : state) : output :=
  mkOutput (st_V st) (st_converged st) (st_i st) (st_J st) (st_Vm_it st)
    (st_Va_it st) (Some (map (fun t => fmul t T_base) (st_T st))).

Definition newtonpf (Ybus : spmat) (Sbus V0 : list complex)
    (ref pv pq : list Z) (p : ppci) (o : options)
    (makeYbus : option makeYbus_t) : res output :=
  '(e, st) <- newtonpf_init Ybus Sbus V0 ref pv pq p o makeYbus ;;
  st' <- newton_loop e st ;;
  Ok (newtonpf_return st').

End Newton.

(** ** _calc_branch_currents (currents.py), the voltage of the voltage source
       with the precomputed inverse of the admittance matrix (lines 247-255) *)

Section ShortCircuit.

Context {F : Float64}.

(** a two-dimensional complex array, as its rows *)
Definition cmatrix : Type := list (list complex).

(** bool(a) of a numpy array *)
Definition truth (b : list bool) : res bool :=
  match b with
  | [] => Ok false
  | [x] => Ok x
  | _ => Raise ValueError
  end.

(** the builtin max(V, key=abs) over the rows of V: a later row replaces the
    best one when abs(row) > abs(best) *)
Fixpoint max_key_abs_from (best : list complex) (rest : cmatrix)
  : res (list complex) :=
  match rest with
  | [] => Ok best
  | r :: rest' =>
      g <- bcast2 (fun v m => flt m v) (map cabs r) (map cabs best) ;;
      b <- truth g ;;
      max_key_abs_from (if b then r else best) rest'
  end.

Definition max_key_abs (V : cmatrix) : res (list complex) :=
  match V with
  | [] => Raise ValueError
  | r :: rest => max_key_abs_from r rest
  end.

(** [V_ikss[np.abs(V_ikss) < 1e-10] = 0] on one entry *)
Definition clamp (z : complex) : complex :=
  if flt (cabs z) (of_Q (1 # 10000000000)) then mkC (of_Z 0) (of_Z 0) else z.

(** lines 253 and 255 *)
Definition sign_correction (V : cmatrix) : res cmatrix :=
  m <- max_key_abs V ;;
  D <- mapM (fun r => bcast2 csub r m) V ;;
  Ok (map (map clamp) (map (map cneg) D)).

(** lines 249-250; [ikss1] and [phi] are the columns IKSS1 and
    PHI_IKSS1_DEGREE of the bus table, [Zbus] the dense inverse *)
Definition V_ikss_selected (ikss1 phi baseI : list f64) (Zbus : cmatrix)
    (bus_idx : list Z) : res cmatrix :=
  a <- bcast2 (fun x z => cmul (c_of_real x) z) ikss1
         (map (fun p => cexp (cmul c_1j (c_of_real (fdeg2rad p)))) phi) ;;
  src <- bcast2 (fun z b => cmul z (c_of_real b)) a baseI ;;
  V <- mapM (fun row => bcast2 cmul src row) Zbus ;;
  mapM (fun row => take row bus_idx) V.

(** lines 249-255 *)
Definition V_ikss_inverse_y (ikss1 phi baseI : list f64) (Zbus : cmatrix)
    (bus_idx : list Z) : res cmatrix :=
  V <- V_ikss_selected ikss1 phi baseI Zbus bus_idx ;;
  if Nat.eqb (length bus_idx) 1 then sign_correction V else Ok V.

End ShortCircuit.

(** ** Exact real arithmetic as an instance of the interface *)

Definition Rltb (x y : R) : bool := if Rlt_dec x y then true else false.

(** truncation towards zero *)
Definition Rtrunc (x : R) : Z :=
  if Rle_dec 0 x then up x - 1 else - (up (- x) - 1).

Definition Ratan2 (y x : R) : R :=
  if Rlt_dec 0 x then atan (y / x)
  else if Rlt_dec x 0 then
         (if Rle_dec 0 y then atan (y / x) + PI else atan (y / x) - PI)%R
  else if Rlt_dec 0 y then (PI / 2)%R
  else if Rlt_dec y 0 then (- PI / 2)%R
  else 0%R.

Definition Rhypot (x y : R) : R := sqrt (x * x + y * y).

Definition Rcdiv (a b : R * R) : R * R :=
  let d := (fst b * fst b + snd b * snd b)%R in
  (((fst a * fst b + snd a * snd b) / d)%R,
   ((snd a * fst b - fst a * snd b) / d)%R).

Definition R_Float64 : Float64 := {|
  f64 := R;
  of_Z := IZR;
  of_Q := Q2R;
  to_Z := Rtrunc;
  fadd := Rplus;
  fsub := Rminus;
  fmul := Rmult;
  fdiv := Rdiv;
  fpow := powerRZ;
  fneg := Ropp;
  fabs := Rabs;
  fsqrt := sqrt;
  fexp := exp;
  fcos := cos;
  fsin := sin;
  fhypot := Rhypot;
  fatan2 := Ratan2;
  fmax := Rmax;
  flt := Rltb;
  fsum := fun l => fold_left Rplus l 0%R;
  fcdiv := Rcdiv;
  fdeg2rad := fun x => (x * PI / 180)%R
|}.

(** ** A two-bus network with stand-ins for the collaborators

    Bus 0 is the reference bus, bus 1 a load bus, one line joins them.  The
    stand-ins keep the shapes the solver relies on: the Jacobian is square
    with one row per residual entry, the solve returns one entry per row, the
    thermal coefficients and the currents have one entry per branch. *)

Module Example.

#[local] Existing Instance R_Float64.
Local Open Scope R_scope.

#[local] Instance ex_indices : Indices := {|
  PG := 1; PD := 2; SL_FAC := 4; BASE_KV := 3;
  BR_R := 2; F_BUS := 0; BR_R_OHM_PER_KM := 3
|}.

Definition C (x y : R) : complex := mkC x y.

Definition dense_matvec (M : list (list complex)) (V : list complex)
  : res (list complex) :=
  mapM (fun row =>
          if Nat.eqb (length row) (length V)
          then Ok (fold_left cadd (zip_with cmul row V) (C 0 0))
          else Raise ValueError) M.

(** a dense real matrix with its shape *)
Record dense_real : Type := mkDense {
  d_rows : nat;
  d_cols : nat;
  d_data : list (list R)
}.

Definition identity (n : nat) : dense_real :=
  mkDense n n
    (map (fun i => map (fun j => if Nat.eqb i j then 1 else 0) (seq 0 n))
       (seq 0 n)).

(** [J] with [k] more rows and columns *)
Definition extend (J : dense_real) (k : nat) : dense_real :=
  mkDense (d_rows J + k) (d_cols J + k) (d_data (identity (d_rows J + k))).

#[local] Instance ex_collab : Collaborators := {|
  spmat := list (list complex);
  jacobian := dense_real;
  jac_fun := unit;
  sp_indices := fun M => flat_map (fun row => arange (length row)) M;
  sp_matvec := dense_matvec;
  sp_tocsr := fun M => M;
  jac_shape := fun J => (d_rows J, d_cols J);
  makeSbus := fun _ _ _ vm => Ok (map (fun _ => C 0 0) vm);
  get_fastest_jacobian_function := fun _ _ _ _ => Ok tt;
  create_jacobian_matrix :=
    fun _ _ _ _ _ _ _ _ nref npv npq _ _ ds =>
      Ok (identity ((if ds then nref else 0) + npv + 2 * npq));
  create_J_tdpf :=
    fun _ alpha _ _ _ _ _ _ _ _ _ _ _ _ _ J => Ok (extend J (length alpha));
  spsolve :=
    fun J b _ _ =>
      if Nat.eqb (d_rows J) (length b) then Ok b
      else Raise (Collaborator "dimension mismatch");
  _iwamoto_step :=
    fun _ _ _ _ _ _ _ dVa dVm Vm Va _ _ _ _ _ _ _ => Ok (Vm, Va, dVa, dVm);
  calc_a0_a1_a2_tau :=
    fun _ _ r _ _ _ _ _ =>
      Ok (map (fun _ => 25) r, map (fun _ => 1) r, map (fun _ => 0) r,
          map (fun _ => 600) r);
  get_S_flows :=
    fun br _ _ _ _ =>
      Ok (map (fun _ => C 0 0) (rows br), map (fun _ => C 0 0) (rows br), []);
  calc_I := fun Sf _ _ _ => Ok (map (fun _ => 0) Sf)
|}.

Definition ex_Ybus : list (list complex) :=
  [[C 0 (-10); C 0 10]; [C 0 10; C 0 (-10)]].
Definition ex_Sbus : list complex := [C 0 0; C 0 0].
Definition ex_V0 : list complex := [C 1 0; C 1 0].
Definition ex_ref : list Z := [0%Z].
Definition ex_pv : list Z := [].
Definition ex_pq : list Z := [1%Z].

(** columns of bus: BUS_I, BUS_TYPE, PD, BASE_KV, SL_FAC; of gen: GEN_BUS, PG;
    of branch: F_BUS, T_BUS, BR_R, BR_R_OHM_PER_KM *)
Definition ex_ppci : ppci :=
  mkPpci 1
    (mkArray2 5 [[0; 3; 0; 110; 1]; [1; 1; 0; 110; 0]])
    (mkArray2 2 [[0; 0]])
    (mkArray2 4 [[0; 1; 0; 0]]).

Definition ex_makeYbus : makeYbus_t :=
  fun _ _ _ => Ok (ex_Ybus, ex_Ybus, ex_Ybus).

Definition ex_options (tol : R) (max_it : Z) (alg : string) (ds : bool)
    (th : option bool) : options :=
  mkOptions tol max_it false alg false ds false false "COLAMD" th None.

End Example.

(** ** The specification's side: what the residual is, bus by bus *)

Section SpecWords.

Context {F : Float64}.

Definition czero : complex := mkC (of_Z 0) (of_Z 0).

(** every index of [idx] is a position of an array of [n] entries *)
Definition in_range (n : nat) (idx : list Z) : Prop :=
  Forall (fun i => 0 <= i < Z.of_nat n) idx.

(** V_i times conj((Y V)_i) minus S_i, plus slack_weight_i times the slack
    value when the slack is distributed *)
Definition bus_mismatch (YV V S : list complex) (w : list f64)
    (dist_slack : bool) (slack : f64) (i : nat) : complex :=
  let m := csub (cmul (nth i V czero) (conj (nth i YV czero))) (nth i S czero) in
  if dist_slack then cadd m (c_of_real (fmul (nth i w (of_Z 0)) slack)) else m.

(** real parts at the reference buses (distributed slack only) and at the
    voltage-controlled buses, real then imaginary parts at the load buses *)
Definition residual_of (mis : nat -> complex) (dist_slack : bool)
    (ref pv pq : list Z) : list f64 :=
  (if dist_slack then map (fun b => re (mis (Z.to_nat b))) ref else [])
  ++ map (fun b => re (mis (Z.to_nat b))) pv
  ++ map (fun b => re (mis (Z.to_nat b))) pq
  ++ map (fun b => im (mis (Z.to_nat b))) pq.

(** the magnitude of a complex number *)
Definition magnitude (z : complex) : f64 := fhypot (re z) (im z).

(** the entry of largest magnitude of the column z0, rest: the first one no
    later entry exceeds *)
Definition first_max_abs (z0 : complex) (rest : list complex) : complex :=
  fold_left (fun best z => if flt (magnitude best) (magnitude z) then z
                           else best)
    rest z0.

(** the corrected value of the entry [z] of a column whose entry of largest
    magnitude is [m]: the negation of z minus m, part by part, and zero
    instead when the magnitude of that is below 1e-10 *)
Definition corrected_entry (m z : complex) : complex :=
  let d := mkC (fneg (fsub (re z) (re m))) (fneg (fsub (im z) (im m))) in
  if flt (magnitude d) (of_Q (1 # 10000000000)) then mkC (of_Z 0) (of_Z 0)
  else d.

(** Vm exp(i Va) at one bus, in the arithmetic of complex128: i Va as
    (0 + 1i) (Va + 0i), exp(x + iy) as e^x cos y + i e^x sin y, and Vm as
    Vm + 0i *)
Definition rebuilt (m a : f64) : complex :=
  let x := fsub (fmul (of_Z 0) a) (fmul (of_Z 1) (of_Z 0)) in
  let y := fadd (fmul (of_Z 0) (of_Z 0)) (fmul (of_Z 1) a) in
  let p := fmul (fexp x) (fcos y) in
  let q := fmul (fexp x) (fsin y) in
  mkC (fsub (fmul m p) (fmul (of_Z 0) q)) (fadd (fmul m q) (fmul (of_Z 0) p)).

(** a complex number taken to its magnitude and argument and rebuilt from
    them *)
Definition repolar (z : complex) : complex :=
  rebuilt (magnitude z) (fatan2 (im z) (re z)).

(** a column as a two-dimensional array of one column *)
Definition as_column (zs : list complex) : list (list complex) :=
  map (fun z => [z]) zs.

End SpecWords.

(** ** The specification's side: the iterates of one solve *)

Section Iterates.

Context {F : Float64} {IX : Indices} {X : Collaborators}.

(** the state after [k] passes through the body of the loop *)
Fixpoint iterates (k : nat) (e : env) (st : state) : res state :=
  match k with
  | O => Ok st
  | S k' => st' <- newton_iteration e st ;; iterates k' e st'
  end.

(** the flag options.get('tdpf', False) reads *)
Definition tdpf_on (o : options) : bool :=
  match tdpf o with Some b => b | None => false end.

(** the length the specification gives the residual: the number of
    voltage-controlled buses, twice the number of load buses, one more with
    distributed slack, the number of branches more with thermal coupling *)
Definition residual_length (e : env) (nbranch : nat) : nat :=
  (length (e_pv e) + 2 * length (e_pq e)
   + (if e_dist_slack e then 1 else 0)
   + (if e_tdpf e then nbranch else 0))%nat.

(** the length of the power part of the residual *)
Definition power_length (e : env) : nat :=
  ((if e_dist_slack e then length (e_ref e) else 0)
   + length (e_pv e) + 2 * length (e_pq e))%nat.

(** the heat-balance temperature of one branch: the steady-state value
    a0 + a1 I^2 + a2 I^4 without a delay, the transient value
    t_ss - (t_ss - T0) exp(-delay / tau) with one *)
Definition heat_balance_temperature (delay : option f64)
    (a0 a1 a2 tau I T0 : f64) : f64 :=
  let t_ss := fadd (fadd a0 (fmul a1 (fpow I 2))) (fmul a2 (fpow I 4)) in
  match delay with
  | None => t_ss
  | Some d => fsub t_ss (fmul (fsub t_ss T0) (fexp (fdiv (fneg d) tau)))
  end.

(** the thermal row of one branch: heat-balance temperature minus present
    temperature (the scaled unknown [T] times T_base), over T_base *)
Definition thermal_row (delay : option f64) (a0 a1 a2 tau I T0 T : f64) : f64 :=
  fdiv (fsub (heat_balance_temperature delay a0 a1 a2 tau I T0)
             (fmul T T_base)) T_base.

Definition thermal_rows (nb : nat) (delay : option f64)
    (a0 a1 a2 tau I T0 T : list f64) : list f64 :=
  map (fun k => thermal_row delay (nth k a0 (of_Z 0)) (nth k a1 (of_Z 0))
                  (nth k a2 (of_Z 0)) (nth k tau (of_Z 0)) (nth k I (of_Z 0))
                  (nth k T0 (of_Z 0)) (nth k T (of_Z 0)))
      (seq 0 nb).

(** one entry per branch in everything the thermal rows are computed from *)
Definition thermal_shapes (nb : nat) (e : env) (T : list f64) (th : thermal)
  : Prop :=
  length (th_a0 th) = nb /\ length (th_a1 th) = nb /\ length (th_a2 th) = nb
  /\ length (th_tau th) = nb /\ length (th_I th) = nb
  /\ length (e_T0 e) = nb /\ length T = nb.

End Iterates.

(** ** The specification's side: angles up to a full turn *)

Definition equiv_mod_2PI (t a : R) : Prop :=
  exists k : Z, (t = a + 2 * IZR k * PI)%R.

(** ** The specification's side: the shapes the collaborators keep *)

Section Shapes.

Context {F : Float64} {IX : Indices} {X : Collaborators}.

(** Modelled from the spec: create_jacobian_matrix, create_J_tdpf, spsolve,
    calc_a0_a1_a2_tau, get_S_flows and calc_I are not in the embedded files.
    The specification (4.4, 6) has the Jacobian square with one row per
    entry of the power residual, the thermal augmentation add one row and
    one column per branch, the solve return one entry per row, and the
    thermal coefficients, the branch flows and the branch currents hold one
    entry per branch. *)
Definition respects_shapes : Prop :=
  (forall Ybus V ref refpvpq pvpq pq cj lk nref npv npq nb w ds J,
      create_jacobian_matrix Ybus V ref refpvpq pvpq pq cj lk nref npv npq
        nb w ds = Ok J ->
      jac_shape J = (((if ds then nref else 0) + npv + 2 * npq)%nat,
                     ((if ds then nref else 0) + npv + 2 * npq)%nat))
  /\ (forall br alpha r pvpq pq lk lk' tau d a1 a2 V Sf St ipu J J',
         create_J_tdpf br alpha r pvpq pq lk lk' tau d a1 a2 V Sf St ipu J
         = Ok J' ->
         jac_shape J' = ((fst (jac_shape J) + length alpha)%nat,
                         (snd (jac_shape J) + length alpha)%nat))
  /\ (forall J b pc um x,
         spsolve J b pc um = Ok x -> length x = fst (jac_shape J))
  /\ (forall ta tm r dm mc v wa sw a0 a1 a2 tau,
         calc_a0_a1_a2_tau ta tm r dm mc v wa sw = Ok (a0, a1, a2, tau) ->
         length a0 = length r /\ length a1 = length r
         /\ length a2 = length r /\ length tau = length r)
  /\ (forall br Yf Yt base V Sf St fb,
         get_S_flows br Yf Yt base V = Ok (Sf, St, fb) ->
         length Sf = length (rows br))
  /\ (forall Sf b fb V I, calc_I Sf b fb V = Ok I -> length I = length Sf).

(** the counts and the per-branch constants of an environment *)
Definition env_counts (e : env) (nb : nat) : Prop :=
  e_nref e = length (e_ref e)
  /\ e_npv e = length (e_pv e)
  /\ e_npq e = length (e_pq e)
  /\ length (e_alpha e) = nb
  /\ length (e_T0 e) = nb
  /\ (e_dist_slack e = true -> length (e_ref e) = 1%nat).

(** a state whose residual has the length of the specification and, under
    thermal coupling, one temperature and one set of coefficients per
    branch *)
Definition lengths_ok (e : env) (nb : nat) (st : state) : Prop :=
  length (st_F st) = residual_length e nb
  /\ (e_tdpf e = true ->
      length (st_T st) = nb
      /\ length (rows (st_branch st)) = nb
      /\ exists th,
           st_th st = Some th
           /\ length (th_a0 th) = nb /\ length (th_a1 th) = nb
           /\ length (th_a2 th) = nb /\ length (th_tau th) = nb).

End Shapes.

(** ** Invariants of the solve *)

Section SolveInvariants.

Context {F : Float64} {IX : Indices} {X : Collaborators}.

(** the invariant behind the debug trace *)
Definition trace_ok (dbg : bool) (V0 : list complex) (s : state) : Prop :=
  0 <= st_i s
  /\ st_Vm s = map cabs (st_V s) /\ st_Va s = map angle (st_V s)
  /\ if dbg then
       exists hm ha,
         st_Vm_it s = Some hm /\ st_Va_it s = Some ha
         /\ Z.of_nat (length hm) = st_i s + 1
         /\ Z.of_nat (length ha) = st_i s + 1
         /\ nth 0 hm [] = map cabs V0 /\ last hm [] = st_Vm s
         /\ nth 0 ha [] = map angle V0 /\ last ha [] = st_Va s
     else st_Vm_it s = None /\ st_Va_it s = None.

(** the buses pvpq_lookup is filled for *)
Definition lookup_domain (e : env) : list Z :=
  if e_dist_slack e then e_refpvpq e else e_pvpq e.

End SolveInvariants.

(** ** _calc_ip and _calc_ith (currents.py): the peak and the thermal
       equivalent short-circuit current of every bus *)

(** the column numbers of the short-circuit part of the bus table
    (idx_bus_sc), parameters like the others *)
Class IndicesSC : Type := {
  KAPPA : nat;
  IKSS1 : nat;
  IKSS2 : nat;
  IP : nat;
  ITH : nat;
  M : nat
}.

(** numpy.log, which the solver does not need *)
Class Float64Log {F : Float64} : Type := {
  flog : f64 -> f64
}.

Section PeakThermal.

Context {F : Float64} {L : Float64Log} {IS : IndicesSC}.

(** lines 146-148; [bus] is ppci["bus"], the result the table after the
    assignment *)
Definition _calc_ip (bus : array2) : res array2 :=
  kappa <- col bus KAPPA ;;
  ikss1 <- col bus IKSS1 ;;
  x <- bcast2 fmul kappa ikss1 ;;
  ikss2 <- col bus IKSS2 ;;
  s <- bcast2 fadd x ikss2 ;;
  let ip := map (fmul (fsqrt (of_Z 2))) s in
  set_col bus IP ip.

(** line 156, one entry: [4 * f * tk_s] is 200 tk_s and [2 * f * tk_s] is
    100 tk_s, since f = 50 *)
Definition m_factor (tk_s kappa : f64) : f64 :=
  let lg := flog (fsub kappa (of_Z 1)) in
  fdiv (fsub (fexp (fmul (fmul (of_Z 200) tk_s) lg)) (of_Z 1))
       (fmul (fmul (of_Z 100) tk_s) lg).

(** lines 151-160; [tk_s] is net["_options"]["tk_s"] *)
Definition _calc_ith (tk_s : f64) (bus : array2) : res array2 :=
  kappa <- col bus KAPPA ;;
  let m := map (m_factor tk_s) kappa in
  let m := zip_with (fun k x => if flt (of_Q (199 # 100)) k then of_Z 0 else x)
             kappa m in
  bus <- set_col bus M m ;;
  ikss1 <- col bus IKSS1 ;;
  ikss2 <- col bus IKSS2 ;;
  s <- bcast2 fadd ikss1 ikss2 ;;
  ith <- bcast2 fmul s (map (fun x => fsqrt (fadd x (of_Z 1))) m) ;;
  set_col bus ITH ith.

(** a table as numpy holds it: every row has the declared number of
    columns *)
Definition rectangular (T : array2) : Prop :=
  Forall (fun r => length r = ncols T) (rows T).

End PeakThermal.

(** the natural logarithm for the exact reals *)
Definition R_Float64Log : @Float64Log R_Float64 :=
  @Build_Float64Log R_Float64 ln.

(** ** A bus table of two buses for the short-circuit currents *)

Module ExampleSC.

#[local] Existing Instance R_Float64.
Local Open Scope R_scope.

(** the columns KAPPA, IKSS1, IKSS2, IP, ITH and M, in this order *)
Definition ex_indices_sc : IndicesSC := {|
  KAPPA := 0; IKSS1 := 1; IKSS2 := 2; IP := 3; ITH := 4; M := 5
|}.

(** kappa is 1.5 at the first bus and 2 at the second *)
Definition ex_bus_sc : array2 :=
  mkArray2 6 [[3 / 2; 10; 1; 0; 0; 0]; [2; 4; 0; 0; 0; 0]].

End ExampleSC.

(** * Facts about the arrays *)

Section ArrayFacts.

Lemma bind_ok {A B : Type} (c : res A) (k : A -> res B) (b : B) :
  bind c k = Ok b -> exists a, c = Ok a /\ k a = Ok b.
Proof.
  destruct c as [a|e]; simpl; intros H; [exists a; auto | discriminate].
Qed.

Lemma mapM_length {A B : Type} (f : A -> res B) (l : list A) (r : list B) :
  mapM f l = Ok r -> length r = length l.
Proof.
  revert r. induction l as [|a l IH]; simpl; intros r H.
  - inversion H. reflexivity.
  - apply bind_ok in H. destruct H as [b [_ H]].
    apply bind_ok in H. destruct H as [bs [Hbs H]].
    inversion H. simpl. f_equal. apply IH. exact Hbs.
Qed.

Lemma mapM_map {A B : Type} (f : A -> res B) (g : A -> B) (l : list A) :
  Forall (fun a => f a = Ok (g a)) l -> mapM f l = Ok (map g l).
Proof.
  induction 1 as [|a l Ha _ IH]; simpl; [reflexivity|].
  rewrite Ha. simpl. rewrite IH. reflexivity.
Qed.

Lemma norm_index_in_range (n : nat) (i : Z) :
  0 <= i < Z.of_nat n -> norm_index n i = Ok (Z.to_nat i).
Proof.
  intros [H0 H1]. unfold norm_index.
  apply Z.leb_le in H0. apply Z.ltb_lt in H1. rewrite H0, H1. reflexivity.
Qed.

Lemma item_in_range {A : Type} (a : list A) (d : A) (i : Z) :
  0 <= i < Z.of_nat (length a) -> item a i = Ok (nth (Z.to_nat i) a d).
Proof.
  intros H. unfold item. rewrite norm_index_in_range by exact H. simpl.
  assert (Hlt : (Z.to_nat i < length a)%nat) by lia.
  destruct (nth_error a (Z.to_nat i)) as [x|] eqn:E.
  - rewrite (nth_error_nth _ _ d E). reflexivity.
  - apply nth_error_None in E. lia.
Qed.

Lemma take_in_range {A : Type} (a : list A) (d : A) (idx : list Z) :
  Forall (fun i => 0 <= i < Z.of_nat (length a)) idx ->
  take a idx = Ok (map (fun i => nth (Z.to_nat i) a d) idx).
Proof.
  intros H. unfold take. apply mapM_map.
  eapply Forall_impl; [|exact H]. intros i Hi. apply item_in_range. exact Hi.
Qed.

Lemma take_length {A : Type} (a : list A) (idx : list Z) (r : list A) :
  take a idx = Ok r -> length r = length idx.
Proof. apply mapM_length. Qed.

Lemma zip_with_length {A B C : Type} (f : A -> B -> C) xs ys :
  length xs = length ys -> length (zip_with f xs ys) = length xs.
Proof.
  intros H. unfold zip_with. rewrite length_map, length_combine. lia.
Qed.

Lemma zip_with_nth {A B C : Type} (f : A -> B -> C) xs ys dx dy dz (i : nat) :
  (i < length xs)%nat -> (i < length ys)%nat ->
  nth i (zip_with f xs ys) dz = f (nth i xs dx) (nth i ys dy).
Proof.
  revert ys i. induction xs as [|x xs IH]; intros [|y ys] [|i]; simpl;
    try lia; intros H1 H2; [reflexivity|].
  apply IH; lia.
Qed.

(** operands of one length broadcast to the entry-wise result *)
Lemma bcast2_same_length {A B C : Type} (f : A -> B -> C) xs ys :
  length xs = length ys -> bcast2 f xs ys = Ok (zip_with f xs ys).
Proof.
  intros H. unfold bcast2.
  destruct xs as [|x [|x' xs]]; destruct ys as [|y [|y' ys]];
    try discriminate H; try reflexivity.
  apply Nat.eqb_eq in H. rewrite H. reflexivity.
Qed.

(** a scalar on the right broadcasts over the left operand *)
Lemma bcast2_scalar_r {A B C : Type} (f : A -> B -> C) xs (y : B) :
  bcast2 f xs [y] = Ok (map (fun x => f x y) xs).
Proof.
  unfold bcast2. destruct xs as [|x [|x' xs]]; reflexivity.
Qed.

(** the length of a broadcast result *)
Lemma bcast2_length {A B C : Type} (f : A -> B -> C) xs ys r :
  bcast2 f xs ys = Ok r ->
  length r = (if Nat.eqb (length xs) 1 then length ys else length xs).
Proof.
  unfold bcast2.
  destruct xs as [|x [|x' xs]]; destruct ys as [|y [|y' ys]];
    cbn [length Nat.eqb]; intros H;
    try (inversion H; subst; cbn [length map]; try rewrite length_map;
         reflexivity).
  destruct (Nat.eqb (length xs) (length ys)) eqn:E; [|discriminate H].
  inversion H. apply Nat.eqb_eq in E.
  rewrite zip_with_length; simpl; congruence.
Qed.

Lemma map_nth_in {A B : Type} (f : A -> B) l da db (i : nat) :
  (i < length l)%nat -> nth i (map f l) db = f (nth i l da).
Proof.
  intros H. rewrite (nth_indep _ db (f da)); [apply map_nth|].
  rewrite length_map. exact H.
Qed.

End ArrayFacts.

(** * The mismatch evaluator *)

Section Mismatch.

Context {F : Float64} {X : Collaborators}.

Lemma map_take_nth {A : Type} (g : complex -> A) (mis : list complex)
    (m : nat -> complex) (idx : list Z) :
  in_range (length mis) idx ->
  (forall i, (i < length mis)%nat -> nth i mis czero = m i) ->
  exists r, take mis idx = Ok r /\
            map g r = map (fun b => g (m (Z.to_nat b))) idx.
Proof.
  intros Hr Hm. eexists. split; [apply (@take_in_range _ mis czero idx Hr)|].
  rewrite map_map. apply map_ext_in. intros b Hb.
  unfold in_range in Hr. rewrite Forall_forall in Hr. specialize (Hr b Hb).
  rewrite Hm by lia. reflexivity.
Qed.

(** the power part of the residual never has another length *)
Lemma evaluate_Fx_length (Ybus : spmat) (V Sbus : list complex)
    (ref pv pq : list Z) (w : list f64) (ds : bool) (slack Fx : list f64) :
  _evaluate_Fx Ybus V Sbus ref pv pq w ds slack = Ok Fx ->
  length Fx = ((if ds then length ref else 0) + length pv + 2 * length pq)%nat.
Proof.
  unfold _evaluate_Fx. intros H. destruct ds;
    repeat (apply bind_ok in H; destruct H as [? [? H]]);
    inversion H; subst; clear H;
    repeat match goal with
           | E : take _ _ = Ok _ |- _ => apply take_length in E
           end;
    repeat rewrite length_app; repeat rewrite length_map; lia.
Qed.

(** C1: with arrays of one entry per bus and bus numbers that are positions
    of these arrays, the evaluator returns, in this order, the real parts of
    the mismatch V_i conj((Y V)_i) - S_i (plus w_i times the slack value
    under distributed slack) at the reference buses (distributed slack only)
    and at the voltage-controlled buses, then the real parts and then the
    imaginary parts at the load buses. *)
Theorem evaluate_Fx_residual (Ybus : spmat) (V Sbus YV : list complex)
    (ref pv pq : list Z) (w : list f64) (ds : bool) (s : f64) :
  sp_matvec Ybus V = Ok YV ->
  length YV = length V ->
  length Sbus = length V ->
  (ds = true -> length w = length V /\ in_range (length V) ref) ->
  in_range (length V) pv ->
  in_range (length V) pq ->
  _evaluate_Fx Ybus V Sbus ref pv pq w ds [s]
  = Ok (residual_of (bus_mismatch YV V Sbus w ds s) ds ref pv pq).
Proof.
  intros HYV HlY HlS Hds Hpv Hpq.
  unfold _evaluate_Fx. rewrite HYV. cbn [bind].
  rewrite (bcast2_same_length cmul V (map conj YV))
    by (rewrite length_map; congruence).
  cbn [bind].
  assert (Hlp : length (zip_with cmul V (map conj YV)) = length V)
    by (apply zip_with_length; rewrite length_map; congruence).
  rewrite (bcast2_same_length csub _ Sbus) by congruence.
  cbn [bind].
  set (d := zip_with csub (zip_with cmul V (map conj YV)) Sbus).
  assert (Hld : length d = length V)
    by (unfold d; rewrite zip_with_length; congruence).
  assert (Hd : forall i, (i < length V)%nat ->
             nth i d czero
             = csub (cmul (nth i V czero) (conj (nth i YV czero)))
                    (nth i Sbus czero)).
  { intros i Hi. unfold d.
    rewrite (zip_with_nth csub _ _ czero czero czero) by lia.
    rewrite (zip_with_nth cmul _ _ czero (conj czero) czero)
      by (try rewrite length_map; lia).
    rewrite (map_nth_in conj YV czero (conj czero)) by lia.
    reflexivity. }
  destruct ds.
  - destruct (Hds eq_refl) as [Hlw Href].
    rewrite bcast2_scalar_r. cbn [bind].
    rewrite bcast2_same_length by (rewrite length_map; congruence).
    cbn [bind].
    set (mis := zip_with (fun c x => cadd c (c_of_real x)) d
                  (map (fun x => fmul x s) w)).
    assert (Hlm : length mis = length V)
      by (unfold mis; rewrite zip_with_length; rewrite ?length_map; congruence).
    assert (Hm : forall i, (i < length mis)%nat ->
               nth i mis czero = bus_mismatch YV V Sbus w true s i).
    { intros i Hi. unfold mis, bus_mismatch.
      rewrite (zip_with_nth _ _ _ czero (fmul (of_Z 0) s) czero)
        by (rewrite ?length_map; lia).
      rewrite Hd by lia.
      rewrite (map_nth_in (fun x => fmul x s) w (of_Z 0) (fmul (of_Z 0) s))
        by lia.
      reflexivity. }
    rewrite <- Hlm in Href, Hpv, Hpq.
    destruct (@map_take_nth _ re _ _ ref Href Hm) as [r1 [E1 M1]].
    destruct (@map_take_nth _ re _ _ pv Hpv Hm) as [r2 [E2 M2]].
    destruct (@map_take_nth _ re _ _ pq Hpq Hm) as [r3 [E3 M3]].
    destruct (@map_take_nth _ im _ _ pq Hpq Hm) as [r4 [E4 M4]].
    rewrite E1; cbn [bind]. rewrite E2; cbn [bind]. rewrite E3; cbn [bind].
    unfold residual_of. rewrite M1, M2, M3.
    rewrite E3 in E4. inversion E4; subst r4. rewrite M4. reflexivity.
  - assert (Hm : forall i, (i < length d)%nat ->
               nth i d czero = bus_mismatch YV V Sbus w false s i).
    { intros i Hi. unfold bus_mismatch. apply Hd. lia. }
    rewrite <- Hld in Hpv, Hpq.
    destruct (@map_take_nth _ re _ _ pv Hpv Hm) as [r2 [E2 M2]].
    destruct (@map_take_nth _ re _ _ pq Hpq Hm) as [r3 [E3 M3]].
    destruct (@map_take_nth _ im _ _ pq Hpq Hm) as [r4 [E4 M4]].
    rewrite E2; cbn [bind]. rewrite E3; cbn [bind].
    unfold residual_of. rewrite M2, M3.
    rewrite E3 in E4. inversion E4; subst r4. rewrite M4. reflexivity.
Qed.

End Mismatch.

(** * The solve: what holds before the loop and across it *)

Ltac inv_res H :=
  repeat match type of H with
         | bind ?c _ = Ok _ =>
             let E := fresh "E" in
             destruct c eqn:E; cbn [bind] in H; [|discriminate H]
         | match ?v with _ => _ end = Ok _ =>
             let E := fresh "E" in destruct v eqn:E; try discriminate H
         end.

Section SolverFacts.

Context {F : Float64} {IX : Indices} {X : Collaborators}.

(** an iteration that returns has counted one more *)
Lemma newton_iteration_counter (e : env) (st st' : state) :
  newton_iteration e st = Ok st' -> st_i st' = st_i st + 1.
Proof.
  unfold newton_iteration. intros H. bind_cases H.
  inversion H. reflexivity.
Qed.

Lemma newton_loop_eq (e : env) (st : state) :
  newton_loop e st
  = if negb (st_converged st) && (st_i st <? e_max_it e)
    then st' <- newton_iteration e st ;; newton_loop e st'
    else Ok st.
Proof.
  rewrite newton_loop_unfold_eq. unfold newton_loop_unfold. cbn.
  destruct (negb (st_converged st) && (st_i st <? e_max_it e)); cbn;
    [|reflexivity].
  destruct (newton_iteration e st); reflexivity.
Qed.

(** a converged state is returned as it is *)
Lemma newton_loop_converged (e : env) (st : state) :
  st_converged st = true -> newton_loop e st = Ok st.
Proof.
  intros H. rewrite newton_loop_eq, H. reflexivity.
Qed.

(** what the loop keeps, it keeps to the end *)
Lemma newton_loop_invariant (P : state -> Prop) (e : env) :
  (forall s s', P s -> newton_iteration e s = Ok s' -> P s') ->
  forall st st', P st -> newton_loop e st = Ok st' -> P st'.
Proof.
  intros Hstep st.
  remember (Z.to_nat (e_max_it e - st_i st)) as n eqn:Hn.
  revert st Hn. induction n as [n IH] using lt_wf_ind.
  intros st Hn st' HP Hl. rewrite newton_loop_eq in Hl.
  destruct (negb (st_converged st) && (st_i st <? e_max_it e)) eqn:Hc.
  - apply bind_ok in Hl. destruct Hl as [s1 [H1 Hl]].
    pose proof (newton_iteration_counter _ _ H1) as Hi.
    apply andb_prop in Hc. destruct Hc as [_ Hc]. apply Z.ltb_lt in Hc.
    eapply (IH (Z.to_nat (e_max_it e - st_i s1))); [lia|reflexivity| |exact Hl].
    eapply Hstep; eauto.
  - inversion Hl. subst. exact HP.
Qed.

(** the loop stops on a state that has converged or has used the cap *)
Lemma newton_loop_stops (e : env) (st st' : state) :
  newton_loop e st = Ok st' ->
  st_converged st' = true \/ e_max_it e <= st_i st'.
Proof.
  remember (Z.to_nat (e_max_it e - st_i st)) as n eqn:Hn.
  revert st Hn. induction n as [n IH] using lt_wf_ind.
  intros st Hn Hl. rewrite newton_loop_eq in Hl.
  destruct (negb (st_converged st) && (st_i st <? e_max_it e)) eqn:Hc.
  - apply bind_ok in Hl. destruct Hl as [s1 [H1 Hl]].
    pose proof (newton_iteration_counter _ _ H1) as Hi.
    apply andb_prop in Hc. destruct Hc as [_ Hc]. apply Z.ltb_lt in Hc.
    eapply (IH (Z.to_nat (e_max_it e - st_i s1))); [lia|reflexivity|exact Hl].
  - inversion Hl. subst. apply andb_false_iff in Hc. destruct Hc as [Hc|Hc].
    + left. destruct (st_converged st'); [reflexivity|discriminate Hc].
    + right. apply Z.ltb_ge in Hc. exact Hc.
Qed.

(** what newtonpf_init fixes *)
Lemma newtonpf_init_facts (Ybus : spmat) (Sbus V0 : list complex)
    (ref pv pq : list Z) (p : ppci) (o : options) (mk : option makeYbus_t)
    (e : env) (st : state) :
  newtonpf_init Ybus Sbus V0 ref pv pq p o mk = Ok (e, st) ->
  bus_partition (distributed_slack o) ref pv = Ok (e_ref e, e_pv e)
  /\ e_pq e = pq
  /\ e_nref e = length (e_ref e)
  /\ e_npv e = length (e_pv e)
  /\ e_npq e = length (e_pq e)
  /\ e_dist_slack e = distributed_slack o
  /\ e_tdpf e = tdpf_on o
  /\ e_iwamoto e = String.eqb (algorithm o) "iwamoto_nr"
  /\ e_tol e = tolerance_mva o
  /\ e_max_it e = max_iteration o
  /\ e_T0 e = map (fun x => fmul x T_ref) (ones (length (rows (branch p))))
  /\ st_i st = 0
  /\ st_V st = V0
  /\ st_J st = None
  /\ (e_tdpf e = false -> st_T st = map (fun x => fdiv x T_base) (e_T0 e))
  /\ _check_for_convergence (st_F st) (e_tol e) = Ok (st_converged st).
Proof.
  unfold newtonpf_init, tdpf_on. intros H.
  inv_res H; inversion H; subst; clear H; cbn;
    repeat match goal with
           | |- _ /\ _ => split
           end;
    try reflexivity; try assumption; try discriminate;
    try (intros _; reflexivity).
  intros Hf.
  match goal with
  | E : (if _ then _ else _) = Ok _ |- _ =>
      rewrite Hf in E; inversion E; reflexivity
  end.
Qed.

(** the flag of a state is the verdict of the test on its residual *)
Lemma newton_iteration_check (e : env) (st st' : state) :
  newton_iteration e st = Ok st' ->
  _check_for_convergence (st_F st') (e_tol e) = Ok (st_converged st').
Proof.
  unfold newton_iteration. intros H.
  inv_res H; inversion H; subst; clear H; cbn; assumption.
Qed.

Lemma iterates_invariant (P : state -> Prop) (e : env) :
  (forall s s', newton_iteration e s = Ok s' -> P s') ->
  forall k st st', P st -> iterates k e st = Ok st' -> P st'.
Proof.
  intros Hstep k. induction k as [|k IH]; intros st st' HP H; simpl in H.
  - inversion H. subst. exact HP.
  - apply bind_ok in H. destruct H as [s1 [H1 H]].
    eapply IH; [|exact H]. eapply Hstep. exact H1.
Qed.

End SolverFacts.

(** * The loop: the start, the cap and the bus categories *)

Section LoopClaims.

Context {F : Float64} {IX : Indices} {X : Collaborators}.

(** C5: when the residual of the initial guess passes the convergence test,
    the solver returns without a pass through the loop: iteration count 0,
    convergence flag true, the initial voltage vector. *)
Theorem newtonpf_converged_at_start (Ybus : spmat) (Sbus V0 : list complex)
    (ref pv pq : list Z) (p : ppci) (o : options) (mk : option makeYbus_t)
    (e : env) (st0 : state) :
  newtonpf_init Ybus Sbus V0 ref pv pq p o mk = Ok (e, st0) ->
  _check_for_convergence (st_F st0) (tolerance_mva o) = Ok true ->
  exists out,
    newtonpf Ybus Sbus V0 ref pv pq p o mk = Ok out
    /\ out_i out = 0
    /\ out_converged out = true
    /\ out_V out = V0.
Proof.
  intros Hinit Hconv.
  pose proof (newtonpf_init_facts _ _ _ _ _ _ _ _ _ Hinit) as Hf.
  destruct Hf as (_ & _ & _ & _ & _ & _ & _ & _ & Htol & _ & _ & Hi & HV & _ & _ & Hc).
  rewrite Htol, Hconv in Hc. inversion Hc as [Hc'].
  exists (newtonpf_return st0). unfold newtonpf. rewrite Hinit. cbn [bind].
  rewrite newton_loop_eq. rewrite <- Hc'. cbn [negb andb bind].
  unfold newtonpf_return. cbn. rewrite <- Hc'. auto.
Qed.

Lemma iterates_counter (e : env) (k : nat) (st st' : state) :
  iterates k e st = Ok st' -> st_i st' = st_i st + Z.of_nat k.
Proof.
  revert st. induction k as [|k IH]; intros st H; simpl in H.
  - inversion H. lia.
  - apply bind_ok in H. destruct H as [s1 [H1 H]].
    apply newton_iteration_counter in H1. apply IH in H. lia.
Qed.

(** a loop that finds no converged state runs as long as the cap allows *)
Lemma newton_loop_runs_to_cap (e : env) (n : nat) (st : state) :
  Z.of_nat n = e_max_it e - st_i st ->
  (forall k, (k <= n)%nat ->
     exists s, iterates k e st = Ok s /\ st_converged s = false) ->
  exists s, iterates n e st = Ok s /\ newton_loop e st = Ok s.
Proof.
  revert st. induction n as [|n IH]; intros st Hn Hk.
  - exists st. split; [reflexivity|]. rewrite newton_loop_eq.
    replace (st_i st <? e_max_it e) with false
      by (symmetry; apply Z.ltb_ge; lia).
    rewrite andb_false_r. reflexivity.
  - destruct (Hk 0%nat ltac:(lia)) as [s0 [H0 Hc0]].
    simpl in H0. inversion H0; subst s0.
    destruct (Hk 1%nat ltac:(lia)) as [s1 [H1 _]].
    simpl in H1. apply bind_ok in H1. destruct H1 as [s1' [H1 H1']].
    inversion H1'; subst s1'.
    pose proof (newton_iteration_counter _ _ H1) as Hi.
    destruct (IH s1) as [s [Hs Hl]].
    + lia.
    + intros k Hle. destruct (Hk (S k) ltac:(lia)) as [s [Hs Hc]].
      simpl in Hs. rewrite H1 in Hs. cbn [bind] in Hs. eauto.
    + exists s. split.
      * simpl. rewrite H1. exact Hs.
      * rewrite newton_loop_eq. rewrite Hc0.
        replace (st_i st <? e_max_it e) with true
          by (symmetry; apply Z.ltb_lt; lia).
        cbn [negb andb]. rewrite H1. exact Hl.
Qed.

(** C4: when every iterate up to the cap is computed and fails the
    convergence test, the solver returns (it does not raise) after exactly
    max_iteration passes, with the convergence flag false and the voltage and
    the temperature of the last iterate. *)
Theorem newtonpf_iteration_cap (Ybus : spmat) (Sbus V0 : list complex)
    (ref pv pq : list Z) (p : ppci) (o : options) (mk : option makeYbus_t)
    (e : env) (st0 : state) :
  newtonpf_init Ybus Sbus V0 ref pv pq p o mk = Ok (e, st0) ->
  0 <= max_iteration o ->
  (forall k, (k <= Z.to_nat (max_iteration o))%nat ->
     exists s, iterates k e st0 = Ok s
               /\ _check_for_convergence (st_F s) (tolerance_mva o) = Ok false) ->
  exists s out,
    iterates (Z.to_nat (max_iteration o)) e st0 = Ok s
    /\ newtonpf Ybus Sbus V0 ref pv pq p o mk = Ok out
    /\ out_converged out = false
    /\ out_i out = max_iteration o
    /\ out_V out = st_V s
    /\ out_T out = Some (map (fun t => fmul t T_base) (st_T s)).
Proof.
  intros Hinit Hcap Hk.
  pose proof (newtonpf_init_facts _ _ _ _ _ _ _ _ _ Hinit) as Hf.
  destruct Hf as (_ & _ & _ & _ & _ & _ & _ & _ & Htol & Hmax & _ & Hi & _ & _ & _ & Hc0).
  assert (Hchk : forall k s, iterates k e st0 = Ok s ->
                   _check_for_convergence (st_F s) (e_tol e)
                   = Ok (st_converged s)).
  { intros k s Hs.
    eapply (iterates_invariant
              (fun s => _check_for_convergence (st_F s) (e_tol e)
                        = Ok (st_converged s))); [|exact Hc0|exact Hs].
    intros s1 s2 H12. eapply newton_iteration_check. exact H12. }
  destruct (@newton_loop_runs_to_cap e (Z.to_nat (max_iteration o)) st0)
    as [s [Hs Hl]].
  - rewrite Hmax, Hi. lia.
  - intros k Hle. destruct (Hk k Hle) as [s [Hs Hc]].
    exists s. split; [exact Hs|].
    pose proof (Hchk k s Hs) as Hc'. rewrite Htol, Hc in Hc'.
    inversion Hc'. reflexivity.
  - exists s, (newtonpf_return s). split; [exact Hs|].
    unfold newtonpf. rewrite Hinit. cbn [bind]. rewrite Hl. cbn [bind].
    split; [reflexivity|].
    destruct (Hk _ (Nat.le_refl _)) as [s' [Hs' Hc]].
    rewrite Hs in Hs'. inversion Hs'; subst s'.
    pose proof (Hchk _ s Hs) as Hc'. rewrite Htol, Hc in Hc'.
    inversion Hc' as [Hc''].
    pose proof (iterates_counter _ _ _ Hs) as Hcnt.
    unfold newtonpf_return. cbn.
    repeat split; [symmetry; exact Hc''|lia].
Qed.

Lemma bus_partition_moves (ref pv : list Z) (r0 r1 : Z) (rest : list Z) :
  ref = r0 :: r1 :: rest ->
  bus_partition true ref pv = Ok ([r0], (r1 :: rest) ++ pv).
Proof.
  intros ->. unfold bus_partition. cbn [length Nat.ltb Nat.leb andb skipn].
  unfold take. cbn [mapM].
  rewrite (@item_in_range _ (r0 :: r1 :: rest) 0 0) by (cbn [length]; lia).
  reflexivity.
Qed.

Lemma bus_partition_keeps (ds : bool) (ref pv : list Z) :
  ds = false \/ (length ref <= 1)%nat ->
  bus_partition ds ref pv = Ok (ref, pv).
Proof.
  intros H. unfold bus_partition.
  destruct ds; [|reflexivity].
  destruct H as [H|H]; [discriminate H|].
  replace (Nat.ltb 1 (length ref)) with false
    by (symmetry; apply Nat.ltb_ge; exact H).
  reflexivity.
Qed.

(** C6: the bus categories the loop works with are fixed before it starts.
    With distributed slack and more than one reference bus, the reference set
    is its first bus alone and the other reference buses stand in front of
    the voltage-controlled buses; otherwise both sets are the caller's.  The
    load buses are the caller's in every case. *)
Theorem newtonpf_bus_partition (Ybus : spmat) (Sbus V0 : list complex)
    (ref pv pq : list Z) (p : ppci) (o : options) (mk : option makeYbus_t)
    (e : env) (st0 : state) :
  newtonpf_init Ybus Sbus V0 ref pv pq p o mk = Ok (e, st0) ->
  e_pq e = pq
  /\ (distributed_slack o = true -> (1 < length ref)%nat ->
      exists r0 rest,
        ref = r0 :: rest /\ e_ref e = [r0] /\ e_pv e = rest ++ pv)
  /\ (distributed_slack o = false \/ (length ref <= 1)%nat ->
      e_ref e = ref /\ e_pv e = pv).
Proof.
  intros Hinit.
  pose proof (newtonpf_init_facts _ _ _ _ _ _ _ _ _ Hinit) as Hf.
  destruct Hf as (Hp & Hpq & _).
  split; [exact Hpq|]. split.
  - intros Hds Hlen. rewrite Hds in Hp.
    destruct ref as [|r0 [|r1 rest]]; cbn [length] in Hlen; try lia.
    rewrite (@bus_partition_moves _ pv r0 r1 rest eq_refl) in Hp.
    inversion Hp. exists r0, (r1 :: rest). auto.
  - intros H. rewrite (bus_partition_keeps _ pv H) in Hp.
    inversion Hp. auto.
Qed.

End LoopClaims.

(** * The step applied to the voltage *)

Section UpdateStep.

Context {F : Float64} {IX : Indices} {X : Collaborators}.

(** with the acceleration configured and no thermal coupling, the magnitudes
    and angles are those _iwamoto_step returns from the untouched ones *)
Lemma update_voltage_accelerated (e : env) (Ybus : spmat) (J : jacobian)
    (Fx dx : list f64) (st : state) (dVa dVm : list f64) :
  e_iwamoto e = true -> e_tdpf e = false -> st_dV st = Some (dVa, dVm) ->
  update_voltage e Ybus J Fx dx st
  = (slack <- (if e_dist_slack e
               then bcast2 fadd (st_slack st) (slice dx (j7 e) (j8 e))
               else Ok (st_slack st)) ;;
     r <- _iwamoto_step Ybus J Fx dx (e_pq e) (e_npv e) (e_npq e) dVa dVm
            (st_Vm st) (st_Va st) (e_pv e) (j1 e) (j2 e) (j3 e) (j4 e)
            (j5 e) (j6 e) ;;
     let '(Vm', Va', dVa', dVm') := r in
     Ok (Vm', Va', Some (dVa', dVm'), slack, st_T st)).
Proof.
  intros Hiw Htd HdV. unfold update_voltage.
  rewrite Hiw, Htd, HdV. cbn [negb andb bind]. rewrite !andb_false_r.
  cbn [bind].
  destruct (if e_dist_slack e then _ else _) as [slack|x]; cbn [bind];
    [|reflexivity].
  destruct (_iwamoto_step _ _ _ _ _ _ _ _ _ _ _ _ _ _ _ _ _ _)
    as [[[[Vm' Va'] dVa'] dVm']|x]; reflexivity.
Qed.

(** without the acceleration, the angles at the voltage-controlled buses,
    then the angles and the magnitudes at the load buses, take their
    segments of the step *)
Lemma update_voltage_plain (e : env) (Ybus : spmat) (J : jacobian)
    (Fx dx : list f64) (st : state) :
  e_iwamoto e = false ->
  update_voltage e Ybus J Fx dx st
  = (Va <- (if negb (Nat.eqb (e_npv e) 0) then
              g <- take (st_Va st) (e_pv e) ;;
              s <- bcast2 fadd g (slice dx 0 (e_npv e)) ;;
              put (st_Va st) (e_pv e) s
            else Ok (st_Va st)) ;;
     VaVm <- (if negb (Nat.eqb (e_npq e) 0) then
                g <- take Va (e_pq e) ;;
                s <- bcast2 fadd g (slice dx (e_npv e) (e_npv e + e_npq e)) ;;
                Va' <- put Va (e_pq e) s ;;
                g' <- take (st_Vm st) (e_pq e) ;;
                s' <- bcast2 fadd g'
                        (slice dx (e_npv e + e_npq e)
                           (e_npv e + e_npq e + e_npq e)) ;;
                Vm' <- put (st_Vm st) (e_pq e) s' ;;
                Ok (Va', Vm')
              else Ok (Va, st_Vm st)) ;;
     slack <- (if e_dist_slack e
               then bcast2 fadd (st_slack st) (slice dx (j7 e) (j8 e))
               else Ok (st_slack st)) ;;
     T <- (if e_tdpf e then bcast2 fadd (st_T st) (slice_from dx (j7 e))
           else Ok (st_T st)) ;;
     Ok (snd VaVm, fst VaVm, st_dV st, slack, T)).
Proof.
  intros Hiw. unfold update_voltage, j1, j2, j3, j4, j5, j6.
  rewrite Hiw. cbn [negb andb]. rewrite !andb_true_r.
  destruct (if negb (Nat.eqb (e_npv e) 0) then _ else _) as [Va|x];
    cbn [bind]; [|reflexivity].
  destruct (if negb (Nat.eqb (e_npq e) 0) then _ else _) as [[Va' Vm']|x];
    cbn [bind]; [|reflexivity].
  destruct (if e_dist_slack e then _ else _) as [slack|x]; cbn [bind];
    [|reflexivity].
  destruct (if e_tdpf e then _ else _) as [T|x]; reflexivity.
Qed.

(** C3, where the code leaves it: with the acceleration configured and the
    thermal coupling on, neither update is applied; whatever the solved step
    is, the magnitudes and the angles stay as they were. *)
Theorem update_voltage_skipped (e : env) (Ybus : spmat) (J : jacobian)
    (Fx dx : list f64) (st : state) (Vm Va slack T : list f64)
    (dV : option (list f64 * list f64)) :
  e_iwamoto e = true -> e_tdpf e = true ->
  update_voltage e Ybus J Fx dx st = Ok (Vm, Va, dV, slack, T) ->
  Vm = st_Vm st /\ Va = st_Va st.
Proof.
  intros Hiw Htd. unfold update_voltage.
  rewrite Hiw, Htd. cbn [negb andb bind]. rewrite !andb_false_r.
  cbn [bind]. intros H. inv_res H. inversion H. auto.
Qed.

End UpdateStep.

(** * The thermal rows and the temperature returned *)

Section Tabulate.

(** a list as the table of its entries *)
Lemma list_tabulate {A : Type} (d : A) (l : list A) (n : nat) :
  length l = n -> l = map (fun k => nth k l d) (seq 0 n).
Proof.
  intros <-. apply (nth_ext _ _ d (nth 0 l d)).
  - rewrite length_map, length_seq. reflexivity.
  - intros k Hk.
    rewrite (nth_indep _ (nth 0 l d) (nth (0 + length l) l d))
      by (rewrite length_map, length_seq; exact Hk).
    rewrite (map_nth (fun k => nth k l d) (seq 0 (length l)) (0 + length l)%nat).
    rewrite seq_nth by exact Hk. reflexivity.
Qed.

Lemma zip_with_map {A B C D : Type} (f : A -> B -> C) (g : D -> A)
    (h : D -> B) (l : list D) :
  zip_with f (map g l) (map h l) = map (fun k => f (g k) (h k)) l.
Proof.
  unfold zip_with. induction l as [|x l IH]; simpl; [reflexivity|].
  rewrite IH. reflexivity.
Qed.

Lemma bcast2_map {A B C D : Type} (f : A -> B -> C) (g : D -> A)
    (h : D -> B) (l : list D) :
  bcast2 f (map g l) (map h l) = Ok (map (fun k => f (g k) (h k)) l).
Proof.
  rewrite bcast2_same_length by (rewrite !length_map; reflexivity).
  rewrite zip_with_map. reflexivity.
Qed.

End Tabulate.

Section Thermal.

Context {F : Float64} {IX : Indices} {X : Collaborators}.

(** entry by entry, the thermal residual is the thermal row of the branch *)
Lemma thermal_residual_rows (nb : nat) (e : env) (V : list complex)
    (T : list f64) (th : thermal) :
  thermal_shapes nb e T th ->
  thermal_residual e V T th
  = Ok (thermal_rows nb (e_tdpf_delay_s e) (th_a0 th) (th_a1 th) (th_a2 th)
          (th_tau th) (th_I th) (e_T0 e) T).
Proof.
  intros (H0 & H1 & H2 & Ht & HI & HT0 & HT).
  remember (Ok (thermal_rows nb (e_tdpf_delay_s e) (th_a0 th) (th_a1 th)
                  (th_a2 th) (th_tau th) (th_I th) (e_T0 e) T)) as R eqn:HR.
  unfold thermal_residual, _evaluate_dT, _calc_T.
  rewrite (list_tabulate (of_Z 0) (th_a0 th) H0).
  rewrite (list_tabulate (of_Z 0) (th_a1 th) H1).
  rewrite (list_tabulate (of_Z 0) (th_a2 th) H2).
  rewrite (list_tabulate (of_Z 0) (th_tau th) Ht).
  rewrite (list_tabulate (of_Z 0) (th_I th) HI).
  rewrite (list_tabulate (of_Z 0) (e_T0 e) HT0).
  rewrite (list_tabulate (of_Z 0) T HT).
  rewrite !map_map.
  repeat (progress cbn [bind] || rewrite bcast2_map).
  subst R. unfold thermal_rows, thermal_row, heat_balance_temperature.
  destruct (e_tdpf_delay_s e) as [d|]; rewrite ?map_map;
    repeat (progress cbn [bind] || rewrite bcast2_map);
    rewrite ?map_map; reflexivity.
Qed.

(** the residual of an iterate under thermal coupling: the power part, then
    the thermal residual of its own voltage and temperature *)
Lemma newton_iteration_thermal (e : env) (st st' : state) :
  e_tdpf e = true ->
  newton_iteration e st = Ok st' ->
  exists Fx th F_t,
    st_th st' = Some th
    /\ length Fx = power_length e
    /\ thermal_residual e (st_V st') (st_T st') th = Ok F_t
    /\ st_F st' = Fx ++ F_t.
Proof.
  intros Htd H. unfold newton_iteration in H. rewrite Htd in H.
  cbv iota in H.
  inv_res H; inversion H; subst; clear H; cbn [st_th st_F st_V st_T].
  match goal with
  | E : _evaluate_Fx _ _ _ _ _ _ _ _ _ = Ok ?Fx,
    E' : context [thermal_residual] |- _ =>
      apply evaluate_Fx_length in E; inv_res E'; inversion E'; subst; clear E'
  end.
  do 3 eexists. split; [reflexivity|]. split; [eassumption|].
  split; [eassumption|reflexivity].
Qed.

Lemma newtonpf_init_thermal (Ybus : spmat) (Sbus V0 : list complex)
    (ref pv pq : list Z) (p : ppci) (o : options) (mk : option makeYbus_t)
    (e : env) (st : state) :
  newtonpf_init Ybus Sbus V0 ref pv pq p o mk = Ok (e, st) ->
  e_tdpf e = true ->
  exists Fx th F_t,
    st_th st = Some th
    /\ length Fx = power_length e
    /\ thermal_residual e (st_V st) (st_T st) th = Ok F_t
    /\ st_F st = Fx ++ F_t.
Proof.
  intros H Htd. unfold newtonpf_init in H.
  inv_res H; inversion H; subst; clear H;
    cbn [st_th st_F st_V st_T e_tdpf] in *.
  match goal with
  | E : _evaluate_Fx _ _ _ _ _ _ _ _ _ = Ok ?Fx,
    E' : context [thermal_residual] |- _ =>
      apply evaluate_Fx_length in E; rewrite Htd in E'; inv_res E';
      inversion E'; subst; clear E'
  end.
  do 3 eexists. split; [reflexivity|]. split; [eassumption|].
  split; [eassumption|reflexivity].
Qed.

(** where every thermal quantity has one entry per branch, the residual of
    every iterate under thermal coupling, the initial one included, is the
    power part followed by one row per branch: the
    heat-balance temperature of the branch (steady-state a0 + a1 I^2 + a2 I^4
    without a delay, transient t_ss - (t_ss - T0) exp(-delay/tau) with one)
    minus its present temperature T * T_base, over T_base = 100, the constant
    that scales the temperature unknown T. *)
Lemma thermal_rows_appended (Ybus : spmat) (Sbus V0 : list complex)
    (ref pv pq : list Z) (p : ppci) (o : options) (mk : option makeYbus_t)
    (e : env) (st0 s : state) (k : nat) :
  newtonpf_init Ybus Sbus V0 ref pv pq p o mk = Ok (e, st0) ->
  e_tdpf e = true ->
  iterates k e st0 = Ok s ->
  T_base = of_Z 100
  /\ exists Fx th,
      st_th s = Some th
      /\ length Fx = power_length e
      /\ forall nb, thermal_shapes nb e (st_T s) th ->
           st_F s = Fx ++ thermal_rows nb (e_tdpf_delay_s e) (th_a0 th)
                            (th_a1 th) (th_a2 th) (th_tau th) (th_I th)
                            (e_T0 e) (st_T s).
Proof.
  intros Hinit Htd Hk. split; [reflexivity|].
  assert (HP : exists Fx th F_t,
             st_th s = Some th /\ length Fx = power_length e
             /\ thermal_residual e (st_V s) (st_T s) th = Ok F_t
             /\ st_F s = Fx ++ F_t).
  { eapply (iterates_invariant
              (fun s => exists Fx th F_t,
                 st_th s = Some th /\ length Fx = power_length e
                 /\ thermal_residual e (st_V s) (st_T s) th = Ok F_t
                 /\ st_F s = Fx ++ F_t)); [| |exact Hk].
    - intros s1 s2 H12. eapply newton_iteration_thermal; eassumption.
    - eapply newtonpf_init_thermal; eassumption. }
  destruct HP as (Fx & th & F_t & Hth & Hlen & Hres & HF).
  exists Fx, th. split; [exact Hth|]. split; [exact Hlen|].
  intros nb Hsh. rewrite (thermal_residual_rows (st_V s) Hsh) in Hres.
  inversion Hres. subst F_t. exact HF.
Qed.

Lemma update_voltage_T_off (e : env) (Ybus : spmat) (J : jacobian)
    (Fx dx : list f64) (st : state) (Vm Va slack T : list f64)
    (dV : option (list f64 * list f64)) :
  e_tdpf e = false ->
  update_voltage e Ybus J Fx dx st = Ok (Vm, Va, dV, slack, T) ->
  T = st_T st.
Proof.
  intros Htd H. unfold update_voltage in H. rewrite Htd in H.
  inv_res H; inversion H; subst; reflexivity.
Qed.

(** without thermal coupling a pass through the loop keeps the temperature *)
Lemma newton_iteration_T_off (e : env) (st st' : state) :
  e_tdpf e = false ->
  newton_iteration e st = Ok st' ->
  st_T st' = st_T st.
Proof.
  intros Htd H. unfold newton_iteration in H.
  inv_res H; inversion H; subst; clear H; cbn [st_T].
  match goal with
  | E : update_voltage _ _ _ _ _ _ = Ok _ |- _ =>
      eapply update_voltage_T_off in E; [exact E|exact Htd]
  end.
Qed.

End Thermal.

(** * The length of the residual and the order of the Jacobian *)

Section Lengths.

Context {F : Float64} {IX : Indices} {X : Collaborators}.

Lemma bcast2_length_eq {A B C : Type} (f : A -> B -> C) xs ys r (n : nat) :
  length xs = n -> length ys = n -> bcast2 f xs ys = Ok r -> length r = n.
Proof.
  intros Hx Hy H. apply bcast2_length in H. rewrite H.
  destruct (Nat.eqb (length xs) 1); assumption.
Qed.

Lemma set_col_rows (M M' : array2) (k : nat) (vals : list f64) :
  set_col M k vals = Ok M' -> length (rows M') = length (rows M).
Proof.
  unfold set_col. intros H.
  destruct (Nat.ltb k (ncols M)); [|discriminate H].
  destruct vals as [|v [|v' vals]].
  - destruct (Nat.eqb _ _) eqn:E; [|discriminate H]. inversion H. cbn.
    apply Nat.eqb_eq in E. rewrite zip_with_length; congruence.
  - inversion H. cbn. apply length_map.
  - destruct (Nat.eqb _ _) eqn:E; [|discriminate H]. inversion H. cbn.
    apply Nat.eqb_eq in E. rewrite zip_with_length; congruence.
Qed.

Lemma calc_T_length (V : list complex) (I a0 a1 a2 tau T0 r : list f64)
    (d : option f64) (nb : nat) :
  length I = nb -> length a0 = nb -> length a1 = nb -> length a2 = nb ->
  length tau = nb -> length T0 = nb ->
  _calc_T V I a0 a1 a2 tau d T0 = Ok r -> length r = nb.
Proof.
  intros HI H0 H1 H2 Ht HT0 H. unfold _calc_T in H.
  apply bind_ok in H. destruct H as [x1 [E1 H]].
  apply bind_ok in H. destruct H as [s1 [E2 H]].
  apply bind_ok in H. destruct H as [x2 [E3 H]].
  apply bind_ok in H. destruct H as [t_ss [E4 H]].
  assert (L : forall (f : f64 -> f64 -> f64) xs ys r,
             bcast2 f xs ys = Ok r -> length xs = nb -> length ys = nb ->
             length r = nb).
  { intros f xs ys r0 E Hx Hy. exact (bcast2_length_eq f xs ys Hx Hy E). }
  pose proof (L _ _ _ _ E1 H1 ltac:(rewrite length_map; exact HI)) as L1.
  pose proof (L _ _ _ _ E2 H0 L1) as L2.
  pose proof (L _ _ _ _ E3 H2 ltac:(rewrite length_map; exact HI)) as L3.
  pose proof (L _ _ _ _ E4 L2 L3) as L4.
  destruct d as [delay|].
  - apply bind_ok in H. destruct H as [dd [E5 H]].
    apply bind_ok in H. destruct H as [m [E6 H]].
    pose proof (L _ _ _ _ E5 L4 HT0) as L5.
    pose proof (L _ _ _ _ E6 L5 ltac:(rewrite length_map; exact Ht)) as L6.
    exact (L _ _ _ _ H L4 L6).
  - inversion H. subst. assumption.
Qed.

Lemma thermal_residual_length (nb : nat) (e : env) (V : list complex)
    (T r : list f64) (th : thermal) :
  thermal_shapes nb e T th ->
  thermal_residual e V T th = Ok r -> length r = nb.
Proof.
  intros Hsh H. rewrite (thermal_residual_rows V Hsh) in H.
  inversion H. unfold thermal_rows. rewrite length_map, length_seq.
  reflexivity.
Qed.

Lemma update_voltage_T_on (e : env) (Ybus : spmat) (J : jacobian)
    (Fx dx : list f64) (st : state) (Vm Va slack T : list f64)
    (dV : option (list f64 * list f64)) :
  e_tdpf e = true ->
  update_voltage e Ybus J Fx dx st = Ok (Vm, Va, dV, slack, T) ->
  bcast2 fadd (st_T st) (slice_from dx (j7 e)) = Ok T.
Proof.
  intros Htd H. unfold update_voltage in H. rewrite Htd in H.
  cbv iota in H. inv_res H; inversion H; subst;
    first [assumption | reflexivity].
Qed.

Lemma iterates_preserves (P : state -> Prop) (e : env) :
  (forall s s', P s -> newton_iteration e s = Ok s' -> P s') ->
  forall k st st', P st -> iterates k e st = Ok st' -> P st'.
Proof.
  intros Hstep k. induction k as [|k IH]; intros st st' HP H; simpl in H.
  - inversion H. subst. exact HP.
  - apply bind_ok in H. destruct H as [s1 [H1 H]].
    eapply IH; [|exact H]. eapply Hstep; eassumption.
Qed.

Lemma residual_length_power (e : env) (nb : nat) :
  env_counts e nb ->
  residual_length e nb
  = (power_length e + (if e_tdpf e then nb else 0))%nat.
Proof.
  intros (_ & _ & _ & _ & _ & Href). unfold residual_length, power_length.
  destruct (e_dist_slack e); [rewrite (Href eq_refl)|]; lia.
Qed.

(** one pass keeps the lengths, and its Jacobian is square of the order of
    the residual it is solved against, unless distributed slack and thermal
    coupling are both on *)
Lemma newton_iteration_lengths (e : env) (nb : nat) (st st' : state) :
  respects_shapes -> env_counts e nb ->
  e_dist_slack e && e_tdpf e = false ->
  lengths_ok e nb st ->
  newton_iteration e st = Ok st' ->
  lengths_ok e nb st'
  /\ exists J, st_J st' = Some J
               /\ jac_shape J = (length (st_F st), length (st_F st)).
Proof.
  intros (Hjac & Hjt & Hsol & Hcoef & Hflows & HI) Hcnt Hboth [HF Hth] H.
  pose proof (residual_length_power Hcnt) as Hrl.
  destruct Hcnt as (Hnref & Hnpv & Hnpq & Halpha & HT0 & Href).
  unfold power_length in Hrl.
  unfold newton_iteration in H.
  destruct (e_tdpf e) eqn:Htd; cbv iota in H.
  - (* thermal coupling, hence no distributed slack *)
    rewrite andb_true_r in Hboth.
    destruct (Hth eq_refl) as (HT & Hbr & th & Hst & Ha0 & Ha1 & Ha2 & Htau).
    rewrite Hst in H.
    inv_res H; injection H as <-; unfold lengths_ok;
      cbn [st_F st_J st_T st_th st_branch].
    match goal with
    | E : match e_makeYbus e with _ => _ end = Ok _ |- _ =>
        inv_res E; injection E as <- <- <-
    end.
    match goal with
    | E : set_col _ _ _ = Ok _ |- _ => apply set_col_rows in E; rename E into Hrows
    end.
    match goal with
    | E : bind (bcast2 fmul (th_a1 _) _) _ = Ok _ |- _ =>
        cbn [th_a1 th_a2 th_tau th_Sf th_St th_i_pu] in E; inv_res E;
        apply Hjt in E; rename E into HJ'
    end.
    match goal with
    | E : create_jacobian_matrix _ _ _ _ _ _ _ _ _ _ _ _ _ _ = Ok _ |- _ =>
        apply Hjac in E; rewrite E in HJ'; cbn [fst snd] in HJ'
    end.
    rewrite Hboth, Halpha, Hnpv, Hnpq in HJ'.
    rewrite Hboth in Hrl.
    match goal with
    | E : spsolve _ _ _ _ = Ok _ |- _ =>
        apply Hsol in E; rewrite HJ' in E; cbn [fst] in E; rename E into Hdx
    end.
    match goal with
    | E : update_voltage _ _ _ _ _ _ = Ok _ |- _ =>
        eapply update_voltage_T_on in E; [|exact Htd];
        apply bcast2_length in E; rename E into HT'
    end.
    unfold slice_from, j7, j6, j4, j2 in HT'.
    rewrite length_skipn, length_map, Hdx, Hnpv, Hnpq, HT in HT'.
    assert (HT'' : forall n : nat, n = (if Nat.eqb nb 1
                then (length (e_pv e) + 2 * length (e_pq e) + nb
                      - (length (e_pv e) + length (e_pq e) + length (e_pq e)))%nat
                else nb) -> n = nb).
    { intros n ->. destruct (Nat.eqb nb 1); lia. }
    apply HT'' in HT'. clear HT''.
    match goal with
    | E : context [thermal_residual] |- _ =>
        cbn [th_Yf th_Yt th_a0 th_a1 th_a2 th_tau] in E; inv_res E;
        injection E as <- <-
    end.
    match goal with
    | E : get_S_flows _ _ _ _ _ = Ok _ |- _ => apply Hflows in E; rename E into HSf
    end.
    match goal with
    | E : calc_I _ _ _ _ = Ok _ |- _ => apply HI in E; rename E into HIl
    end.
    match goal with
    | E : thermal_residual ?e0 ?V0 ?T0' ?th0 = Ok ?r |- _ =>
        assert (HFt : length r = nb)
          by (apply (@thermal_residual_length nb e0 V0 T0' r th0);
              [unfold thermal_shapes; cbn [th_a0 th_a1 th_a2 th_tau th_I];
               repeat split; try assumption; congruence
              |exact E])
    end.
    match goal with
    | E : _evaluate_Fx _ _ _ _ _ _ _ _ _ = Ok _ |- _ =>
        apply evaluate_Fx_length in E; rewrite Hboth in E; rename E into HFx
    end.
    split.
    + split.
      * rewrite length_app, HFx, HFt, Hrl. lia.
      * intros _. split; [exact HT'|]. split; [congruence|].
        eexists. split; [reflexivity|]. cbn [th_a0 th_a1 th_a2 th_tau]. auto.
    + eexists. split; [reflexivity|]. rewrite HJ', HF, Hrl. f_equal; lia.
  - inv_res H; injection H as <-; unfold lengths_ok;
      cbn [st_F st_J st_T st_th st_branch].
    split.
    + split; [|intros Hx; congruence].
      match goal with
      | E : _evaluate_Fx _ _ _ _ _ _ _ _ _ = Ok _ |- _ =>
          apply evaluate_Fx_length in E; rewrite E
      end.
      rewrite Hrl. lia.
    + eexists. split; [reflexivity|].
      match goal with
      | E : create_jacobian_matrix _ _ _ _ _ _ _ _ _ _ _ _ _ _ = Ok _ |- _ =>
          rewrite (Hjac _ _ _ _ _ _ _ _ _ _ _ _ _ _ _ E)
      end.
      rewrite HF, Hrl, Hnref, Hnpv, Hnpq.
      replace (length (e_pq e) + (length (e_pq e) + 0))%nat
        with (2 * length (e_pq e))%nat by lia.
      rewrite Nat.add_0_r. reflexivity.
Qed.

Lemma col_length (M : array2) (k : nat) (c : list f64) :
  col M k = Ok c -> length c = length (rows M).
Proof.
  unfold col. destruct (Nat.ltb k (ncols M)); [|discriminate].
  apply mapM_length.
Qed.

Lemma bus_partition_one_reference (ref pv ref' pv' : list Z) :
  ref <> [] ->
  bus_partition true ref pv = Ok (ref', pv') -> length ref' = 1%nat.
Proof.
  intros Hne H. unfold bus_partition in H. cbn [andb] in H.
  destruct (Nat.ltb 1 (length ref)) eqn:E.
  - apply bind_ok in H. destruct H as [r [Hr H]].
    apply take_length in Hr. inversion H. subst. exact Hr.
  - inversion H. subst. apply Nat.ltb_ge in E.
    destruct ref' as [|x [|y r]]; cbn [length] in *; try lia.
    contradiction.
Qed.

(** the lengths before the first pass, in every configuration *)
Lemma newtonpf_init_lengths (Ybus : spmat) (Sbus V0 : list complex)
    (ref pv pq : list Z) (p : ppci) (o : options) (mk : option makeYbus_t)
    (e : env) (st0 : state) :
  respects_shapes ->
  (distributed_slack o = true -> ref <> []) ->
  newtonpf_init Ybus Sbus V0 ref pv pq p o mk = Ok (e, st0) ->
  env_counts e (length (rows (branch p)))
  /\ lengths_ok e (length (rows (branch p))) st0.
Proof.
  intros (Hjac & Hjt & Hsol & Hcoef & Hflows & HI) Href H.
  unfold newtonpf_init in H.
  inv_res H; injection H as <- <-.
  match goal with
  | |- env_counts ?e0 _ /\ _ =>
      assert (Hcnt : env_counts e0 (length (rows (branch p))))
  end.
  { unfold env_counts. cbn.
    repeat split; unfold ones; rewrite ?length_map, ?repeat_length;
      try reflexivity.
    intros Hds.
    match goal with
    | E : bus_partition _ _ _ = Ok _ |- _ =>
        rewrite Hds in E; apply bus_partition_one_reference in E; auto
    end. }
  split; [exact Hcnt|].
  pose proof (residual_length_power Hcnt) as Hrl.
  unfold power_length in Hrl.
  cbn [e_dist_slack e_ref e_pv e_pq e_tdpf] in Hrl.
  unfold lengths_ok. cbn [st_F st_T st_branch st_th e_tdpf].
  match goal with
  | E : _evaluate_Fx _ _ _ _ _ _ _ _ _ = Ok _ |- _ =>
      apply evaluate_Fx_length in E; rename E into HFx
  end.
  match goal with
  | E : (if match tdpf o with _ => _ end then _ else _) = Ok _ |- _ =>
      rename E into Hth
  end.
  destruct (match tdpf o with Some b => b | None => false end) eqn:Htd.
  - inv_res Hth. injection Hth as <- <- <- <-.
    repeat match goal with
           | E : col _ _ = Ok _ |- _ => apply col_length in E
           end.
    match goal with
    | E : calc_a0_a1_a2_tau _ _ _ _ _ _ _ _ = Ok _ |- _ =>
        apply Hcoef in E; rewrite length_map in E;
        destruct E as (Ha0 & Ha1 & Ha2 & Htau)
    end.
    match goal with
    | E : get_S_flows _ _ _ _ _ = Ok _ |- _ => apply Hflows in E; rename E into HSf
    end.
    match goal with
    | E : calc_I _ _ _ _ = Ok _ |- _ => apply HI in E; rename E into HIl
    end.
    assert (HT0 : length (map (fun x => fmul x T_ref)
                            (ones (length (rows (branch p)))))
                  = length (rows (branch p)))
      by (unfold ones; rewrite length_map, repeat_length; reflexivity).
    match goal with
    | E : _calc_T _ _ _ _ _ _ _ _ = Ok _ |- _ =>
        apply (@calc_T_length _ _ _ _ _ _ _ _ _ (length (rows (branch p))))
          in E; try congruence; rename E into HT1
    end.
    match goal with
    | E : thermal_residual ?e0 ?V1 ?T1 ?th0 = Ok ?r |- _ =>
        assert (HFt : length r = length (rows (branch p)))
          by (apply (@thermal_residual_length _ e0 V1 T1 r th0);
              [unfold thermal_shapes;
               cbn [th_a0 th_a1 th_a2 th_tau th_I e_T0]; unfold ones;
               rewrite ?length_map, ?repeat_length; repeat split; congruence
              |exact E])
    end.
    split.
    + rewrite length_app, HFx, HFt, Hrl. reflexivity.
    + intros _. rewrite length_map. split; [exact HT1|].
      split; [reflexivity|]. eexists. split; [reflexivity|].
      cbn [th_a0 th_a1 th_a2 th_tau]. repeat split; congruence.
  - injection Hth as <- <- <- <-. split; [|discriminate].
    rewrite HFx, Hrl. lia.
Qed.

(** the part of C2 the code keeps: when the collaborators keep their shapes,
    there is a reference bus under distributed slack, and distributed slack
    and thermal coupling are not both on, the residual of every iterate has
    the length of the specification, and the Jacobian of every pass is
    square of that order *)
Lemma residual_length_invariant (Ybus : spmat) (Sbus V0 : list complex)
    (ref pv pq : list Z) (p : ppci) (o : options) (mk : option makeYbus_t)
    (e : env) (st0 s : state) (k : nat) :
  respects_shapes ->
  (distributed_slack o = true -> ref <> []) ->
  newtonpf_init Ybus Sbus V0 ref pv pq p o mk = Ok (e, st0) ->
  e_dist_slack e && e_tdpf e = false ->
  iterates k e st0 = Ok s ->
  length (st_F s) = residual_length e (length (rows (branch p)))
  /\ forall s', newton_iteration e s = Ok s' ->
       exists J,
         st_J s' = Some J
         /\ jac_shape J = (residual_length e (length (rows (branch p))),
                           residual_length e (length (rows (branch p)))).
Proof.
  intros Hsh Href Hinit Hboth Hk.
  assert (H0 : env_counts e (length (rows (branch p)))
               /\ lengths_ok e (length (rows (branch p))) st0)
    by (eapply newtonpf_init_lengths; eassumption).
  destruct H0 as [Hcnt H0].
  assert (Hstep : forall s1 s2,
             lengths_ok e (length (rows (branch p))) s1 ->
             newton_iteration e s1 = Ok s2 ->
             lengths_ok e (length (rows (branch p))) s2
             /\ exists J, st_J s2 = Some J
                          /\ jac_shape J = (length (st_F s1), length (st_F s1)))
    by (intros s1 s2 H1 H12; eapply newton_iteration_lengths; eassumption).
  assert (Hs : lengths_ok e (length (rows (branch p))) s).
  { eapply (iterates_preserves (lengths_ok e (length (rows (branch p)))));
      [|exact H0|exact Hk].
    intros s1 s2 H1 H12. apply (Hstep s1 s2 H1 H12). }
  split; [apply Hs|].
  intros s' Hs'.
  destruct (Hstep s s' Hs Hs') as [_ [J [HJ Hshape]]].
  exists J. split; [exact HJ|]. rewrite Hshape. destruct Hs as [HF _].
  rewrite HF. reflexivity.
Qed.

End Lengths.


(** * More on the solve: counts, slots of the result, what is left alone *)

Section SolveFacts.

Context {F : Float64} {IX : Indices} {X : Collaborators}.

(** what the loop keeps on the passes it makes, it keeps to the end *)
Lemma newton_loop_invariant_guarded (P : state -> Prop) (e : env) :
  (forall s s', P s -> st_converged s = false -> st_i s < e_max_it e ->
                newton_iteration e s = Ok s' -> P s') ->
  forall st st', P st -> newton_loop e st = Ok st' -> P st'.
Proof.
  intros Hstep st.
  remember (Z.to_nat (e_max_it e - st_i st)) as n eqn:Hn.
  revert st Hn. induction n as [n IH] using lt_wf_ind.
  intros st Hn st' HP Hl. rewrite newton_loop_eq in Hl.
  destruct (negb (st_converged st) && (st_i st <? e_max_it e)) eqn:Hc.
  - apply bind_ok in Hl. destruct Hl as [s1 [H1 Hl]].
    pose proof H1 as Hi. apply newton_iteration_counter in Hi.
    apply andb_prop in Hc. destruct Hc as [Hcv Hc]. apply Z.ltb_lt in Hc.
    apply negb_true_iff in Hcv.
    eapply (IH (Z.to_nat (e_max_it e - st_i s1))); [lia|reflexivity| |exact Hl].
    eapply Hstep; eauto.
  - inversion Hl. subst. exact HP.
Qed.

(** a result of newtonpf is the return of the state the loop stopped on *)
Lemma newtonpf_ok (Ybus : spmat) (Sbus V0 : list complex)
    (ref pv pq : list Z) (p : ppci) (o : options) (mk : option makeYbus_t)
    (out : output) :
  newtonpf Ybus Sbus V0 ref pv pq p o mk = Ok out ->
  exists e st0 st',
    newtonpf_init Ybus Sbus V0 ref pv pq p o mk = Ok (e, st0)
    /\ newton_loop e st0 = Ok st'
    /\ out = newtonpf_return st'.
Proof.
  unfold newtonpf. intros H.
  apply bind_ok in H. destruct H as [[e st0] [Hinit H]].
  apply bind_ok in H. destruct H as [st' [Hloop H]].
  inversion H. exists e, st0, st'. auto.
Qed.

(** X1: the iteration count returned lies between 0 and the cap, and a
    result that is not converged has used the cap in full (a negative cap
    counting as 0). *)
Theorem newtonpf_iteration_count (Ybus : spmat) (Sbus V0 : list complex)
    (ref pv pq : list Z) (p : ppci) (o : options) (mk : option makeYbus_t)
    (out : output) :
  newtonpf Ybus Sbus V0 ref pv pq p o mk = Ok out ->
  0 <= out_i out <= Z.max 0 (max_iteration o)
  /\ (out_converged out = true \/ out_i out = Z.max 0 (max_iteration o)).
Proof.
  intros H. apply newtonpf_ok in H.
  destruct H as (e & st0 & st' & Hinit & Hloop & ->).
  pose proof Hinit as Hf. apply newtonpf_init_facts in Hf.
  destruct Hf as (_ & _ & _ & _ & _ & _ & _ & _ & _ & Hmax & _ & Hi & _).
  assert (Hb : 0 <= st_i st' <= Z.max 0 (e_max_it e)).
  { eapply (newton_loop_invariant_guarded
              (fun s => 0 <= st_i s <= Z.max 0 (e_max_it e)));
      [|rewrite Hi; lia|exact Hloop].
    intros s s' Hs _ Hlt Hit. apply newton_iteration_counter in Hit. lia. }
  rewrite Hmax in Hb. cbn [out_i out_converged newtonpf_return].
  split; [exact Hb|].
  apply newton_loop_stops in Hloop.
  destruct Hloop as [Hc|Hc]; [left; exact Hc|].
  right. rewrite Hmax in Hc. lia.
Qed.

(** more of what newtonpf_init fixes *)
Lemma newtonpf_init_more (Ybus : spmat) (Sbus V0 : list complex)
    (ref pv pq : list Z) (p : ppci) (o : options) (mk : option makeYbus_t)
    (e : env) (st : state) :
  newtonpf_init Ybus Sbus V0 ref pv pq p o mk = Ok (e, st) ->
  e_v_debug e = v_debug o
  /\ e_voltage_depend_loads e = voltage_depend_loads o
  /\ e_makeYbus e = mk
  /\ e_pvpq e = e_pv e ++ e_pq e
  /\ e_refpvpq e = e_ref e ++ e_pv e ++ e_pq e
  /\ st_Vm st = map cabs (st_V st)
  /\ st_Va st = map angle (st_V st)
  /\ st_Vm_it st = (if v_debug o then Some [map cabs V0] else None)
  /\ st_Va_it st = (if v_debug o then Some [map angle V0] else None)
  /\ st_branch st = branch p
  /\ st_Sbus st = Sbus
  /\ (e_tdpf e = false -> st_Ybus st = sp_tocsr Ybus /\ st_th st = None)
  /\ (exists pg pd, col (gen p) PG = Ok pg /\ col (bus p) PD = Ok pd
                    /\ st_slack st = [fsub (fsum pg) (fsum pd)]).
Proof.
  unfold newtonpf_init. intros H.
  inv_res H; injection H as <- <-; cbn;
    repeat match goal with
           | |- _ /\ _ => split
           end;
    try reflexivity; try (do 2 eexists; repeat split; eassumption);
    try (intros Hf; try discriminate Hf).
  all: match goal with
       | E : (if _ then _ else _) = Ok _ |- _ =>
           rewrite Hf in E; injection E as <- <- <- <-; split; reflexivity
       end.
Qed.

(** what one pass fixes, whatever the options *)
Lemma newton_iteration_facts (e : env) (st st' : state) :
  newton_iteration e st = Ok st' ->
  st_Vm st' = map cabs (st_V st')
  /\ st_Va st' = map angle (st_V st')
  /\ (exists J, st_J st' = Some J)
  /\ (e_v_debug e = false ->
      st_Vm_it st' = st_Vm_it st /\ st_Va_it st' = st_Va_it st)
  /\ (e_v_debug e = true ->
      exists hm ha,
        st_Vm_it st = Some hm /\ st_Va_it st = Some ha
        /\ st_Vm_it st' = Some (hm ++ [st_Vm st'])
        /\ st_Va_it st' = Some (ha ++ [st_Va st']))
  /\ (e_voltage_depend_loads e = false -> st_Sbus st' = st_Sbus st).
Proof.
  unfold newton_iteration. intros H.
  destruct (e_v_debug e) eqn:Hdbg;
    destruct (e_voltage_depend_loads e) eqn:Hvdl;
    inv_res H; injection H as <-;
    cbn [st_Vm st_Va st_V st_J st_Vm_it st_Va_it st_Sbus];
    repeat match goal with
           | E : recompose _ _ = Ok _ |- _ =>
               unfold recompose in E; apply bind_ok in E;
               destruct E as [? [_ E]]; injection E as <- <- <-
           | E : match ?h with Some _ => _ | None => _ end = Ok _ |- _ =>
               destruct h eqn:?; cbv iota in E; try discriminate E
           | E : bind (column_stack _ _) _ = Ok _ |- _ =>
               unfold column_stack in E; inv_res E
           | E : (if ?b then Ok _ else Raise _) = Ok _ |- _ =>
               destruct b; [injection E as <-|discriminate E]
           | E : Ok _ = Ok _ |- _ => injection E as <-
           end;
    repeat match goal with
           | |- _ /\ _ => split
           end;
    try reflexivity; try (eexists; reflexivity);
    try (intros Hf; try discriminate Hf; try (split; reflexivity)).
  all: try (do 2 eexists; repeat split; reflexivity).
Qed.

End SolveFacts.

Section SolveSlots.

Context {F : Float64} {IX : Indices} {X : Collaborators}.

(** X2: with a cap of zero or less the loop body never runs: the solver
    returns the initial guess with iteration count 0 and no Jacobian, and the
    convergence flag is the verdict on the initial residual. *)
Theorem newtonpf_without_pass (Ybus : spmat) (Sbus V0 : list complex)
    (ref pv pq : list Z) (p : ppci) (o : options) (mk : option makeYbus_t)
    (e : env) (st0 : state) :
  max_iteration o <= 0 ->
  newtonpf_init Ybus Sbus V0 ref pv pq p o mk = Ok (e, st0) ->
  exists out,
    newtonpf Ybus Sbus V0 ref pv pq p o mk = Ok out
    /\ out_i out = 0
    /\ out_V out = V0
    /\ out_J out = None
    /\ _check_for_convergence (st_F st0) (tolerance_mva o)
       = Ok (out_converged out).
Proof.
  intros Hcap Hinit.
  pose proof Hinit as Hf. apply newtonpf_init_facts in Hf.
  destruct Hf as (_ & _ & _ & _ & _ & _ & _ & _ & Htol & Hmax & _ & Hi & HV & HJ & _ & Hc).
  exists (newtonpf_return st0). unfold newtonpf. rewrite Hinit. cbn [bind].
  rewrite newton_loop_eq.
  replace (st_i st0 <? e_max_it e) with false
    by (symmetry; apply Z.ltb_ge; lia).
  rewrite andb_false_r. cbn [bind newtonpf_return out_i out_V out_J out_converged].
  rewrite <- Htol. auto.
Qed.

(** X3: the Jacobian slot of the result is empty exactly when no pass was
    made. *)
Theorem newtonpf_jacobian_slot (Ybus : spmat) (Sbus V0 : list complex)
    (ref pv pq : list Z) (p : ppci) (o : options) (mk : option makeYbus_t)
    (out : output) :
  newtonpf Ybus Sbus V0 ref pv pq p o mk = Ok out ->
  (out_J out = None <-> out_i out = 0).
Proof.
  intros H. apply newtonpf_ok in H.
  destruct H as (e & st0 & st' & Hinit & Hloop & ->).
  pose proof Hinit as Hf. apply newtonpf_init_facts in Hf.
  destruct Hf as (_ & _ & _ & _ & _ & _ & _ & _ & _ & _ & _ & Hi & _ & HJ & _).
  assert (HP : (st_i st' = 0 /\ st_J st' = None)
               \/ (0 < st_i st' /\ st_J st' <> None)).
  { eapply (newton_loop_invariant
              (fun s => (st_i s = 0 /\ st_J s = None)
                        \/ (0 < st_i s /\ st_J s <> None)));
      [|left; split; [exact Hi|exact HJ]|exact Hloop].
    intros s s' Hs Hit. right.
    pose proof Hit as Hcnt. apply newton_iteration_counter in Hcnt.
    apply newton_iteration_facts in Hit.
    destruct Hit as (_ & _ & [J HJ'] & _).
    split; [destruct Hs as [[? _]|[? _]]; lia|]. rewrite HJ'. discriminate. }
  cbn [out_J out_i newtonpf_return].
  destruct HP as [[H0 HN]|[Hpos HS]]; split; intros Hx; try assumption;
    try lia; contradiction.
Qed.

Lemma last_snoc {A : Type} (l : list A) (x d : A) : last (l ++ [x]) d = x.
Proof. apply last_last. Qed.

Lemma nth_0_snoc {A : Type} (l : list A) (x d : A) :
  l <> [] -> nth 0 (l ++ [x]) d = nth 0 l d.
Proof. destruct l; [contradiction|reflexivity]. Qed.

Lemma trace_ok_initial (Ybus : spmat) (Sbus V0 : list complex)
    (ref pv pq : list Z) (p : ppci) (o : options) (mk : option makeYbus_t)
    (e : env) (st0 : state) :
  newtonpf_init Ybus Sbus V0 ref pv pq p o mk = Ok (e, st0) ->
  trace_ok (v_debug o) V0 st0.
Proof.
  intros Hinit.
  pose proof Hinit as Hf. apply newtonpf_init_facts in Hf.
  destruct Hf as (_ & _ & _ & _ & _ & _ & _ & _ & _ & _ & _ & Hi & HV & _).
  apply newtonpf_init_more in Hinit.
  destruct Hinit as (_ & _ & _ & _ & _ & HVm & HVa & Hm & Ha & _).
  unfold trace_ok. split; [lia|]. split; [exact HVm|]. split; [exact HVa|].
  rewrite Hm, Ha. destruct (v_debug o); [|auto].
  do 2 eexists. split; [reflexivity|]. split; [reflexivity|].
  rewrite Hi, HVm, HVa, HV. cbn. repeat split; reflexivity.
Qed.

Lemma trace_ok_step (e : env) (V0 : list complex) (s s' : state) :
  trace_ok (e_v_debug e) V0 s -> newton_iteration e s = Ok s' ->
  trace_ok (e_v_debug e) V0 s'.
Proof.
  intros (Hpos & _ & _ & Ht) Hit.
  pose proof Hit as Hcnt. apply newton_iteration_counter in Hcnt.
  apply newton_iteration_facts in Hit.
  destruct Hit as (HVm & HVa & _ & Hoff & Hon & _).
  unfold trace_ok. split; [lia|]. split; [exact HVm|]. split; [exact HVa|].
  destruct (e_v_debug e).
  - destruct Ht as (hm & ha & Em & Ea & Lm & La & Nm & _ & Na & _).
    destruct (Hon eq_refl) as (hm' & ha' & Em' & Ea' & Sm & Sa).
    rewrite Em in Em'. rewrite Ea in Ea'.
    injection Em' as <-. injection Ea' as <-.
    exists (hm ++ [st_Vm s']), (ha ++ [st_Va s']).
    split; [exact Sm|]. split; [exact Sa|].
    rewrite !length_app, !last_snoc. cbn [length].
    assert (hm <> []) by (intros ->; cbn in Lm; lia).
    assert (ha <> []) by (intros ->; cbn in La; lia).
    rewrite !nth_0_snoc by assumption.
    repeat split; try assumption; try reflexivity; lia.
  - destruct (Hoff eq_refl) as [Em Ea]. rewrite Em, Ea. exact Ht.
Qed.

(** X4: with the debug trace on, the two histories returned hold one column
    per pass after the column of the initial guess, the first being the
    magnitudes and angles of the initial guess and the last those of the
    voltage returned; with the trace off both slots are empty. *)
Theorem newtonpf_debug_trace (Ybus : spmat) (Sbus V0 : list complex)
    (ref pv pq : list Z) (p : ppci) (o : options) (mk : option makeYbus_t)
    (out : output) :
  newtonpf Ybus Sbus V0 ref pv pq p o mk = Ok out ->
  if v_debug o then
    exists hm ha,
      out_Vm_it out = Some hm /\ out_Va_it out = Some ha
      /\ Z.of_nat (length hm) = out_i out + 1
      /\ Z.of_nat (length ha) = out_i out + 1
      /\ nth 0 hm [] = map cabs V0
      /\ last hm [] = map cabs (out_V out)
      /\ nth 0 ha [] = map angle V0
      /\ last ha [] = map angle (out_V out)
  else out_Vm_it out = None /\ out_Va_it out = None.
Proof.
  intros H. apply newtonpf_ok in H.
  destruct H as (e & st0 & st' & Hinit & Hloop & ->).
  pose proof (trace_ok_initial _ _ _ _ _ _ _ _ _ Hinit) as H0.
  pose proof Hinit as Hm. apply newtonpf_init_more in Hm.
  destruct Hm as (Hdbg & _).
  rewrite <- Hdbg in *.
  assert (HP : trace_ok (e_v_debug e) V0 st').
  { eapply (newton_loop_invariant (trace_ok (e_v_debug e) V0));
      [|exact H0|exact Hloop].
    intros s s' Hs Hit. eapply trace_ok_step; eassumption. }
  destruct HP as (_ & HVm & HVa & Ht).
  cbn [newtonpf_return out_Vm_it out_Va_it out_i out_V].
  destruct (e_v_debug e); [|exact Ht].
  destruct Ht as (hm & ha & Em & Ea & Lm & La & Nm & Xm & Na & Xa).
  exists hm, ha. rewrite <- HVm, <- HVa. auto 10.
Qed.

Lemma update_voltage_slack_off (e : env) (Ybus : spmat) (J : jacobian)
    (Fx dx : list f64) (st : state) (Vm Va slack T : list f64)
    (dV : option (list f64 * list f64)) :
  e_dist_slack e = false ->
  update_voltage e Ybus J Fx dx st = Ok (Vm, Va, dV, slack, T) ->
  slack = st_slack st.
Proof.
  intros Hds H. unfold update_voltage in H. rewrite Hds in H.
  inv_res H; inversion H; subst; reflexivity.
Qed.

Lemma newton_iteration_untouched (e : env) (st st' : state) :
  newton_iteration e st = Ok st' ->
  (e_tdpf e = false ->
   st_branch st' = st_branch st /\ st_Ybus st' = st_Ybus st
   /\ st_th st' = st_th st /\ st_T st' = st_T st)
  /\ (e_dist_slack e = false -> st_slack st' = st_slack st).
Proof.
  intros H. split.
  - intros Htd. pose proof H as HT. apply newton_iteration_T_off in HT;
      [|exact Htd].
    unfold newton_iteration in H. rewrite Htd in H. cbv iota in H.
    inv_res H; injection H as <-. cbn [st_branch st_Ybus st_th st_T] in *.
    repeat match goal with
           | E : Ok _ = Ok _ |- _ => inversion E; clear E; subst
           end.
    auto.
  - intros Hds. unfold newton_iteration in H.
    inv_res H; injection H as <-. cbn [st_slack].
    match goal with
    | E : update_voltage _ _ _ _ _ _ = Ok _ |- _ =>
        eapply update_voltage_slack_off in E; [exact E|exact Hds]
    end.
Qed.

(** X5: what the options leave off is left alone by every pass: without
    thermal coupling the branch table, the admittance matrix (the caller's,
    in CSR form) and the temperatures; without distributed slack the slack
    value (generation minus load); without voltage-dependent loads the
    injections. *)
Theorem newtonpf_untouched (Ybus : spmat) (Sbus V0 : list complex)
    (ref pv pq : list Z) (p : ppci) (o : options) (mk : option makeYbus_t)
    (e : env) (st0 st' : state) :
  newtonpf_init Ybus Sbus V0 ref pv pq p o mk = Ok (e, st0) ->
  newton_loop e st0 = Ok st' ->
  (tdpf_on o = false ->
   st_branch st' = branch p /\ st_Ybus st' = sp_tocsr Ybus
   /\ st_th st' = None)
  /\ (distributed_slack o = false ->
      exists pg pd, col (gen p) PG = Ok pg /\ col (bus p) PD = Ok pd
                    /\ st_slack st' = [fsub (fsum pg) (fsum pd)])
  /\ (voltage_depend_loads o = false -> st_Sbus st' = Sbus).
Proof.
  intros Hinit Hloop.
  pose proof Hinit as Hf. apply newtonpf_init_facts in Hf.
  destruct Hf as (_ & _ & _ & _ & _ & Hds & Htd & _).
  apply newtonpf_init_more in Hinit.
  destruct Hinit as (_ & Hvdl & _ & _ & _ & _ & _ & _ & _ & Hbr & HS & HY & Hsl).
  split; [|split].
  - intros Hoff. rewrite Hoff in Htd. destruct (HY Htd) as [HY0 Hth0].
    rewrite <- Hbr, <- HY0, <- Hth0.
    eapply (newton_loop_invariant
              (fun s => st_branch s = st_branch st0
                        /\ st_Ybus s = st_Ybus st0 /\ st_th s = st_th st0));
      [|auto|exact Hloop].
    intros s s' (H1 & H2 & H3) Hit. apply newton_iteration_untouched in Hit.
    destruct Hit as [Hit _]. destruct (Hit Htd) as (B & Y & T & _).
    rewrite B, Y, T. auto.
  - intros Hoff. rewrite Hoff in Hds.
    destruct Hsl as (pg & pd & Hpg & Hpd & Hs0). exists pg, pd.
    split; [exact Hpg|]. split; [exact Hpd|]. rewrite <- Hs0.
    eapply (newton_loop_invariant (fun s => st_slack s = st_slack st0));
      [|reflexivity|exact Hloop].
    intros s s' H1 Hit. apply newton_iteration_untouched in Hit.
    destruct Hit as [_ Hit]. rewrite (Hit Hds). exact H1.
  - intros Hoff. rewrite Hoff in Hvdl. rewrite <- HS.
    eapply (newton_loop_invariant (fun s => st_Sbus s = st_Sbus st0));
      [|reflexivity|exact Hloop].
    intros s s' H1 Hit. apply newton_iteration_facts in Hit.
    destruct Hit as (_ & _ & _ & _ & _ & Hit). rewrite (Hit Hvdl). exact H1.
Qed.

End SolveSlots.

Section SolveErrors.

Context {F : Float64} {IX : Indices} {X : Collaborators}.

(** X6: thermal coupling without a makeYbus to call never returns a result;
    the call raises before the loop. *)
Theorem newtonpf_thermal_needs_makeYbus (Ybus : spmat) (Sbus V0 : list complex)
    (ref pv pq : list Z) (p : ppci) (o : options) (out : output) :
  tdpf_on o = true ->
  newtonpf Ybus Sbus V0 ref pv pq p o None <> Ok out.
Proof.
  intros Htd H. apply newtonpf_ok in H.
  destruct H as (e & st0 & st' & Hinit & _).
  unfold newtonpf_init in Hinit. unfold tdpf_on in Htd.
  inv_res Hinit.
  all: match goal with
       | E : (if _ then _ else _) = Ok (_, _, _, _) |- _ =>
           rewrite Htd in E; discriminate E
       end.
Qed.

(** X7: a network without voltage-controlled and load buses, solved
    without distributed slack and thermal coupling, has an empty residual,
    whose norm numpy refuses: the solver never returns a result. *)
Theorem newtonpf_empty_residual (Ybus : spmat) (Sbus V0 : list complex)
    (ref : list Z) (p : ppci) (o : options) (mk : option makeYbus_t)
    (out : output) :
  distributed_slack o = false -> tdpf_on o = false ->
  newtonpf Ybus Sbus V0 ref [] [] p o mk <> Ok out.
Proof.
  intros Hds Htd H. apply newtonpf_ok in H.
  destruct H as (e & st0 & st' & Hinit & _).
  unfold newtonpf_init in Hinit. unfold tdpf_on in Htd.
  rewrite Hds in Hinit. cbn [andb bus_partition bind] in Hinit.
  inv_res Hinit.
  all: match goal with
       | E : (if _ then _ else _) = Ok (_, _, _, _) |- _ =>
           rewrite Htd in E; injection E as <- <- <- <-
       end.
  all: match goal with
       | E : _evaluate_Fx _ _ _ _ _ _ _ _ _ = Ok ?Fx,
         E' : _check_for_convergence ?Fx _ = Ok _ |- _ =>
           apply evaluate_Fx_length in E; cbn in E;
           destruct Fx; [discriminate E'|discriminate E]
       end.
Qed.

Lemma mapM_In {A B : Type} (f : A -> res B) (l : list A) (r : list B) (a : A) :
  mapM f l = Ok r -> In a l -> exists b, f a = Ok b.
Proof.
  revert r. induction l as [|x l IH]; intros r H Hin; [contradiction|].
  cbn [mapM] in H. apply bind_ok in H. destruct H as [b [Hb H]].
  apply bind_ok in H. destruct H as [bs [Hbs _]].
  destruct Hin as [->|Hin]; [exists b; exact Hb|eauto].
Qed.

Lemma norm_index_ok (n : nat) (i : Z) (k : nat) :
  norm_index n i = Ok k -> - Z.of_nat n <= i < Z.of_nat n.
Proof.
  unfold norm_index.
  destruct ((0 <=? i) && (i <? Z.of_nat n)) eqn:E1.
  - apply andb_prop in E1. destruct E1 as [H0 H1].
    apply Z.leb_le in H0. apply Z.ltb_lt in H1. lia.
  - destruct ((- Z.of_nat n <=? i) && (i <? 0)) eqn:E2; [|discriminate].
    apply andb_prop in E2. destruct E2 as [H0 H1].
    apply Z.leb_le in H0. apply Z.ltb_lt in H1. lia.
Qed.

Lemma put_ok_range {A : Type} (a a' : list A) (idx : list Z) (vals : list A)
    (b : Z) :
  put a idx vals = Ok a' -> In b idx ->
  - Z.of_nat (length a) <= b < Z.of_nat (length a).
Proof.
  unfold put. intros H Hin. apply bind_ok in H. destruct H as [ks [Hks _]].
  destruct (mapM_In _ _ _ Hks Hin) as [k Hk].
  eapply norm_index_ok. exact Hk.
Qed.

(** X8: the table pq_lookup has one entry more than there are
    voltage-controlled and load buses; without distributed slack a load bus
    with a larger number makes the solver raise instead of returning. *)
Theorem newtonpf_pq_lookup_bound (Ybus : spmat) (Sbus V0 : list complex)
    (ref pv pq : list Z) (p : ppci) (o : options) (mk : option makeYbus_t)
    (out : output) (b : Z) :
  distributed_slack o = false ->
  In b pq -> Z.of_nat (length pv + length pq + 1) <= b ->
  newtonpf Ybus Sbus V0 ref pv pq p o mk <> Ok out.
Proof.
  intros Hds Hin Hb H. apply newtonpf_ok in H.
  destruct H as (e & st0 & st' & Hinit & _).
  unfold newtonpf_init in Hinit.
  rewrite Hds in Hinit. cbn [andb bus_partition bind] in Hinit.
  inv_res Hinit.
  all: match goal with
       | E : put (repeat 0 (_ + 1)) _ _ = Ok _ |- _ =>
           apply (put_ok_range _ _ _ b) in E; [|exact Hin];
           rewrite repeat_length, length_app in E; lia
       end.
Qed.

(** X9: the reclassification under distributed slack moves buses between
    two sets and nothing else: the reference buses followed by the
    voltage-controlled buses are the caller's in the caller's order, and so
    is the list of all buses the Jacobian is built for. *)
Theorem newtonpf_bus_order (Ybus : spmat) (Sbus V0 : list complex)
    (ref pv pq : list Z) (p : ppci) (o : options) (mk : option makeYbus_t)
    (e : env) (st0 : state) :
  newtonpf_init Ybus Sbus V0 ref pv pq p o mk = Ok (e, st0) ->
  e_ref e ++ e_pv e = ref ++ pv
  /\ e_pvpq e = e_pv e ++ pq
  /\ e_refpvpq e = ref ++ pv ++ pq.
Proof.
  intros Hinit.
  pose proof Hinit as Hf. apply newtonpf_init_facts in Hf.
  destruct Hf as (Hp & Hpq & _).
  apply newtonpf_init_more in Hinit.
  destruct Hinit as (_ & _ & _ & Hpvpq & Hall & _).
  assert (Hcat : e_ref e ++ e_pv e = ref ++ pv).
  { unfold bus_partition in Hp.
    destruct (distributed_slack o && Nat.ltb 1 (length ref)) eqn:E.
    - apply andb_prop in E. destruct E as [_ E]. apply Nat.ltb_lt in E.
      destruct ref as [|r0 [|r1 rest]]; cbn [length] in E; try lia.
      apply bind_ok in Hp. destruct Hp as [r [Hr Hp]].
      unfold take in Hr. cbn [mapM] in Hr.
      rewrite (@item_in_range _ (r0 :: r1 :: rest) 0 0) in Hr
        by (cbn [length]; lia).
      cbn in Hr. injection Hr as <-. injection Hp as <- <-. reflexivity.
    - injection Hp as <- <-. reflexivity. }
  split; [exact Hcat|]. rewrite Hpq in *. split; [exact Hpvpq|].
  rewrite Hall, app_assoc, Hcat, <- app_assoc. reflexivity.
Qed.

End SolveErrors.

Section Lookups.

Lemma update_length {A : Type} (a : list A) (k : nat) (v : A) :
  length (update a k v) = length a.
Proof.
  revert k. induction a as [|x a IH]; intros [|k]; cbn; auto.
Qed.

Lemma nth_update_same {A : Type} (a : list A) (k : nat) (v d : A) :
  (k < length a)%nat -> nth k (update a k v) d = v.
Proof.
  revert k. induction a as [|x a IH]; intros [|k] H; cbn in *; try lia;
    [reflexivity|]. apply IH. lia.
Qed.

Lemma nth_update_other {A : Type} (a : list A) (k j : nat) (v d : A) :
  k <> j -> nth j (update a k v) d = nth j a d.
Proof.
  revert k j. induction a as [|x a IH]; intros [|k] [|j] H; cbn; auto;
    try congruence.
Qed.

Lemma put_all_length {A : Type} (kvs : list (nat * A)) (a : list A) :
  length (put_all a kvs) = length a.
Proof.
  revert a. induction kvs as [|[k v] kvs IH]; intros a; cbn; [reflexivity|].
  rewrite IH. apply update_length.
Qed.

Lemma put_all_nth_other {A : Type} (kvs : list (nat * A)) (a : list A)
    (j : nat) (d : A) :
  ~ In j (map fst kvs) -> nth j (put_all a kvs) d = nth j a d.
Proof.
  revert a. induction kvs as [|[k v] kvs IH]; intros a H; cbn; [reflexivity|].
  cbn in H. rewrite IH by tauto. apply nth_update_other. tauto.
Qed.

Lemma put_all_nth_in {A : Type} (kvs : list (nat * A)) (a : list A)
    (k : nat) (v d : A) :
  NoDup (map fst kvs) -> In (k, v) kvs -> (k < length a)%nat ->
  nth k (put_all a kvs) d = v.
Proof.
  revert a. induction kvs as [|[k0 v0] kvs IH]; intros a Hnd Hin Hk;
    [contradiction|].
  cbn in *. inversion Hnd as [|? ? Hnot Hnd']; subst.
  destruct Hin as [E|Hin].
  - injection E as -> ->. rewrite put_all_nth_other by exact Hnot.
    apply nth_update_same. exact Hk.
  - apply IH; [exact Hnd'|exact Hin|rewrite update_length; exact Hk].
Qed.

Lemma arange_nth (n k : nat) : (k < n)%nat -> nth k (arange n) 0 = Z.of_nat k.
Proof.
  intros H. unfold arange.
  rewrite (map_nth_in Z.of_nat (seq 0 n) 0%nat 0) by (rewrite length_seq; exact H).
  rewrite seq_nth by exact H. reflexivity.
Qed.

Lemma arange_length (n : nat) : length (arange n) = n.
Proof. unfold arange. rewrite length_map, length_seq. reflexivity. Qed.

(** what [a[idx] = vals] leaves in [a] when the indices are distinct
    positions: the value of each index at its position, the old entry
    everywhere else *)
Lemma put_lookup {A : Type} (a a' : list A) (idx : list Z) (vals : list A)
    (d : A) :
  put a idx vals = Ok a' ->
  NoDup idx -> Forall (fun b => 0 <= b) idx -> length vals = length idx ->
  length a' = length a
  /\ (forall k, (k < length idx)%nat ->
        nth (Z.to_nat (nth k idx 0)) a' d = nth k vals d)
  /\ (forall j, ~ In (Z.of_nat j) idx -> nth j a' d = nth j a d).
Proof.
  intros Hput Hnd Hpos Hlen.
  assert (Hrange : Forall (fun b => 0 <= b < Z.of_nat (length a)) idx).
  { rewrite Forall_forall in *. intros b Hb.
    pose proof (put_ok_range _ _ _ b Hput Hb). specialize (Hpos b Hb). lia. }
  unfold put in Hput.
  rewrite (mapM_map (norm_index (length a)) Z.to_nat) in Hput.
  2:{ eapply Forall_impl; [|exact Hrange].
      intros b Hb. apply norm_index_in_range. exact Hb. }
  cbn [bind] in Hput.
  assert (Ha' : a' = put_all a (combine (map Z.to_nat idx) vals)).
  { destruct vals as [|v [|v' vals]].
    - rewrite Hlen, Nat.eqb_refl in Hput. injection Hput as <-. reflexivity.
    - injection Hput as <-. destruct idx as [|b [|b' idx]]; try discriminate Hlen.
      reflexivity.
    - rewrite Hlen, Nat.eqb_refl in Hput. injection Hput as <-. reflexivity. }
  assert (Hfst : map fst (combine (map Z.to_nat idx) vals) = map Z.to_nat idx).
  { clear - Hlen. revert vals Hlen.
    induction idx as [|b idx IH]; intros [|v vals] H; try discriminate H;
      [reflexivity|]. cbn. f_equal. apply IH. injection H. auto. }
  assert (Hinj : NoDup (map Z.to_nat idx)).
  { clear - Hnd Hpos. induction Hnd as [|b idx Hnot Hnd IH]; cbn;
      [constructor|]. inversion Hpos; subst. constructor; [|auto].
    intros Hin. apply in_map_iff in Hin. destruct Hin as [b' [E Hb']].
    rewrite Forall_forall in *. assert (b' = b) by (specialize (H2 b' Hb'); lia).
    subst. contradiction. }
  subst a'. split; [apply put_all_length|]. split.
  - intros k Hk. apply put_all_nth_in.
    + rewrite Hfst. exact Hinj.
    + assert (Hc : nth k (combine (map Z.to_nat idx) vals) (Z.to_nat 0, d)
                   = (Z.to_nat (nth k idx 0), nth k vals d)).
      { rewrite combine_nth by (rewrite length_map; congruence).
        rewrite (map_nth Z.to_nat idx 0 k). reflexivity. }
      rewrite <- Hc. apply nth_In.
      rewrite length_combine, length_map. lia.
    + rewrite Forall_forall in Hrange.
      specialize (Hrange (nth k idx 0) (nth_In _ _ Hk)). lia.
  - intros j Hj. apply put_all_nth_other. rewrite Hfst.
    intros Hin. apply in_map_iff in Hin. destruct Hin as [b [E Hb]].
    rewrite Forall_forall in Hpos. specialize (Hpos b Hb).
    apply Hj. replace (Z.of_nat j) with b by lia. exact Hb.
Qed.

End Lookups.

Section LookupTables.

Context {F : Float64} {IX : Indices} {X : Collaborators}.

Lemma newtonpf_init_lookups (Ybus : spmat) (Sbus V0 : list complex)
    (ref pv pq : list Z) (p : ppci) (o : options) (mk : option makeYbus_t)
    (e : env) (st : state) :
  newtonpf_init Ybus Sbus V0 ref pv pq p o mk = Ok (e, st) ->
  (exists m, np_max (sp_indices Ybus) = Ok m
             /\ put (repeat 0 (Z.to_nat (m + 1))) (lookup_domain e)
                  (arange (length (lookup_domain e)))
                = Ok (e_pvpq_lookup e))
  /\ put (repeat 0 (length (e_pvpq e) + 1)) (e_pq e)
       (arange (length (e_pq e))) = Ok (e_pq_lookup e).
Proof.
  unfold newtonpf_init, lookup_domain. intros H.
  inv_res H; injection H as <- <-; cbn;
    (split; [eexists; split; [reflexivity|]|]); try assumption.
  all: destruct (distributed_slack o); assumption.
Qed.

(** X10: the two lookup tables invert the bus lists they are built from.
    pvpq_lookup has max(Ybus.indices) + 1 entries and pq_lookup one more
    than there are voltage-controlled and load buses.  For distinct bus
    numbers that are not negative, reading pvpq_lookup at a bus of its list
    (reference buses included under distributed slack) gives the position
    of the bus in the list, reading pq_lookup at a load bus gives its
    position among the load buses, and every other entry of either table
    is 0. *)
Theorem newtonpf_lookup_tables (Ybus : spmat) (Sbus V0 : list complex)
    (ref pv pq : list Z) (p : ppci) (o : options) (mk : option makeYbus_t)
    (e : env) (st0 : state) :
  newtonpf_init Ybus Sbus V0 ref pv pq p o mk = Ok (e, st0) ->
  NoDup (lookup_domain e) -> Forall (fun b => 0 <= b) (lookup_domain e) ->
  (exists m, np_max (sp_indices Ybus) = Ok m
             /\ length (e_pvpq_lookup e) = Z.to_nat (m + 1))
  /\ length (e_pq_lookup e) = (length (e_pvpq e) + 1)%nat
  /\ (forall k, (k < length (lookup_domain e))%nat ->
        item (e_pvpq_lookup e) (nth k (lookup_domain e) 0)
        = Ok (Z.of_nat k))
  /\ (forall j, (j < length (e_pvpq_lookup e))%nat ->
        ~ In (Z.of_nat j) (lookup_domain e) ->
        item (e_pvpq_lookup e) (Z.of_nat j) = Ok 0)
  /\ (forall k, (k < length (e_pq e))%nat ->
        item (e_pq_lookup e) (nth k (e_pq e) 0) = Ok (Z.of_nat k))
  /\ (forall j, (j < length (e_pq_lookup e))%nat ->
        ~ In (Z.of_nat j) (e_pq e) ->
        item (e_pq_lookup e) (Z.of_nat j) = Ok 0).
Proof.
  intros Hinit Hnd Hpos.
  pose proof Hinit as Hl. apply newtonpf_init_lookups in Hl.
  destruct Hl as [[m [Hm H1]] H2].
  apply newtonpf_init_more in Hinit.
  destruct Hinit as (_ & _ & _ & Hpvpq & Hall & _).
  assert (Hsub : exists pre, lookup_domain e = pre ++ e_pq e).
  { unfold lookup_domain. destruct (e_dist_slack e).
    - exists (e_ref e ++ e_pv e). rewrite Hall, app_assoc. reflexivity.
    - exists (e_pv e). exact Hpvpq. }
  destruct Hsub as [pre Hsub].
  assert (Hnd2 : NoDup (e_pq e))
    by (rewrite Hsub in Hnd; apply NoDup_app_remove_l in Hnd; exact Hnd).
  assert (Hpos2 : Forall (fun b => 0 <= b) (e_pq e))
    by (rewrite Hsub in Hpos; apply Forall_app in Hpos; tauto).
  destruct (@put_lookup Z _ _ _ _ 0 H1 Hnd Hpos (arange_length _))
    as (L1 & A1 & A2).
  destruct (@put_lookup Z _ _ _ _ 0 H2 Hnd2 Hpos2 (arange_length _))
    as (L2 & B1 & B2).
  rewrite repeat_length in L1, L2.
  assert (Hz : forall n j, nth j (repeat 0 n) 0 = 0).
  { intros n j. destruct (Nat.lt_ge_cases j n) as [Hlt|Hge].
    - apply nth_repeat_lt. exact Hlt.
    - apply nth_overflow. rewrite repeat_length. exact Hge. }
  assert (Hin : forall (a a' : list Z) idx vals k,
             put a idx vals = Ok a' -> Forall (fun b => 0 <= b) idx ->
             length a' = length a -> (k < length idx)%nat ->
             0 <= nth k idx 0 < Z.of_nat (length a')).
  { intros a a' idx vals k Hput Hp Hlen Hk.
    pose proof (put_ok_range _ _ _ (nth k idx 0) Hput (nth_In _ _ Hk)).
    rewrite Forall_forall in Hp. specialize (Hp _ (nth_In idx 0 Hk)). lia. }
  split; [exists m; split; [exact Hm|exact L1]|]. split; [exact L2|].
  split; [|split; [|split]].
  - intros k Hk.
    rewrite (@item_in_range _ (e_pvpq_lookup e) 0).
    + rewrite A1 by exact Hk. f_equal. apply arange_nth. exact Hk.
    + eapply Hin; [exact H1|exact Hpos| |exact Hk].
      rewrite L1, repeat_length. reflexivity.
  - intros j Hj Hout.
    rewrite (@item_in_range _ (e_pvpq_lookup e) 0) by lia.
    rewrite Nat2Z.id, A2 by exact Hout. f_equal. apply Hz.
  - intros k Hk.
    rewrite (@item_in_range _ (e_pq_lookup e) 0).
    + rewrite B1 by exact Hk. f_equal. apply arange_nth. exact Hk.
    + eapply Hin; [exact H2|exact Hpos2| |exact Hk].
      rewrite L2, repeat_length. reflexivity.
  - intros j Hj Hout.
    rewrite (@item_in_range _ (e_pq_lookup e) 0) by lia.
    rewrite Nat2Z.id, B2 by exact Hout. f_equal. apply Hz.
Qed.

End LookupTables.

(** * The result of the solve: the flag, the shapes, the buses held fixed *)

Section Verdict.

Context {F : Float64} {IX : Indices} {X : Collaborators}.

Lemma newtonpf_init_residual (Ybus : spmat) (Sbus V0 : list complex)
    (ref pv pq : list Z) (p : ppci) (o : options) (mk : option makeYbus_t)
    (e : env) (st : state) :
  newtonpf_init Ybus Sbus V0 ref pv pq p o mk = Ok (e, st) ->
  col (bus p) SL_FAC = Ok (e_slack_weights e)
  /\ (e_tdpf e = false ->
      _evaluate_Fx Ybus V0 Sbus (e_ref e) (e_pv e) (e_pq e)
        (e_slack_weights e) (e_dist_slack e) (st_slack st) = Ok (st_F st)).
Proof.
  unfold newtonpf_init. intros H.
  inv_res H; injection H as <- <-;
    cbn [e_slack_weights e_tdpf e_ref e_pv e_pq e_dist_slack st_slack st_F];
    (split; [first [assumption|reflexivity]|]); intros Hf; try discriminate Hf.
  all: match goal with
       | E : (if _ then _ else _) = Ok _ |- _ =>
           rewrite Hf in E; injection E as <- <- <- <-; assumption
       end.
Qed.

Lemma newton_iteration_residual (e : env) (st st' : state) :
  e_tdpf e = false -> e_voltage_depend_loads e = false ->
  newton_iteration e st = Ok st' ->
  _evaluate_Fx (st_Ybus st) (st_V st') (st_Sbus st) (e_ref e) (e_pv e)
    (e_pq e) (e_slack_weights e) (e_dist_slack e) (st_slack st')
  = Ok (st_F st').
Proof.
  intros Htd Hvdl H. unfold newton_iteration in H.
  rewrite Htd, Hvdl in H. cbv iota in H.
  inv_res H; injection H as <-. cbn [st_V st_slack st_F].
  repeat match goal with
         | E : Ok _ = Ok _ |- _ => inversion E; clear E; subst
         end.
  assumption.
Qed.

(** X11: without thermal coupling and voltage-dependent loads, the flag
    newtonpf returns is the verdict of the convergence check on the power
    mismatch at the voltages it returns, taken for the buses as the solver
    partitions them, with the admittance matrix as given when no pass was
    made and its CSR form afterwards; without distributed slack the slack
    value is the initial one, sum(PG) - sum(PD). *)
Theorem newtonpf_flag_is_verdict (Ybus : spmat) (Sbus V0 : list complex)
    (ref pv pq : list Z) (p : ppci) (o : options) (mk : option makeYbus_t)
    (out : output) :
  tdpf_on o = false -> voltage_depend_loads o = false ->
  newtonpf Ybus Sbus V0 ref pv pq p o mk = Ok out ->
  exists ref' pv' w slack Fx,
    bus_partition (distributed_slack o) ref pv = Ok (ref', pv')
    /\ col (bus p) SL_FAC = Ok w
    /\ (distributed_slack o = false ->
        exists pg pd, col (gen p) PG = Ok pg /\ col (bus p) PD = Ok pd
                      /\ slack = [fsub (fsum pg) (fsum pd)])
    /\ _evaluate_Fx (if out_i out =? 0 then Ybus else sp_tocsr Ybus)
         (out_V out) Sbus ref' pv' pq w (distributed_slack o) slack = Ok Fx
    /\ _check_for_convergence Fx (tolerance_mva o) = Ok (out_converged out).
Proof.
  intros Htd Hvdl H. apply newtonpf_ok in H.
  destruct H as (e & st0 & st' & Hinit & Hloop & ->).
  pose proof Hinit as Hf. apply newtonpf_init_facts in Hf.
  destruct Hf as (Hpart & Hpq & _ & _ & _ & Hds & Htd' & _ & Htol & _ & _
                  & Hi & HV & _ & _ & Hchk).
  pose proof Hinit as Hm. apply newtonpf_init_more in Hm.
  destruct Hm as (_ & Hvdl' & _ & _ & _ & _ & _ & _ & _ & _ & HS & HY & Hsl).
  pose proof Hinit as Hr. apply newtonpf_init_residual in Hr.
  destruct Hr as [Hw HF].
  rewrite Htd in Htd'. rewrite Hvdl in Hvdl'.
  specialize (HF Htd'). destruct (HY Htd') as [HY' _]. clear HY.
  set (P := fun s : state =>
    0 <= st_i s /\ st_Sbus s = Sbus /\ st_Ybus s = sp_tocsr Ybus
    /\ (e_dist_slack e = false -> st_slack s = st_slack st0)
    /\ _evaluate_Fx (if st_i s =? 0 then Ybus else sp_tocsr Ybus) (st_V s)
         Sbus (e_ref e) (e_pv e) (e_pq e) (e_slack_weights e)
         (e_dist_slack e) (st_slack s) = Ok (st_F s)
    /\ _check_for_convergence (st_F s) (e_tol e) = Ok (st_converged s)).
  assert (HP : P st').
  { eapply (newton_loop_invariant_guarded P); [| |exact Hloop].
    - intros s s' (Hs0 & HsS & HsY & Hss & _ & _) _ _ Hit.
      pose proof Hit as Hc. apply newton_iteration_counter in Hc.
      pose proof Hit as Hu. apply newton_iteration_untouched in Hu.
      destruct Hu as [Hu1 Hu2]. destruct (Hu1 Htd') as (_ & HuY & _).
      pose proof Hit as Hfa. apply newton_iteration_facts in Hfa.
      destruct Hfa as (_ & _ & _ & _ & _ & HfS). specialize (HfS Hvdl').
      pose proof Hit as Hk. apply newton_iteration_check in Hk.
      apply newton_iteration_residual in Hit; [|exact Htd'|exact Hvdl'].
      unfold P. repeat split.
      + lia.
      + congruence.
      + congruence.
      + intros Hd. rewrite Hu2 by exact Hd. auto.
      + replace (st_i s' =? 0) with false by (symmetry; apply Z.eqb_neq; lia).
        rewrite <- HsY, <- HsS. exact Hit.
      + exact Hk.
    - unfold P. rewrite Hi, HV. cbn [Z.eqb]. repeat split; auto. lia. }
  destruct HP as (_ & _ & _ & Hss & HFx & Hk).
  exists (e_ref e), (e_pv e), (e_slack_weights e), (st_slack st'), (st_F st').
  cbn [out_i out_V out_converged newtonpf_return].
  rewrite Hds, Htol, Hpq in *.
  repeat split; try assumption.
  intros Hd. rewrite Hss by exact Hd. exact Hsl.
Qed.

End Verdict.

Section ResultShapes.

Context {F : Float64} {IX : Indices} {X : Collaborators}.

(** the lengths at the end of the loop: the residual, the temperatures and
    the thermal data keep the lengths of the start, and a Jacobian kept in
    the state is square of the order of the residual *)
Lemma newton_loop_lengths (Ybus : spmat) (Sbus V0 : list complex)
    (ref pv pq : list Z) (p : ppci) (o : options) (mk : option makeYbus_t)
    (e : env) (st0 st' : state) :
  respects_shapes ->
  (distributed_slack o = true -> ref <> []) ->
  distributed_slack o && tdpf_on o = false ->
  newtonpf_init Ybus Sbus V0 ref pv pq p o mk = Ok (e, st0) ->
  newton_loop e st0 = Ok st' ->
  env_counts e (length (rows (branch p)))
  /\ lengths_ok e (length (rows (branch p))) st'
  /\ (e_tdpf e = false -> st_T st' = st_T st0)
  /\ forall J, st_J st' = Some J ->
       jac_shape J = (residual_length e (length (rows (branch p))),
                      residual_length e (length (rows (branch p)))).
Proof.
  intros Hsh Href Hcomb Hinit Hloop.
  pose proof Hinit as Hf. apply newtonpf_init_facts in Hf.
  destruct Hf as (_ & _ & _ & _ & _ & Hds & Htd & _ & _ & _ & _
                  & _ & _ & HJ0 & _).
  pose proof Hinit as Hl. apply newtonpf_init_lengths in Hl;
    [|exact Hsh|exact Href].
  destruct Hl as [Hcnt Hlen].
  set (nb := length (rows (branch p))) in *.
  assert (Hcomb' : e_dist_slack e && e_tdpf e = false)
    by (rewrite Hds, Htd; exact Hcomb).
  set (P := fun s : state =>
    lengths_ok e nb s
    /\ (e_tdpf e = false -> st_T s = st_T st0)
    /\ forall J, st_J s = Some J
         -> jac_shape J = (residual_length e nb, residual_length e nb)).
  assert (HP : P st').
  { eapply (newton_loop_invariant_guarded P); [| |exact Hloop].
    - intros s s' (Hs & HsT & _) _ _ Hit.
      pose proof Hit as Hu. apply newton_iteration_untouched in Hu.
      destruct Hu as [Hu _].
      destruct (newton_iteration_lengths Hsh Hcnt Hcomb' Hs Hit)
        as [Hs' [J [HJ Hshape]]].
      unfold P. split; [exact Hs'|]. split.
      + intros Hoff. destruct (Hu Hoff) as (_ & _ & _ & ->). auto.
      + intros J' HJ'. rewrite HJ in HJ'. injection HJ' as <-.
        destruct Hs as [<- _]. exact Hshape.
    - unfold P. split; [exact Hlen|]. split; [reflexivity|].
      intros J HJ. rewrite HJ0 in HJ. discriminate HJ. }
  split; [exact Hcnt|exact HP].
Qed.

(** C9, as the code has it: the last slot of the returned tuple always holds
    a temperature vector, the scaled temperature of the final state times
    the base constant 100.  Without thermal coupling it holds, for every
    branch, the reference temperature 20, divided by the base constant
    before it is multiplied back.  With thermal coupling, when distributed
    slack is off and the collaborators keep their shapes, the final state
    holds thermal data and one temperature per branch. *)
Theorem newtonpf_returns_temperature (Ybus : spmat) (Sbus V0 : list complex)
    (ref pv pq : list Z) (p : ppci) (o : options) (mk : option makeYbus_t)
    (out : output) :
  newtonpf Ybus Sbus V0 ref pv pq p o mk = Ok out ->
  exists e st0 st',
    newtonpf_init Ybus Sbus V0 ref pv pq p o mk = Ok (e, st0)
    /\ newton_loop e st0 = Ok st'
    /\ out_T out = Some (map (fun t => fmul t (of_Z 100)) (st_T st'))
    /\ (tdpf_on o = false ->
        st_T st'
        = repeat (fdiv (fmul (of_Z 1) (of_Z 20)) (of_Z 100))
            (length (rows (branch p))))
    /\ (tdpf_on o = true -> distributed_slack o = false ->
        respects_shapes ->
        length (st_T st') = length (rows (branch p))
        /\ exists th, st_th st' = Some th).
Proof.
  intros H. apply newtonpf_ok in H.
  destruct H as (e & st0 & st' & Hinit & Hloop & ->).
  exists e, st0, st'. split; [exact Hinit|]. split; [exact Hloop|].
  split; [reflexivity|].
  pose proof Hinit as Hf. apply newtonpf_init_facts in Hf.
  destruct Hf as (_ & _ & _ & _ & _ & _ & Htd & _ & _ & _ & HT0 & _ & _ & _
                  & HT & _).
  split.
  - intros Hoff. rewrite Hoff in Htd.
    assert (HT' : st_T st' = st_T st0).
    { eapply (newton_loop_invariant_guarded (fun s => st_T s = st_T st0));
        [|reflexivity|exact Hloop].
      intros s s' Hs _ _ Hit.
      apply newton_iteration_T_off in Hit; [|exact Htd]. congruence. }
    rewrite HT', (HT Htd), HT0. unfold ones. rewrite !map_repeat.
    reflexivity.
  - intros Hon Hds Hsh.
    assert (Href : distributed_slack o = true -> ref <> [])
      by (intros Hx; congruence).
    assert (Hcomb : distributed_slack o && tdpf_on o = false)
      by (rewrite Hds; reflexivity).
    pose proof Hloop as Hlen.
    eapply newton_loop_lengths in Hlen;
      [|exact Hsh|exact Href|exact Hcomb|exact Hinit].
    destruct Hlen as (_ & [_ Hok] & _).
    rewrite Hon in Htd. destruct (Hok Htd) as (HTl & _ & th & Hth & _).
    split; [exact HTl|]. exists th. exact Hth.
Qed.

(** X12: when the collaborators keep their shapes and distributed slack is
    not combined with thermal coupling, a Jacobian returned by newtonpf is
    square, of the order the residual has: the voltage-controlled buses of
    the solver's partition, twice the load buses, one more with distributed
    slack and one per branch with thermal coupling; and the temperatures
    returned hold one entry per branch. *)
Theorem newtonpf_result_shapes (Ybus : spmat) (Sbus V0 : list complex)
    (ref pv pq : list Z) (p : ppci) (o : options) (mk : option makeYbus_t)
    (out : output) :
  respects_shapes ->
  (distributed_slack o = true -> ref <> []) ->
  distributed_slack o && tdpf_on o = false ->
  newtonpf Ybus Sbus V0 ref pv pq p o mk = Ok out ->
  exists ref' pv' n,
    bus_partition (distributed_slack o) ref pv = Ok (ref', pv')
    /\ n = (length pv' + 2 * length pq
            + (if distributed_slack o then 1 else 0)
            + (if tdpf_on o then length (rows (branch p)) else 0))%nat
    /\ (forall J, out_J out = Some J -> jac_shape J = (n, n))
    /\ (exists T, out_T out = Some T
                  /\ length T = length (rows (branch p))).
Proof.
  intros Hsh Href Hcomb H. apply newtonpf_ok in H.
  destruct H as (e & st0 & st' & Hinit & Hloop & ->).
  pose proof Hinit as Hf. apply newtonpf_init_facts in Hf.
  destruct Hf as (Hpart & Hpq & _ & _ & _ & Hds & Htd & _ & _ & _ & HT0
                  & _ & _ & _ & HTi & _).
  pose proof Hloop as Hlen.
  eapply newton_loop_lengths in Hlen;
    [|exact Hsh|exact Href|exact Hcomb|exact Hinit].
  destruct Hlen as (Hcnt & Hok & HTk & HJ).
  set (nb := length (rows (branch p))) in *.
  exists (e_ref e), (e_pv e), (residual_length e nb).
  split; [exact Hpart|]. split.
  { unfold residual_length. rewrite Hpq, Hds, Htd. reflexivity. }
  split; [exact HJ|].
  cbn [out_T newtonpf_return]. eexists. split; [reflexivity|].
  rewrite length_map. destruct (e_tdpf e) eqn:Eon.
  - destruct Hok as [_ Hok]. destruct (Hok Eon) as [HT _]. exact HT.
  - rewrite HTk, HTi by reflexivity. rewrite length_map.
    destruct Hcnt as (_ & _ & _ & _ & Hc & _). exact Hc.
Qed.

End ResultShapes.

Section HeatBalance.

Context {F : Float64}.

(** entry by entry, _calc_T is the heat-balance temperature of the branch *)
Lemma calc_T_rows (nb : nat) (V : list complex) (I a0 a1 a2 tau T0 : list f64)
    (d : option f64) :
  length I = nb -> length a0 = nb -> length a1 = nb -> length a2 = nb ->
  length tau = nb -> length T0 = nb ->
  _calc_T V I a0 a1 a2 tau d T0
  = Ok (map (fun k => heat_balance_temperature d (nth k a0 (of_Z 0))
                        (nth k a1 (of_Z 0)) (nth k a2 (of_Z 0))
                        (nth k tau (of_Z 0)) (nth k I (of_Z 0))
                        (nth k T0 (of_Z 0)))
          (seq 0 nb)).
Proof.
  intros HI H0 H1 H2 Ht HT0.
  remember (Ok (map _ (seq 0 nb))) as R eqn:HR.
  unfold _calc_T.
  rewrite (list_tabulate (of_Z 0) a0 H0).
  rewrite (list_tabulate (of_Z 0) a1 H1).
  rewrite (list_tabulate (of_Z 0) a2 H2).
  rewrite (list_tabulate (of_Z 0) tau Ht).
  rewrite (list_tabulate (of_Z 0) I HI).
  rewrite (list_tabulate (of_Z 0) T0 HT0).
  rewrite !map_map.
  repeat (progress cbn [bind] || rewrite bcast2_map).
  subst R. unfold heat_balance_temperature.
  destruct d as [d|]; rewrite ?map_map;
    repeat (progress cbn [bind] || rewrite bcast2_map);
    rewrite ?map_map; reflexivity.
Qed.

End HeatBalance.

Section PolarForm.

Context {F : Float64}.

(** the entries of V = Vm * exp(1j * Va) for operands of one length *)
Lemma polar_rebuilt (Vm Va : list f64) :
  length Vm = length Va ->
  exists V, polar Vm Va = Ok V /\ length V = length Vm
    /\ forall k, (k < length Vm)%nat ->
         nth k V czero = rebuilt (nth k Vm (of_Z 0)) (nth k Va (of_Z 0)).
Proof.
  intros Hlen. unfold polar.
  rewrite bcast2_same_length by (rewrite length_map; exact Hlen).
  eexists. split; [reflexivity|]. split.
  - apply zip_with_length. rewrite length_map. exact Hlen.
  - intros k Hk.
    rewrite (zip_with_nth _ _ _ (of_Z 0) czero czero)
      by (rewrite ?length_map; lia).
    rewrite (map_nth_in _ Va (of_Z 0)) by lia. reflexivity.
Qed.


End PolarForm.

Section FixedBuses.

Context {F : Float64} {IX : Indices} {X : Collaborators}.

Lemma mapM_determined {A B : Type} (f : A -> res B) (g : A -> B)
    (l : list A) (r : list B) :
  (forall a b, In a l -> f a = Ok b -> b = g a) ->
  mapM f l = Ok r -> r = map g l.
Proof.
  revert r. induction l as [|a l IH]; intros r Hg H; cbn [mapM] in H.
  - injection H as <-. reflexivity.
  - apply bind_ok in H. destruct H as [b [Hb H]].
    apply bind_ok in H. destruct H as [bs [Hbs H]]. injection H as <-.
    cbn [map]. f_equal.
    + apply Hg; [left; reflexivity|exact Hb].
    + apply IH; [|exact Hbs]. intros a' b' Hin. apply Hg. right. exact Hin.
Qed.

(** [a[idx] = vals] with indices that are not negative keeps the length and
    every entry whose position is not among the indices *)
Lemma put_frame {A : Type} (a a' : list A) (idx : list Z) (vals : list A)
    (d : A) :
  put a idx vals = Ok a' -> Forall (fun b => 0 <= b) idx ->
  length a' = length a
  /\ forall j, ~ In (Z.of_nat j) idx -> nth j a' d = nth j a d.
Proof.
  intros H Hpos. unfold put in H.
  apply bind_ok in H. destruct H as [ks [Hks H]].
  apply (mapM_determined _ Z.to_nat) in Hks.
  2:{ intros b k Hin Hk. rewrite Forall_forall in Hpos.
      specialize (Hpos b Hin). unfold norm_index in Hk.
      destruct ((0 <=? b) && (b <? Z.of_nat (length a))).
      - injection Hk as <-. reflexivity.
      - destruct ((- Z.of_nat (length a) <=? b) && (b <? 0)) eqn:E;
          [|discriminate Hk].
        apply andb_prop in E. destruct E as [_ E]. apply Z.ltb_lt in E. lia. }
  assert (Hout : forall j kvs, (forall k, In k (map fst kvs) -> In k ks) ->
             ~ In (Z.of_nat j) idx ->
             nth j (put_all a kvs) d = nth j a d).
  { intros j kvs Hsub Hj. apply put_all_nth_other. intros Hin.
    apply Hsub in Hin. rewrite Hks in Hin. apply in_map_iff in Hin.
    destruct Hin as [b [E Hb]]. rewrite Forall_forall in Hpos.
    specialize (Hpos b Hb). apply Hj.
    replace (Z.of_nat j) with b by lia. exact Hb. }
  assert (Hmap : forall (v : A) k,
             In k (map fst (map (fun k0 : nat => (k0, v)) ks)) -> In k ks).
  { intros v k. rewrite map_map. cbn [fst]. rewrite map_id. auto. }
  assert (Hcomb : forall (vs : list A) k,
             In k (map fst (combine ks vs)) -> In k ks).
  { intros vs k Hin. apply in_map_iff in Hin.
    destruct Hin as [[k' v] [E Hin]]. cbn [fst] in E. subst k'.
    eapply in_combine_l. exact Hin. }
  destruct vals as [|v [|v' vals]].
  - destruct (Nat.eqb (length []) (length idx)); [|discriminate H].
    injection H as <-. split; [apply put_all_length|].
    intros j Hj. apply Hout; [apply Hcomb|exact Hj].
  - injection H as <-. split; [apply put_all_length|].
    intros j Hj. apply Hout; [apply Hmap|exact Hj].
  - destruct (Nat.eqb (length (v :: v' :: vals)) (length idx));
      [|discriminate H].
    injection H as <-. split; [apply put_all_length|].
    intros j Hj. apply Hout; [apply Hcomb|exact Hj].
Qed.

(** the plain step moves magnitudes at the load buses only and angles at
    the voltage-controlled and load buses only *)
Lemma update_voltage_frame (e : env) (Ybus : spmat) (J : jacobian)
    (Fx dx : list f64) (st : state) (Vm Va slack T : list f64)
    (dV : option (list f64 * list f64)) :
  e_iwamoto e = false ->
  Forall (fun b => 0 <= b) (e_pv e) -> Forall (fun b => 0 <= b) (e_pq e) ->
  update_voltage e Ybus J Fx dx st = Ok (Vm, Va, dV, slack, T) ->
  length Vm = length (st_Vm st) /\ length Va = length (st_Va st)
  /\ (forall j, ~ In (Z.of_nat j) (e_pq e) ->
        nth j Vm (of_Z 0) = nth j (st_Vm st) (of_Z 0))
  /\ (forall j, ~ In (Z.of_nat j) (e_pv e) -> ~ In (Z.of_nat j) (e_pq e) ->
        nth j Va (of_Z 0) = nth j (st_Va st) (of_Z 0)).
Proof.
  intros Hiw Hpv Hpq H. rewrite update_voltage_plain in H by exact Hiw.
  apply bind_ok in H. destruct H as [Va1 [H1 H]].
  apply bind_ok in H. destruct H as [[Va2 Vm2] [H2 H]].
  apply bind_ok in H. destruct H as [sl [_ H]].
  apply bind_ok in H. destruct H as [T' [_ H]].
  cbn [fst snd] in H. injection H as <- <- _ _ _.
  assert (A1 : length Va1 = length (st_Va st)
               /\ forall j, ~ In (Z.of_nat j) (e_pv e) ->
                    nth j Va1 (of_Z 0) = nth j (st_Va st) (of_Z 0)).
  { destruct (negb (Nat.eqb (e_npv e) 0)).
    - apply bind_ok in H1. destruct H1 as [g [_ H1]].
      apply bind_ok in H1. destruct H1 as [s [_ H1]].
      exact (@put_frame _ _ _ _ _ (of_Z 0) H1 Hpv).
    - injection H1 as <-. auto. }
  destruct A1 as [L1 A1].
  destruct (negb (Nat.eqb (e_npq e) 0)).
  - apply bind_ok in H2. destruct H2 as [g [_ H2]].
    apply bind_ok in H2. destruct H2 as [s [_ H2]].
    apply bind_ok in H2. destruct H2 as [Va' [HVa H2]].
    apply bind_ok in H2. destruct H2 as [g' [_ H2]].
    apply bind_ok in H2. destruct H2 as [s' [_ H2]].
    apply bind_ok in H2. destruct H2 as [Vm' [HVm H2]].
    injection H2 as <- <-.
    destruct (@put_frame _ _ _ _ _ (of_Z 0) HVa Hpq) as [L2 A2].
    destruct (@put_frame _ _ _ _ _ (of_Z 0) HVm Hpq) as [L3 A3].
    repeat split; try congruence; try assumption.
    intros j Hj1 Hj2. rewrite A2 by exact Hj2. apply A1. exact Hj1.
  - injection H2 as <- <-. repeat split; auto.
Qed.

(** what a pass hands to the update and to the recomposition *)
Lemma newton_iteration_update (e : env) (st st' : state) :
  newton_iteration e st = Ok st' ->
  exists Ybus J dx Vm Va dV slack T,
    update_voltage e Ybus J (st_F st) dx st = Ok (Vm, Va, dV, slack, T)
    /\ recompose Vm Va = Ok (st_V st', st_Vm st', st_Va st').
Proof.
  unfold newton_iteration. intros H.
  inv_res H; injection H as <-; cbn [st_V st_Vm st_Va];
    do 8 eexists; split; eassumption.
Qed.

(** X13: a pass of the plain Newton-Raphson algorithm, with bus numbers
    that are not negative, recomposes the voltages from magnitudes that
    differ from the previous ones at load buses only and from angles that
    differ at voltage-controlled and load buses only. *)
Theorem newton_iteration_fixed_buses (e : env) (st st' : state) :
  e_iwamoto e = false ->
  Forall (fun b => 0 <= b) (e_pv e) -> Forall (fun b => 0 <= b) (e_pq e) ->
  newton_iteration e st = Ok st' ->
  exists Vm Va,
    polar Vm Va = Ok (st_V st')
    /\ length Vm = length (st_Vm st) /\ length Va = length (st_Va st)
    /\ (forall j, ~ In (Z.of_nat j) (e_pq e) ->
          nth j Vm (of_Z 0) = nth j (st_Vm st) (of_Z 0))
    /\ (forall j, ~ In (Z.of_nat j) (e_pv e) -> ~ In (Z.of_nat j) (e_pq e) ->
          nth j Va (of_Z 0) = nth j (st_Va st) (of_Z 0)).
Proof.
  intros Hiw Hpv Hpq H. apply newton_iteration_update in H.
  destruct H as (Ybus & J & dx & Vm & Va & dV & slack & T & Hu & Hr).
  exists Vm, Va. split.
  - unfold recompose in Hr. apply bind_ok in Hr.
    destruct Hr as [V [HV Hr]]. injection Hr as <- _ _. exact HV.
  - eapply update_voltage_frame; eassumption.
Qed.

Lemma bus_partition_subset (ds : bool) (ref pv ref' pv' : list Z) (b : Z) :
  bus_partition ds ref pv = Ok (ref', pv') -> In b pv' ->
  In b ref \/ In b pv.
Proof.
  unfold bus_partition. destruct (ds && Nat.ltb 1 (length ref)).
  - intros H. apply bind_ok in H. destruct H as [r [_ H]].
    injection H as _ <-. intros Hin. apply in_app_or in Hin.
    destruct Hin as [Hin|Hin]; [left|right; exact Hin].
    destruct ref as [|r0 ref0]; [contradiction|]. right. exact Hin.
  - intros H. injection H as _ <-. auto.
Qed.

(** X22: with the plain Newton-Raphson algorithm and bus numbers that are
    not negative, no step of the solve enters the voltage of a bus that is
    neither voltage-controlled nor a load bus in the solver's partition:
    the voltage returned there is the initial voltage taken to its
    magnitude and argument and rebuilt from them, once for every pass
    made. *)
Theorem newtonpf_holds_fixed_buses (Ybus : spmat) (Sbus V0 : list complex)
    (ref pv pq : list Z) (p : ppci) (o : options) (mk : option makeYbus_t)
    (out : output) :
  String.eqb (algorithm o) "iwamoto_nr" = false ->
  Forall (fun b => 0 <= b) ref -> Forall (fun b => 0 <= b) pv ->
  Forall (fun b => 0 <= b) pq ->
  newtonpf Ybus Sbus V0 ref pv pq p o mk = Ok out ->
  exists ref' pv',
    bus_partition (distributed_slack o) ref pv = Ok (ref', pv')
    /\ length (out_V out) = length V0
    /\ 0 <= out_i out
    /\ forall k, (k < length V0)%nat ->
         ~ In (Z.of_nat k) pv' -> ~ In (Z.of_nat k) pq ->
         nth k (out_V out) czero
         = Nat.iter (Z.to_nat (out_i out)) repolar (nth k V0 czero).
Proof.
  intros Halg Href Hpv Hpq H. apply newtonpf_ok in H.
  destruct H as (e & st0 & st' & Hinit & Hloop & ->).
  pose proof Hinit as Hf. apply newtonpf_init_facts in Hf.
  destruct Hf as (Hpart & Hepq & _ & _ & _ & _ & _ & Hiw & _ & _ & _ & Hi
                  & HV & _).
  pose proof Hinit as Hm. apply newtonpf_init_more in Hm.
  destruct Hm as (_ & _ & _ & _ & _ & HVm & HVa & _).
  rewrite Halg in Hiw.
  assert (Hpv' : Forall (fun b => 0 <= b) (e_pv e)).
  { apply Forall_forall. intros b Hb.
    destruct (@bus_partition_subset _ _ _ _ _ b Hpart Hb) as [Hin|Hin].
    - rewrite Forall_forall in Href. auto.
    - rewrite Forall_forall in Hpv. auto. }
  assert (Hpq' : Forall (fun b => 0 <= b) (e_pq e))
    by (rewrite Hepq; exact Hpq).
  set (P := fun s : state =>
    0 <= st_i s
    /\ length (st_V s) = length V0
    /\ st_Vm s = map cabs (st_V s) /\ st_Va s = map angle (st_V s)
    /\ forall k, (k < length V0)%nat ->
         ~ In (Z.of_nat k) (e_pv e) -> ~ In (Z.of_nat k) (e_pq e) ->
         nth k (st_V s) czero
         = Nat.iter (Z.to_nat (st_i s)) repolar (nth k V0 czero)).
  assert (HP : P st').
  { eapply (newton_loop_invariant_guarded P); [| |exact Hloop].
    - intros s s' (Hs0 & HL & HsVm & HsVa & Hs) _ _ Hit.
      pose proof Hit as Hfa. apply newton_iteration_facts in Hfa.
      destruct Hfa as (HVm' & HVa' & _).
      pose proof Hit as Hc. apply newton_iteration_counter in Hc.
      apply newton_iteration_update in Hit.
      destruct Hit as (Yb & J & dx & Vm & Va & dV & sl & T & Hu & Hr).
      pose proof Hu as Hfr.
      apply update_voltage_frame in Hfr; [|exact Hiw|exact Hpv'|exact Hpq'].
      destruct Hfr as (LVm & LVa & FVm & FVa).
      rewrite HsVm, length_map in LVm. rewrite HsVa, length_map in LVa.
      unfold recompose in Hr. apply bind_ok in Hr.
      destruct Hr as [V' [Hpol Hr]]. injection Hr as HVs _ _.
      assert (Hlen : length Vm = length Va) by congruence.
      destruct (@polar_rebuilt _ Vm Va Hlen) as (V2 & HV2 & HL2 & Hent).
      rewrite Hpol in HV2. injection HV2 as <-.
      unfold P. rewrite <- HVs. split; [lia|]. split; [congruence|].
      rewrite HVs.
      split; [exact HVm'|]. split; [exact HVa'|].
      intros k Hk Hnv Hnq. rewrite <- HVs.
      rewrite Hent by lia. rewrite (FVm k Hnq), (FVa k Hnv Hnq).
      rewrite HsVm, HsVa.
      rewrite (map_nth_in cabs (st_V s) czero) by lia.
      rewrite (map_nth_in angle (st_V s) czero) by lia.
      rewrite (Hs k Hk Hnv Hnq), Hc.
      replace (Z.to_nat (st_i s + 1)) with (S (Z.to_nat (st_i s))) by lia.
      reflexivity.
    - unfold P. rewrite Hi, HV. cbn [Z.to_nat Nat.iter].
      split; [lia|]. split; [reflexivity|]. rewrite <- HV.
      split; [exact HVm|]. split; [exact HVa|]. intros. reflexivity. }
  destruct HP as (Hi' & HL & _ & _ & Hs).
  exists (e_ref e), (e_pv e). split; [exact Hpart|].
  cbn [out_V out_i newtonpf_return]. split; [exact HL|].
  split; [exact Hi'|].
  intros k Hk Hnv Hnq. rewrite <- Hepq in Hnq. exact (Hs k Hk Hnv Hnq).
Qed.

End FixedBuses.


(** * The voltage correction of the short-circuit currents *)

Section ShortCircuitFacts.

Context {F : Float64}.

Lemma mapM_forall {A B : Type} (f : A -> res B) (P : B -> Prop) (l : list A)
    (r : list B) :
  (forall a b, f a = Ok b -> P b) -> mapM f l = Ok r -> Forall P r.
Proof.
  intros Hf. revert r. induction l as [|a l IH]; simpl; intros r H.
  - inversion H. constructor.
  - apply bind_ok in H. destruct H as [b [Hb H]].
    apply bind_ok in H. destruct H as [bs [Hbs H]].
    inversion H. constructor; eauto.
Qed.

Lemma singleton_rows (V : list (list complex)) :
  Forall (fun r => length r = 1%nat) V -> exists zs, V = as_column zs.
Proof.
  induction 1 as [|r V Hr _ [zs IH]].
  - exists []. reflexivity.
  - destruct r as [|z [|z' r]]; try discriminate Hr.
    exists (z :: zs). simpl. rewrite IH. reflexivity.
Qed.

Lemma max_key_abs_from_column (best : complex) (rest : list complex) :
  max_key_abs_from [best] (as_column rest) = Ok [first_max_abs best rest].
Proof.
  revert best. induction rest as [|z rest IH]; intros best; simpl.
  - reflexivity.
  - unfold first_max_abs. cbn [fold_left]. unfold magnitude.
    change (fhypot (re best) (im best)) with (cabs best).
    change (fhypot (re z) (im z)) with (cabs z).
    destruct (flt (cabs best) (cabs z)); apply IH.
Qed.

Lemma sign_correction_column (z0 : complex) (rest : list complex) :
  sign_correction (as_column (z0 :: rest))
  = Ok (as_column
          (map (fun z => clamp (cneg (csub z (first_max_abs z0 rest))))
             (z0 :: rest))).
Proof.
  unfold sign_correction. cbn [as_column map max_key_abs].
  change (map (fun z => [z]) rest) with (as_column rest).
  rewrite max_key_abs_from_column. cbn [bind].
  set (m := first_max_abs z0 rest).
  assert (H : forall zs,
             mapM (fun r => bcast2 csub r [m]) (as_column zs)
             = Ok (as_column (map (fun z => csub z m) zs))).
  { intros zs. induction zs as [|z zs IH]; [reflexivity|].
    cbn [as_column map mapM bcast2 bind].
    unfold as_column in IH. rewrite IH. reflexivity. }
  specialize (H (z0 :: rest)). cbn [as_column map] in H.
  change (map (fun z => [z]) rest) with (as_column rest) in H.
  unfold as_column in *. rewrite H. cbn [bind]. f_equal.
  cbn [map]. f_equal. rewrite !map_map. reflexivity.
Qed.

(** the code's correction of one entry is the corrected value *)
Lemma corrected_entry_code (m z : complex) :
  clamp (cneg (csub z m)) = corrected_entry m z.
Proof. reflexivity. Qed.

(** C10: with the precomputed inverse, the selected voltages are returned
    as they are unless there is exactly one fault bus.  With one fault bus
    they form one column, and every entry z is replaced by the negation of
    z minus the entry of largest magnitude, or by zero when the magnitude of
    that is below 1e-10; a column without entries has no entry of largest
    magnitude and the correction raises.  An error of the selection is
    passed on. *)
Theorem sign_correction_single_fault_bus (ikss1 phi baseI : list f64)
    (Zbus : cmatrix) (bus_idx : list Z) :
  (forall x, V_ikss_selected ikss1 phi baseI Zbus bus_idx = Raise x ->
             V_ikss_inverse_y ikss1 phi baseI Zbus bus_idx = Raise x)
  /\ forall V, V_ikss_selected ikss1 phi baseI Zbus bus_idx = Ok V ->
       (length bus_idx <> 1%nat ->
        V_ikss_inverse_y ikss1 phi baseI Zbus bus_idx = Ok V)
       /\ (length bus_idx = 1%nat ->
           exists zs,
             V = as_column zs
             /\ (zs = [] ->
                 V_ikss_inverse_y ikss1 phi baseI Zbus bus_idx
                 = Raise ValueError)
             /\ forall z0 rest, zs = z0 :: rest ->
                  V_ikss_inverse_y ikss1 phi baseI Zbus bus_idx
                  = Ok (as_column
                          (map (corrected_entry (first_max_abs z0 rest))
                             zs))).
Proof.
  split.
  - intros x Hx. unfold V_ikss_inverse_y. rewrite Hx. reflexivity.
  - intros V HV. split.
    + intros Hn. unfold V_ikss_inverse_y. rewrite HV. cbn [bind].
      apply Nat.eqb_neq in Hn. rewrite Hn. reflexivity.
    + intros H1.
      assert (Hrun : V_ikss_inverse_y ikss1 phi baseI Zbus bus_idx
                     = sign_correction V).
      { unfold V_ikss_inverse_y. rewrite HV. cbn [bind].
        apply Nat.eqb_eq in H1. rewrite H1. reflexivity. }
      unfold V_ikss_selected in HV.
      apply bind_ok in HV. destruct HV as [a [_ HV]].
      apply bind_ok in HV. destruct HV as [src [_ HV]].
      apply bind_ok in HV. destruct HV as [W [_ HV]].
      assert (Hrows : Forall (fun r => length r = 1%nat) V).
      { eapply mapM_forall; [|exact HV].
        intros row r Hr. apply take_length in Hr. congruence. }
      destruct (singleton_rows Hrows) as [zs Hcol].
      exists zs. split; [exact Hcol|]. rewrite Hrun, Hcol. split.
      * intros ->. reflexivity.
      * intros z0 rest ->. rewrite sign_correction_column.
        rewrite (map_ext _ _ (corrected_entry_code (first_max_abs z0 rest))).
        reflexivity.
Qed.

End ShortCircuitFacts.

(** * Short-circuit currents: the shape of the fault voltages, the peak and
       the thermal equivalent current *)

Section FaultVoltageShape.

Context {F : Float64}.

Lemma as_column_rows (zs : list complex) :
  length (as_column zs) = length zs
  /\ Forall (fun r => length r = 1%nat) (as_column zs).
Proof.
  unfold as_column. rewrite length_map. split; [reflexivity|].
  apply Forall_map. apply Forall_forall. intros z _. reflexivity.
Qed.

(** X14: the voltages of the voltage source, when they are returned, form an
    array with one row per row of Zbus and one column per fault bus, with or
    without the correction for a single fault bus. *)
Theorem V_ikss_inverse_y_shape (ikss1 phi baseI : list f64) (Zbus : cmatrix)
    (bus_idx : list Z) (V : cmatrix) :
  V_ikss_inverse_y ikss1 phi baseI Zbus bus_idx = Ok V ->
  length V = length Zbus
  /\ Forall (fun r => length r = length bus_idx) V.
Proof.
  unfold V_ikss_inverse_y. intros H.
  apply bind_ok in H. destruct H as [V0 [Hsel H]].
  assert (Hshape : length V0 = length Zbus
                   /\ Forall (fun r => length r = length bus_idx) V0).
  { unfold V_ikss_selected in Hsel.
    apply bind_ok in Hsel. destruct Hsel as [a [_ Hsel]].
    apply bind_ok in Hsel. destruct Hsel as [src [_ Hsel]].
    apply bind_ok in Hsel. destruct Hsel as [V' [HV' Hsel]].
    split.
    - apply mapM_length in Hsel. apply mapM_length in HV'. congruence.
    - eapply mapM_forall; [|exact Hsel].
      intros r b Hb. cbv beta in Hb. apply take_length in Hb. exact Hb. }
  destruct (Nat.eqb (length bus_idx) 1) eqn:E.
  - apply Nat.eqb_eq in E. destruct Hshape as [Hlen Hrows].
    rewrite E in *. apply singleton_rows in Hrows. destruct Hrows as [zs ->].
    destruct zs as [|z0 rest]; [discriminate H|].
    rewrite sign_correction_column in H. injection H as <-.
    split.
    + rewrite <- Hlen. unfold as_column. cbn [map length].
      rewrite !length_map. reflexivity.
    + constructor; [reflexivity|]. apply (proj2 (as_column_rows _)).
  - injection H as <-. exact Hshape.
Qed.

End FaultVoltageShape.

Section TableFacts.

Context {F : Float64}.

Lemma nth_error_update_other {A : Type} (a : list A) (k j : nat) (v : A) :
  k <> j -> nth_error (update a k v) j = nth_error a j.
Proof.
  revert k j. induction a as [|x a IH]; intros [|k] [|j] H; cbn; auto;
    try congruence.
Qed.

Lemma nth_error_update_same {A : Type} (a : list A) (k : nat) (v : A) :
  (k < length a)%nat -> nth_error (update a k v) k = Some v.
Proof.
  revert k. induction a as [|x a IH]; intros [|k] H; cbn in *; try lia;
    [reflexivity|]. apply IH. lia.
Qed.

Lemma update_same_length {A : Type} (a : list A) (k : nat) (v : A) :
  length (update a k v) = length a.
Proof.
  revert k. induction a as [|x a IH]; intros [|k]; cbn; auto.
Qed.

(** what [M[:, k] = vals] does, row by row *)
Lemma set_col_rows_eq (T T' : array2) (k : nat) (vals : list f64) :
  set_col T k vals = Ok T' ->
  (k < ncols T)%nat /\ ncols T' = ncols T
  /\ exists vs, length vs = length (rows T)
                /\ (length vals = length (rows T) -> vs = vals)
                /\ rows T' = zip_with (fun r v => update r k v) (rows T) vs.
Proof.
  unfold set_col. destruct (Nat.ltb k (ncols T)) eqn:Hk; [|discriminate].
  apply Nat.ltb_lt in Hk. intros H.
  assert (Hrep : forall (v : f64) (rs : list (list f64)),
             map (fun r => update r k v) rs
             = zip_with (fun r v => update r k v) rs (repeat v (length rs))).
  { intros v rs. induction rs as [|r rs IH]; [reflexivity|].
    cbn. f_equal. exact IH. }
  destruct vals as [|v [|v' vals]].
  - destruct (Nat.eqb (length []) (length (rows T))) eqn:E; [|discriminate H].
    apply Nat.eqb_eq in E. injection H as <-. cbn [ncols rows].
    repeat split; auto. exists []. repeat split; auto.
  - injection H as <-. cbn [ncols rows]. repeat split; auto.
    exists (repeat v (length (rows T))). rewrite repeat_length.
    repeat split; auto.
    intros Hl. destruct (rows T) as [|r [|r' rs]]; try discriminate Hl.
    reflexivity.
  - destruct (Nat.eqb (length (v :: v' :: vals)) (length (rows T))) eqn:E;
      [|discriminate H].
    apply Nat.eqb_eq in E. injection H as <-. cbn [ncols rows].
    repeat split; auto. exists (v :: v' :: vals). repeat split; auto.
Qed.

Lemma mapM_cell_other (k j : nat) (rs : list (list f64)) (vs : list f64) :
  k <> j -> length vs = length rs ->
  mapM (cell j) (zip_with (fun r v => update r k v) rs vs)
  = mapM (cell j) rs.
Proof.
  intros Hkj. revert vs. induction rs as [|r rs IH]; intros [|v vs] Hl;
    try discriminate Hl; [reflexivity|].
  unfold zip_with in *. cbn [combine map mapM fst snd].
  rewrite IH by (injection Hl; auto).
  unfold cell at 1 3. rewrite nth_error_update_other by exact Hkj.
  reflexivity.
Qed.

Lemma mapM_cell_same (k : nat) (rs : list (list f64)) (vs : list f64) :
  Forall (fun r => (k < length r)%nat) rs -> length vs = length rs ->
  mapM (cell k) (zip_with (fun r v => update r k v) rs vs) = Ok vs.
Proof.
  intros Hall. revert vs. induction Hall as [|r rs Hr _ IH]; intros [|v vs] Hl;
    try discriminate Hl; [reflexivity|].
  unfold zip_with in *. cbn [combine map mapM fst snd].
  rewrite IH by (injection Hl; auto).
  unfold cell. rewrite nth_error_update_same by exact Hr. reflexivity.
Qed.

(** writing a column leaves the other columns as they were *)
Lemma col_set_col_other (T T' : array2) (k j : nat) (vals : list f64) :
  set_col T k vals = Ok T' -> j <> k -> col T' j = col T j.
Proof.
  intros H Hjk. apply set_col_rows_eq in H.
  destruct H as (_ & Hn & vs & Hl & _ & Hr).
  unfold col. rewrite Hn, Hr.
  destruct (Nat.ltb j (ncols T)); [|reflexivity].
  apply mapM_cell_other; [congruence|exact Hl].
Qed.

(** and the column written reads back what was written *)
Lemma col_set_col_same (T T' : array2) (k : nat) (vals : list f64) :
  rectangular T -> length vals = length (rows T) ->
  set_col T k vals = Ok T' -> col T' k = Ok vals.
Proof.
  intros Hrect Hlen H. apply set_col_rows_eq in H.
  destruct H as (Hk & Hn & vs & Hl & Hvs & Hr).
  rewrite (Hvs Hlen) in *.
  unfold col. rewrite Hn, Hr.
  apply Nat.ltb_lt in Hk. rewrite Hk.
  apply mapM_cell_same; [|exact Hlen].
  eapply Forall_impl; [|exact Hrect]. intros r Hrow. cbv beta in Hrow.
  apply Nat.ltb_lt in Hk. lia.
Qed.

Lemma set_col_rectangular (T T' : array2) (k : nat) (vals : list f64) :
  rectangular T -> set_col T k vals = Ok T' ->
  rectangular T' /\ length (rows T') = length (rows T).
Proof.
  intros Hrect H. apply set_col_rows_eq in H.
  destruct H as (_ & Hn & vs & Hl & _ & Hr).
  unfold rectangular in *. rewrite Hn, Hr. split.
  - clear Hr Hn. revert vs Hl.
    induction Hrect as [|r rs Hrow _ IH]; intros [|v vs] Hl;
      try discriminate Hl; [constructor|].
    unfold zip_with in *. cbn [combine map fst snd]. constructor.
    + rewrite update_same_length. exact Hrow.
    + apply IH. injection Hl; auto.
  - apply zip_with_length. congruence.
Qed.

End TableFacts.

Section PeakThermalFacts.

Context {F : Float64} {L : Float64Log} {IS : IndicesSC}.

(** X15: _calc_ip writes the column IP of the bus table and nothing else:
    the table keeps its shape, every other column reads as before, and the
    entry of IP at each bus is sqrt(2) (KAPPA IKSS1 + IKSS2) of that bus. *)
Theorem calc_ip_column (bus bus' : array2) :
  rectangular bus ->
  _calc_ip bus = Ok bus' ->
  rectangular bus' /\ ncols bus' = ncols bus
  /\ length (rows bus') = length (rows bus)
  /\ (forall j, j <> IP -> col bus' j = col bus j)
  /\ exists kappa ikss1 ikss2 ip,
       col bus KAPPA = Ok kappa /\ col bus IKSS1 = Ok ikss1
       /\ col bus IKSS2 = Ok ikss2 /\ col bus' IP = Ok ip
       /\ length ip = length (rows bus)
       /\ forall i, (i < length (rows bus))%nat ->
            nth i ip (of_Z 0)
            = fmul (fsqrt (of_Z 2))
                (fadd (fmul (nth i kappa (of_Z 0)) (nth i ikss1 (of_Z 0)))
                      (nth i ikss2 (of_Z 0))).
Proof.
  intros Hrect H. unfold _calc_ip in H.
  apply bind_ok in H. destruct H as [kappa [Hk H]].
  apply bind_ok in H. destruct H as [ikss1 [H1 H]].
  apply bind_ok in H. destruct H as [x [Hx H]].
  apply bind_ok in H. destruct H as [ikss2 [H2 H]].
  apply bind_ok in H. destruct H as [s [Hs H]].
  pose proof (col_length _ _ Hk) as Lk.
  pose proof (col_length _ _ H1) as L1.
  pose proof (col_length _ _ H2) as L2.
  rewrite bcast2_same_length in Hx by congruence. injection Hx as <-.
  assert (Lx : length (zip_with fmul kappa ikss1) = length (rows bus))
    by (rewrite zip_with_length; congruence).
  rewrite bcast2_same_length in Hs by congruence. injection Hs as <-.
  set (s := zip_with fadd (zip_with fmul kappa ikss1) ikss2) in *.
  assert (Ls : length s = length (rows bus))
    by (unfold s; rewrite zip_with_length; congruence).
  assert (Lip : length (map (fmul (fsqrt (of_Z 2))) s) = length (rows bus))
    by (rewrite length_map; exact Ls).
  destruct (@set_col_rectangular _ _ _ _ _ Hrect H) as [Hrect' Hrows].
  pose proof (@set_col_rows_eq _ _ _ _ _ H) as (_ & Hn & _).
  split; [exact Hrect'|]. split; [exact Hn|]. split; [exact Hrows|].
  split; [intros j Hj; eapply col_set_col_other; eassumption|].
  exists kappa, ikss1, ikss2, (map (fmul (fsqrt (of_Z 2))) s).
  repeat split; try assumption.
  - exact (@col_set_col_same _ _ _ _ _ Hrect Lip H).
  - intros i Hi.
    rewrite (map_nth_in _ s (of_Z 0)) by lia. f_equal. unfold s.
    rewrite (zip_with_nth fadd _ _ (of_Z 0) (of_Z 0)) by lia. f_equal.
    apply zip_with_nth; lia.
Qed.

(** the steps of _calc_ith on a table as numpy holds it *)
Lemma calc_ith_steps (tk_s : f64) (bus bus' : array2) :
  rectangular bus ->
  _calc_ith tk_s bus = Ok bus' ->
  exists kappa m bus1 ikss1 ikss2 ith,
    col bus KAPPA = Ok kappa /\ length kappa = length (rows bus)
    /\ length m = length (rows bus)
    /\ (forall i, (i < length (rows bus))%nat ->
          nth i m (of_Z 0)
          = if flt (of_Q (199 # 100)) (nth i kappa (of_Z 0)) then of_Z 0
            else m_factor tk_s (nth i kappa (of_Z 0)))
    /\ set_col bus M m = Ok bus1 /\ rectangular bus1
    /\ length (rows bus1) = length (rows bus)
    /\ col bus1 IKSS1 = Ok ikss1 /\ col bus1 IKSS2 = Ok ikss2
    /\ length ith = length (rows bus)
    /\ (forall i, (i < length (rows bus))%nat ->
          nth i ith (of_Z 0)
          = fmul (fadd (nth i ikss1 (of_Z 0)) (nth i ikss2 (of_Z 0)))
                 (fsqrt (fadd (nth i m (of_Z 0)) (of_Z 1))))
    /\ set_col bus1 ITH ith = Ok bus'.
Proof.
  intros Hrect H. unfold _calc_ith in H.
  apply bind_ok in H. destruct H as [kappa [Hk H]].
  set (m := zip_with _ kappa (map (m_factor tk_s) kappa)) in H.
  apply bind_ok in H. destruct H as [bus1 [Hb1 H]].
  apply bind_ok in H. destruct H as [ikss1 [H1 H]].
  apply bind_ok in H. destruct H as [ikss2 [H2 H]].
  apply bind_ok in H. destruct H as [s [Hs H]].
  apply bind_ok in H. destruct H as [ith [Hith H]].
  pose proof (col_length _ _ Hk) as Lk.
  assert (Lm : length m = length (rows bus))
    by (unfold m; rewrite zip_with_length; rewrite ?length_map; congruence).
  destruct (@set_col_rectangular _ _ _ _ _ Hrect Hb1) as [Hrect1 Hrows1].
  pose proof (col_length _ _ H1) as L1.
  pose proof (col_length _ _ H2) as L2.
  rewrite bcast2_same_length in Hs by congruence. injection Hs as <-.
  assert (Ls : length (zip_with fadd ikss1 ikss2) = length (rows bus))
    by (rewrite zip_with_length; congruence).
  rewrite bcast2_same_length in Hith
    by (rewrite length_map; congruence).
  injection Hith as <-.
  exists kappa, m, bus1, ikss1, ikss2.
  exists (zip_with fmul (zip_with fadd ikss1 ikss2)
            (map (fun x => fsqrt (fadd x (of_Z 1))) m)).
  repeat split; try assumption.
  - intros i Hi. unfold m.
    rewrite (zip_with_nth _ _ _ (of_Z 0) (of_Z 0))
      by (rewrite ?length_map; lia).
    rewrite (map_nth_in _ kappa (of_Z 0)) by lia. reflexivity.
  - rewrite zip_with_length by (rewrite length_map; congruence). exact Ls.
  - intros i Hi.
    rewrite (zip_with_nth fmul _ _ (of_Z 0) (of_Z 0))
      by (rewrite ?length_map; lia).
    rewrite (zip_with_nth fadd _ _ (of_Z 0) (of_Z 0)) by lia.
    rewrite (map_nth_in _ m (of_Z 0)) by lia. reflexivity.
Qed.

(** X16: _calc_ith writes the columns M and ITH of the bus table and nothing
    else.  When the two are different columns, M holds 0 at the buses whose
    kappa exceeds 1.99 and
    (exp(4 f tk_s ln(kappa - 1)) - 1) / (2 f tk_s ln(kappa - 1)), f = 50,
    at the others; ITH holds (IKSS1 + IKSS2) sqrt(M + 1), with the currents
    read after M is written. *)
Theorem calc_ith_columns (tk_s : f64) (bus bus' : array2) :
  rectangular bus ->
  _calc_ith tk_s bus = Ok bus' ->
  rectangular bus' /\ ncols bus' = ncols bus
  /\ length (rows bus') = length (rows bus)
  /\ (forall j, j <> M -> j <> ITH -> col bus' j = col bus j)
  /\ exists kappa m ith,
       col bus KAPPA = Ok kappa
       /\ (M <> ITH -> col bus' M = Ok m)
       /\ col bus' ITH = Ok ith
       /\ forall i, (i < length (rows bus))%nat ->
            nth i m (of_Z 0)
            = (if flt (of_Q (199 # 100)) (nth i kappa (of_Z 0)) then of_Z 0
               else
                 fdiv
                   (fsub
                      (fexp
                         (fmul (fmul (of_Z (4 * 50)) tk_s)
                            (flog (fsub (nth i kappa (of_Z 0)) (of_Z 1)))))
                      (of_Z 1))
                   (fmul (fmul (of_Z (2 * 50)) tk_s)
                      (flog (fsub (nth i kappa (of_Z 0)) (of_Z 1)))))
            /\ forall ikss1 ikss2,
                 M <> IKSS1 -> M <> IKSS2 ->
                 col bus IKSS1 = Ok ikss1 -> col bus IKSS2 = Ok ikss2 ->
                 nth i ith (of_Z 0)
                 = fmul (fadd (nth i ikss1 (of_Z 0)) (nth i ikss2 (of_Z 0)))
                        (fsqrt (fadd (nth i m (of_Z 0)) (of_Z 1))).
Proof.
  intros Hrect H.
  destruct (@calc_ith_steps _ _ _ Hrect H)
    as (kappa & m & bus1 & ikss1 & ikss2 & ith & Hk & Lk & Lm & Hm & Hb1
        & Hrect1 & Hrows1 & H1 & H2 & Lith & Hith & Hb').
  destruct (@set_col_rectangular _ _ _ _ _ Hrect1 Hb') as [Hrect' Hrows'].
  pose proof (@set_col_rows_eq _ _ _ _ _ Hb1) as (_ & Hn1 & _).
  pose proof (@set_col_rows_eq _ _ _ _ _ Hb') as (_ & Hn' & _).
  split; [exact Hrect'|]. split; [congruence|]. split; [congruence|].
  split.
  { intros j HjM HjI.
    rewrite (@col_set_col_other _ _ _ _ _ _ Hb' HjI).
    apply (@col_set_col_other _ _ _ _ _ _ Hb1 HjM). }
  exists kappa, m, ith. split; [exact Hk|]. split.
  { intros Hne. rewrite (@col_set_col_other _ _ _ _ _ _ Hb' Hne).
    apply (@col_set_col_same _ _ _ _ _ Hrect Lm Hb1). }
  split.
  { apply (@col_set_col_same _ _ _ _ _ Hrect1); [congruence|exact Hb']. }
  intros i Hi. split; [exact (Hm i Hi)|].
  intros k1 k2 Hn1' Hn2' Hk1 Hk2.
  rewrite (@col_set_col_other _ _ _ _ _ _ Hb1 (not_eq_sym Hn1')) in H1.
  rewrite (@col_set_col_other _ _ _ _ _ _ Hb1 (not_eq_sym Hn2')) in H2.
  assert (ikss1 = k1) by congruence. assert (ikss2 = k2) by congruence.
  subst. apply Hith. exact Hi.
Qed.

End PeakThermalFacts.


(** * The polar round trip in exact real arithmetic *)

Section RealFacts.

Local Open Scope R_scope.
#[local] Existing Instance R_Float64.

Lemma Rtrunc_IZR (z : Z) : Rtrunc (IZR z) = z.
Proof.
  unfold Rtrunc. destruct (Rle_dec 0 (IZR z)) as [H|H].
  - assert (E : up (IZR z) = (z + 1)%Z).
    { symmetry. apply tech_up; rewrite plus_IZR; lra. }
    lia.
  - assert (E : up (- IZR z) = (- z + 1)%Z).
    { symmetry. rewrite <- opp_IZR. apply tech_up; rewrite plus_IZR; lra. }
    lia.
Qed.

Lemma Rhypot_pos (x y : R) : x <> 0 \/ y <> 0 -> 0 < Rhypot x y.
Proof.
  intros H. unfold Rhypot. apply sqrt_lt_R0.
  destruct H as [H|H]; nra.
Qed.

Lemma Rhypot_sqr (x y : R) : Rhypot x y * Rhypot x y = x * x + y * y.
Proof. unfold Rhypot. apply sqrt_sqrt. nra. Qed.

Lemma sqrt_one_plus_ratio (x y : R) :
  x <> 0 -> sqrt (1 + (y / x)²) = Rhypot x y / Rabs x.
Proof.
  intros Hx.
  assert (Ha : 0 < Rabs x) by (apply Rabs_pos_lt; exact Hx).
  assert (Hr : 0 < Rhypot x y) by (apply Rhypot_pos; left; exact Hx).
  apply sqrt_lem_1.
  - unfold Rsqr. nra.
  - apply Rlt_le. apply Rdiv_lt_0_compat; assumption.
  - unfold Rsqr.
    replace (Rhypot x y / Rabs x * (Rhypot x y / Rabs x))
      with ((Rhypot x y * Rhypot x y) / (Rabs x * Rabs x))
      by (field; lra).
    rewrite Rhypot_sqr.
    replace (Rabs x * Rabs x) with (x * x)
      by (unfold Rabs; destruct (Rcase_abs x); ring).
    field. exact Hx.
Qed.

(** the cosine and the sine of the angle of a point other than the origin *)
Lemma cos_sin_Ratan2 (x y : R) :
  x <> 0 \/ y <> 0 ->
  cos (Ratan2 y x) = x / Rhypot x y /\ sin (Ratan2 y x) = y / Rhypot x y.
Proof.
  intros H0.
  assert (Hr : 0 < Rhypot x y) by (apply Rhypot_pos; exact H0).
  unfold Ratan2.
  destruct (Rlt_dec 0 x) as [Hx|Hx].
  - rewrite cos_atan, sin_atan, sqrt_one_plus_ratio by lra.
    rewrite Rabs_pos_eq by lra. split; field; lra.
  - destruct (Rlt_dec x 0) as [Hx'|Hx'].
    + assert (Hc : cos (atan (y / x)) = - x / Rhypot x y).
      { rewrite cos_atan, sqrt_one_plus_ratio by lra.
        rewrite Rabs_left by lra. field; lra. }
      assert (Hs : sin (atan (y / x)) = - y / Rhypot x y).
      { rewrite sin_atan, sqrt_one_plus_ratio by lra.
        rewrite Rabs_left by lra. field; lra. }
      destruct (Rle_dec 0 y) as [Hy|Hy].
      * rewrite neg_cos, neg_sin, Hc, Hs. split; field; lra.
      * pose proof (neg_cos (atan (y / x) - PI)) as Nc.
        pose proof (neg_sin (atan (y / x) - PI)) as Ns.
        replace (atan (y / x) - PI + PI) with (atan (y / x)) in Nc, Ns by ring.
        rewrite Hc in Nc. rewrite Hs in Ns.
        split; [apply Ropp_eq_compat in Nc|apply Ropp_eq_compat in Ns];
          rewrite Ropp_involutive in *.
        -- rewrite <- Nc. field; lra.
        -- rewrite <- Ns. field; lra.
    + assert (Ex : x = 0) by lra. subst x.
      assert (Hy0 : y <> 0) by (destruct H0; lra).
      assert (Hh : Rhypot 0 y = Rabs y).
      { unfold Rhypot. replace (0 * 0 + y * y) with (Rsqr y)
          by (unfold Rsqr; ring). apply sqrt_Rsqr_abs. }
      rewrite Hh.
      destruct (Rlt_dec 0 y) as [Hy|Hy].
      * rewrite cos_PI2, sin_PI2, Rabs_pos_eq by lra. split; field; lra.
      * destruct (Rlt_dec y 0) as [Hy'|Hy']; [|lra].
        replace (- PI / 2) with (- (PI / 2)) by field.
        rewrite cos_neg, sin_neg, cos_PI2, sin_PI2, Rabs_left by lra.
        split; field; lra.
Qed.

Lemma cos_IZR_PI (k : Z) : cos (IZR k * PI) = 1 -> exists j : Z, k = (2 * j)%Z.
Proof.
  intros H. destruct (Z.Even_or_Odd k) as [[j Hj]|[j Hj]].
  - exists j. exact Hj.
  - exfalso. subst k.
    assert (Hper : forall (n : nat) (x : R), cos (x - 2 * INR n * PI) = cos x).
    { intros n x. rewrite <- (cos_period (x - 2 * INR n * PI) n).
      f_equal. ring. }
    assert (E : cos (IZR (2 * j + 1) * PI) = -1).
    { rewrite plus_IZR, mult_IZR.
      destruct (Z_le_gt_dec 0 j) as [Hj|Hj].
      - replace ((2 * IZR j + 1) * PI) with (PI + 2 * INR (Z.to_nat j) * PI)
          by (rewrite INR_IZR_INZ, Z2Nat.id by lia; ring).
        rewrite cos_period. apply cos_PI.
      - replace ((2 * IZR j + 1) * PI) with (PI - 2 * INR (Z.to_nat (- j)) * PI)
          by (rewrite INR_IZR_INZ, Z2Nat.id, opp_IZR by lia; ring).
        rewrite Hper. apply cos_PI. }
    rewrite E in H. lra.
Qed.

(** equal cosines and sines: equal angles up to a multiple of 2 pi *)
Lemma cos_sin_eq_mod_2PI (t a : R) :
  cos t = cos a -> sin t = sin a -> exists k : Z, t = a + 2 * IZR k * PI.
Proof.
  intros Hc Hs.
  assert (S0 : sin (t - a) = 0).
  { rewrite sin_minus, Hc, Hs. ring. }
  assert (C1 : cos (t - a) = 1).
  { rewrite cos_minus, Hc, Hs.
    pose proof (sin2_cos2 a) as E. unfold Rsqr in E. lra. }
  destruct (sin_eq_0_0 _ S0) as [k Hk].
  rewrite Hk in C1. destruct (cos_IZR_PI _ C1) as [j Hj].
  exists j. subst k. rewrite mult_IZR in Hk. lra.
Qed.

Lemma polar_entry (m a : R) :
  cmul (c_of_real m) (cexp (cmul c_1j (c_of_real a)))
  = mkC (m * cos a) (m * sin a).
Proof.
  unfold cmul, cexp, c_of_real, c_1j. cbn.
  replace (0 * a - 1 * 0) with 0 by ring.
  replace (0 * 0 + 1 * a) with a by ring.
  rewrite exp_0. f_equal; ring.
Qed.

Lemma cabs_polar (m a : R) : cabs (mkC (m * cos a) (m * sin a)) = Rabs m.
Proof.
  unfold cabs. cbn. unfold Rhypot.
  replace (m * cos a * (m * cos a) + m * sin a * (m * sin a)) with (Rsqr m).
  - apply sqrt_Rsqr_abs.
  - pose proof (sin2_cos2 a) as E. unfold Rsqr in *.
    replace (m * cos a * (m * cos a) + m * sin a * (m * sin a))
      with (m * m * (sin a * sin a + cos a * cos a)) by ring.
    rewrite E. ring.
Qed.

Lemma Rhypot_polar (m a : R) : Rhypot (m * cos a) (m * sin a) = Rabs m.
Proof. exact (cabs_polar m a). Qed.

Lemma polar_not_origin (m a : R) :
  m <> 0 -> m * cos a <> 0 \/ m * sin a <> 0.
Proof.
  intros Hm. pose proof (sin2_cos2 a) as E. unfold Rsqr in E.
  destruct (Req_dec (cos a) 0) as [Hc|Hc].
  - right. rewrite Hc in E. apply Rmult_integral_contrapositive_currified;
      [exact Hm|]. intros Hs. rewrite Hs in E. lra.
  - left. apply Rmult_integral_contrapositive_currified; assumption.
Qed.

(** the angle read back from m exp(i a) *)
Lemma angle_polar (m a : R) :
  (0 < m -> equiv_mod_2PI (angle (mkC (m * cos a) (m * sin a))) a)
  /\ (m < 0 -> equiv_mod_2PI (angle (mkC (m * cos a) (m * sin a))) (a + PI))
  /\ (m = 0 -> angle (mkC (m * cos a) (m * sin a)) = 0).
Proof.
  unfold angle. cbn. split; [|split].
  - intros Hm.
    destruct (cos_sin_Ratan2 (polar_not_origin a (Rgt_not_eq _ _ Hm)))
      as [Hc Hs].
    rewrite Rhypot_polar, Rabs_pos_eq in Hc, Hs by lra.
    apply cos_sin_eq_mod_2PI.
    + rewrite Hc. field. lra.
    + rewrite Hs. field. lra.
  - intros Hm.
    destruct (cos_sin_Ratan2 (polar_not_origin a (Rlt_not_eq _ _ Hm)))
      as [Hc Hs].
    rewrite Rhypot_polar, Rabs_left in Hc, Hs by lra.
    apply cos_sin_eq_mod_2PI.
    + rewrite Hc, neg_cos. field. lra.
    + rewrite Hs, neg_sin. field. lra.
  - intros ->. rewrite !Rmult_0_l. unfold Ratan2.
    destruct (Rlt_dec 0 0) as [H|_]; [lra|]. reflexivity.
Qed.

Lemma polar_same_length (Vm Va : list R) :
  length Vm = length Va ->
  polar Vm Va
  = Ok (zip_with (fun m a => mkC (m * cos a) (m * sin a)) Vm Va).
Proof.
  intros H. unfold polar.
  rewrite bcast2_same_length by (rewrite length_map; exact H).
  f_equal. unfold zip_with. revert Va H.
  induction Vm as [|m Vm IH]; intros [|a Va] H; try discriminate H;
    [reflexivity|].
  cbn [map combine fst snd]. rewrite polar_entry. f_equal.
  apply IH. injection H. auto.
Qed.

Lemma recompose_same_length (Vm Va : list R) :
  length Vm = length Va ->
  recompose Vm Va
  = Ok (zip_with (fun m a => @mkC R_Float64 (m * cos a) (m * sin a)) Vm Va,
        map Rabs Vm,
        map angle
          (zip_with (fun m a => @mkC R_Float64 (m * cos a) (m * sin a)) Vm Va)).
Proof.
  intros Hlen.
  set (f := fun m a : R => @mkC R_Float64 (m * cos a) (m * sin a)).
  unfold recompose. rewrite polar_same_length by exact Hlen. cbn [bind].
  fold f.
  assert (E : map cabs (zip_with f Vm Va) = map Rabs Vm).
  { unfold zip_with. revert Va Hlen.
    induction Vm as [|m Vm IH]; intros [|a Va] Hlen; try discriminate Hlen;
      [reflexivity|].
    cbn [map combine fst snd].
    rewrite (cabs_polar m a : cabs (f m a) = Rabs m). f_equal.
    apply IH. injection Hlen. auto. }
  rewrite E. reflexivity.
Qed.

(** over the reals: from magnitudes Vm and angles Va, one per bus, the
    recomposition returns the absolute values of the magnitudes; the angle
    returned for a positive magnitude is, up to a multiple of 2 pi, the
    angle given; for a negative magnitude it is the angle given plus pi;
    for a zero magnitude it is 0 *)
Lemma recompose_polar (Vm Va : list R) :
  length Vm = length Va ->
  exists V Va',
    recompose Vm Va = Ok (V, map Rabs Vm, Va')
    /\ length Va' = length Va
    /\ forall k, (k < length Vm)%nat ->
         (0 < nth k Vm 0 -> equiv_mod_2PI (nth k Va' 0) (nth k Va 0))
         /\ (nth k Vm 0 < 0 ->
             equiv_mod_2PI (nth k Va' 0) (nth k Va 0 + PI))
         /\ (nth k Vm 0 = 0 -> nth k Va' 0 = 0).
Proof.
  intros Hlen.
  set (f := fun m a : R => @mkC R_Float64 (m * cos a) (m * sin a)).
  exists (zip_with f Vm Va), (map angle (zip_with f Vm Va)).
  split; [apply recompose_same_length; exact Hlen|]. split.
  - rewrite length_map, zip_with_length by exact Hlen. exact Hlen.
  - intros k Hk.
    rewrite (map_nth_in angle (zip_with f Vm Va) (f 0 0) 0)
      by (rewrite zip_with_length by exact Hlen; exact Hk).
    rewrite (zip_with_nth f Vm Va 0 0 (f 0 0)) by lia.
    unfold f. apply angle_polar.
Qed.


(** the entry [first_max_abs] picks is an entry of the column, and none has
    a larger magnitude *)
Lemma first_max_abs_is_max (rest : list complex) (z0 : complex) :
  In (first_max_abs z0 rest) (z0 :: rest)
  /\ forall z, In z (z0 :: rest) -> cabs z <= cabs (first_max_abs z0 rest).
Proof.
  revert z0. induction rest as [|z1 rest IH]; intros z0.
  - cbn. split; [left; reflexivity|]. intros z [<-|[]]. apply Rle_refl.
  - unfold first_max_abs. cbn [fold_left].
    change (magnitude z0) with (cabs z0). change (magnitude z1) with (cabs z1).
    set (b := if flt (cabs z0) (cabs z1) then z1 else z0).
    change (fold_left _ rest b) with (first_max_abs b rest).
    destruct (IH b) as [Hin Hle].
    assert (Hb : cabs z0 <= cabs b /\ cabs z1 <= cabs b /\ (b = z0 \/ b = z1)).
    { unfold b. cbn [flt R_Float64]. unfold Rltb.
      destruct (Rlt_dec (cabs z0) (cabs z1)) as [Hlt|Hnlt].
      - split; [apply Rlt_le; exact Hlt|].
        split; [apply Rle_refl|right; reflexivity].
      - split; [apply Rle_refl|].
        split; [apply Rnot_lt_le; exact Hnlt|left; reflexivity]. }
    destruct Hb as (H0 & H1 & Hb).
    pose proof (Hle b (or_introl eq_refl)) as Hbm.
    split.
    + destruct Hin as [Hin|Hin].
      * rewrite <- Hin. destruct Hb as [->| ->]; cbn; auto.
      * right. right. exact Hin.
    + intros z [<-|[<-|Hz]].
      * eapply Rle_trans; eassumption.
      * eapply Rle_trans; eassumption.
      * apply Hle. right. exact Hz.
Qed.

Lemma fold_left_Rmax_ge (l : list R) (a : R) : a <= fold_left Rmax l a.
Proof.
  revert a. induction l as [|x l IH]; intros a; cbn [fold_left]; [lra|].
  eapply Rle_trans; [apply (Rmax_l a x)|apply IH].
Qed.

Lemma fold_left_Rmax_lt (l : list R) (a t : R) :
  a < t -> Forall (fun x => x < t) l -> fold_left Rmax l a < t.
Proof.
  revert a. induction l as [|x l IH]; intros a Ha Hl; cbn [fold_left];
    [exact Ha|].
  inversion Hl; subst. apply IH; [|assumption].
  unfold Rmax. destruct (Rle_dec a x); assumption.
Qed.

(** no residual passes a tolerance of zero *)
Lemma check_for_convergence_tol_zero (Fx : list R) :
  Fx <> [] -> _check_for_convergence Fx 0 = Ok false.
Proof.
  intros H. unfold _check_for_convergence, norm_inf.
  destruct Fx as [|x Fx]; [contradiction|]. cbn [map bind].
  f_equal. cbn [flt R_Float64]. unfold Rltb.
  destruct (Rlt_dec _ 0) as [Hlt|]; [|reflexivity].
  pose proof (fold_left_Rmax_ge (map fabs Fx) (fabs x)) as Hge.
  pose proof (Rabs_pos x) as Hx. cbn [fabs fmax R_Float64] in *.
  change (@f64 R_Float64) with R in *. lra.
Qed.

(** a residual whose entries are all below the tolerance passes *)
Lemma check_for_convergence_small (Fx : list R) (tol : R) :
  Fx <> [] -> Forall (fun x => Rabs x < tol) Fx ->
  _check_for_convergence Fx tol = Ok true.
Proof.
  intros H Hall. unfold _check_for_convergence, norm_inf.
  destruct Fx as [|x Fx]; [contradiction|]. cbn [map bind].
  f_equal. cbn [flt R_Float64]. unfold Rltb.
  destruct (Rlt_dec _ tol) as [|Hn]; [reflexivity|]. exfalso. apply Hn.
  inversion Hall; subst. cbn [fabs fmax R_Float64].
  change (@f64 R_Float64) with R in *.
  apply fold_left_Rmax_lt; [assumption|].
  apply Forall_map. assumption.
Qed.

End RealFacts.

(** * More in exact real arithmetic *)

Section RealVerdict.

Local Open Scope R_scope.
#[local] Existing Instance R_Float64.

Lemma fold_left_Rmax_lt_inv (l : list R) (a t : R) :
  fold_left Rmax l a < t -> a < t /\ Forall (fun x => x < t) l.
Proof.
  revert a. induction l as [|x l IH]; intros a H; cbn [fold_left] in H.
  - split; [exact H|constructor].
  - apply IH in H. destruct H as [Hm Hl].
    pose proof (Rmax_l a x). pose proof (Rmax_r a x).
    split; [lra|]. constructor; [lra|exact Hl].
Qed.

(** X17: in exact arithmetic the convergence check of a residual with at
    least one entry answers, and answers True exactly when every entry is
    smaller than the tolerance in absolute value. *)
Theorem check_for_convergence_iff (Fx : list R) (tol : R) :
  Fx <> [] ->
  exists b, _check_for_convergence Fx tol = Ok b
            /\ (b = true <-> Forall (fun x => Rabs x < tol) Fx).
Proof.
  intros H. destruct Fx as [|x Fx]; [contradiction|].
  unfold _check_for_convergence, norm_inf. cbn [map bind].
  eexists. split; [reflexivity|].
  cbn [flt fabs fmax R_Float64]. change (@f64 R_Float64) with R in *.
  unfold Rltb. destruct (Rlt_dec _ tol) as [Hlt|Hn].
  - split; [intros _|reflexivity].
    apply fold_left_Rmax_lt_inv in Hlt. destruct Hlt as [Hx Hl].
    constructor; [exact Hx|].
    rewrite Forall_map in Hl. exact Hl.
  - split; [discriminate|]. intros Hall. exfalso. apply Hn.
    inversion Hall; subst.
    apply fold_left_Rmax_lt; [assumption|].
    apply Forall_map. assumption.
Qed.

Lemma clamp_origin : clamp (cneg (csub czero czero)) = czero.
Proof.
  unfold clamp, cneg, csub, czero, cabs.
  cbn [re im fsub fneg fhypot flt of_Z of_Q R_Float64].
  unfold Rltb, Rhypot.
  replace (- (0 - 0)) with 0 by lra.
  replace (0 * 0 + 0 * 0) with 0 by lra. rewrite sqrt_0.
  destruct (Rlt_dec 0 (Q2R (1 # 10000000000))) as [|Hn]; [reflexivity|].
  exfalso. apply Hn. unfold Q2R. cbn. lra.
Qed.

Lemma clamp_diagonal (m : complex) : clamp (cneg (csub m m)) = czero.
Proof.
  rewrite <- clamp_origin. f_equal. f_equal.
  unfold csub, czero. cbn [re im fsub of_Z R_Float64]. f_equal; lra.
Qed.

Lemma clamp_cases (z : complex) :
  clamp z = czero \/ (clamp z = z /\ Q2R (1 # 10000000000) <= cabs z).
Proof.
  unfold clamp. cbn [flt of_Q R_Float64]. unfold Rltb.
  destruct (Rlt_dec (cabs z) (Q2R (1 # 10000000000))) as [|Hn].
  - left. reflexivity.
  - right. split; [reflexivity|]. apply Rnot_lt_le. exact Hn.
Qed.

(** X18: in exact arithmetic the correction for a single fault bus takes as
    reference an entry of the column that no entry exceeds in magnitude,
    and leaves exactly 0 wherever the column holds the reference; every
    entry it leaves is 0 or has a magnitude of at least 1e-10. *)
Theorem sign_correction_reference (z0 : complex) (rest : list complex) :
  exists m W,
    max_key_abs (as_column (z0 :: rest)) = Ok [m]
    /\ In m (z0 :: rest)
    /\ (forall z, In z (z0 :: rest) -> cabs z <= cabs m)
    /\ sign_correction (as_column (z0 :: rest)) = Ok (as_column W)
    /\ length W = length (z0 :: rest)
    /\ (forall k, nth k (z0 :: rest) czero = m -> (k < length (z0 :: rest))%nat
                  -> nth k W m = czero)
    /\ Forall (fun w => w = czero \/ Q2R (1 # 10000000000) <= cabs w) W.
Proof.
  destruct (first_max_abs_is_max rest z0) as [Hin Hmax].
  exists (first_max_abs z0 rest).
  exists (map (fun z => clamp (cneg (csub z (first_max_abs z0 rest))))
            (z0 :: rest)).
  split.
  { cbn [as_column map max_key_abs].
    change (map (fun z => [z]) rest) with (as_column rest).
    apply max_key_abs_from_column. }
  split; [exact Hin|]. split; [exact Hmax|].
  split; [apply sign_correction_column|].
  split; [apply length_map|]. split.
  - intros k Hk Hlt.
    rewrite (map_nth_in _ (z0 :: rest) czero) by exact Hlt.
    rewrite Hk. apply clamp_diagonal.
  - apply Forall_map. apply Forall_forall. intros z _.
    destruct (clamp_cases (cneg (csub z (first_max_abs z0 rest))))
      as [E|[E Hge]].
    + left. exact E.
    + right. rewrite E. exact Hge.
Qed.

End RealVerdict.

Section ThermalCurrent.

Local Open Scope R_scope.
#[local] Existing Instance R_Float64.
#[local] Existing Instance R_Float64Log.

Context {IS : IndicesSC}.

Lemma m_factor_pos (tk_s kappa : R) :
  0 < tk_s -> 1 < kappa < 2 -> 0 < m_factor tk_s kappa.
Proof.
  intros Ht [Hk1 Hk2]. unfold m_factor.
  cbn [flog fsub fexp fmul fdiv of_Z R_Float64 R_Float64Log].
  assert (Hl : ln (kappa - 1) < 0).
  { pose proof (@ln_increasing (kappa - 1) 1) as Hx. rewrite ln_1 in Hx.
    apply Hx; lra. }
  assert (Ha : 200 * tk_s * ln (kappa - 1) < 0) by nra.
  assert (Hb : 100 * tk_s * ln (kappa - 1) < 0) by nra.
  assert (He : exp (200 * tk_s * ln (kappa - 1)) < 1).
  { pose proof (exp_increasing _ _ Ha) as Hx. rewrite exp_0 in Hx. exact Hx. }
  replace ((exp (200 * tk_s * ln (kappa - 1)) - 1)
           / (100 * tk_s * ln (kappa - 1)))
    with ((1 - exp (200 * tk_s * ln (kappa - 1)))
          / (- (100 * tk_s * ln (kappa - 1))))
    by (field; lra).
  apply Rdiv_lt_0_compat; lra.
Qed.

(** X19: in exact arithmetic, with a positive duration tk_s and M a column
    other than IKSS1 and IKSS2, the thermal equivalent current _calc_ith
    writes is the sum IKSS1 + IKSS2 at every bus whose kappa exceeds 1.99,
    and at least that sum at every bus whose kappa exceeds 1, provided the
    sum is not negative. *)
Theorem calc_ith_at_least_ikss (tk_s : R) (bus bus' : array2) :
  rectangular bus -> M <> IKSS1 -> M <> IKSS2 -> 0 < tk_s ->
  _calc_ith tk_s bus = Ok bus' ->
  exists kappa ikss1 ikss2 ith,
    col bus KAPPA = Ok kappa /\ col bus IKSS1 = Ok ikss1
    /\ col bus IKSS2 = Ok ikss2 /\ col bus' ITH = Ok ith
    /\ forall i, (i < length (rows bus))%nat ->
         (199 / 100 < nth i kappa 0 ->
          nth i ith 0 = nth i ikss1 0 + nth i ikss2 0)
         /\ (1 < nth i kappa 0 -> 0 <= nth i ikss1 0 + nth i ikss2 0 ->
             nth i ikss1 0 + nth i ikss2 0 <= nth i ith 0).
Proof.
  intros Hrect Hn1 Hn2 Ht H.
  destruct (@calc_ith_steps R_Float64 R_Float64Log IS tk_s bus bus' Hrect H)
    as (kappa & m & bus1 & ikss1 & ikss2 & ith & Hk & Lk & Lm & Hm & Hb1
        & Hrect1 & Hrows1 & H1 & H2 & Lith & Hith & Hb').
  rewrite (@col_set_col_other _ _ _ _ _ _ Hb1 (not_eq_sym Hn1)) in H1.
  rewrite (@col_set_col_other _ _ _ _ _ _ Hb1 (not_eq_sym Hn2)) in H2.
  exists kappa, ikss1, ikss2, ith.
  split; [exact Hk|]. split; [exact H1|]. split; [exact H2|]. split.
  { apply (@col_set_col_same _ _ _ _ _ Hrect1); [congruence|exact Hb']. }
  intros i Hi. specialize (Hith i Hi). specialize (Hm i Hi).
  cbn [flt fmul fadd fsqrt of_Z of_Q R_Float64] in Hith, Hm.
  change (IZR 0) with 0 in *. unfold Rltb in Hm.
  assert (Hq : Q2R (199 # 100) = 199 / 100) by (unfold Q2R; cbn; lra).
  rewrite Hq in Hm. split.
  - intros Hgt.
    destruct (Rlt_dec (199 / 100) (nth i kappa 0)) as [_|Hn]; [|contradiction].
    rewrite Hith, Hm. replace (0 + 1) with 1 by lra. rewrite sqrt_1. lra.
  - intros Hgt Hs.
    assert (Hm0 : 0 <= nth i m 0).
    { rewrite Hm.
      destruct (Rlt_dec (199 / 100) (nth i kappa 0)) as [_|Hn]; [lra|].
      apply Rlt_le. apply m_factor_pos; [exact Ht|lra]. }
    assert (Hr : 1 <= sqrt (nth i m 0 + 1)).
    { pose proof (@sqrt_le_1_alt 1 (nth i m 0 + 1)) as Hx.
      rewrite sqrt_1 in Hx. apply Hx. lra. }
    rewrite Hith. nra.
Qed.

End ThermalCurrent.

Section RealTemperature.

Local Open Scope R_scope.
#[local] Existing Instance R_Float64.

Context {IX : Indices} {X : Collaborators}.

(** X20: in exact arithmetic, for a delay that is not negative and positive
    time constants, the transient temperature of _calc_T lies, branch by
    branch, between the reference temperature and the steady-state
    temperature the same call gives without a delay, and it is the
    reference temperature when the delay is 0. *)
Theorem calc_T_between (nb : nat) (V : list complex)
    (I a0 a1 a2 tau T0 : list R) (d : R) :
  length I = nb -> length a0 = nb -> length a1 = nb -> length a2 = nb ->
  length tau = nb -> length T0 = nb ->
  0 <= d -> Forall (fun t => 0 < t) tau ->
  exists Tss Ttr,
    _calc_T V I a0 a1 a2 tau None T0 = Ok Tss
    /\ _calc_T V I a0 a1 a2 tau (Some d) T0 = Ok Ttr
    /\ length Tss = nb /\ length Ttr = nb
    /\ forall i, (i < nb)%nat ->
         Rmin (nth i T0 0) (nth i Tss 0) <= nth i Ttr 0
           <= Rmax (nth i T0 0) (nth i Tss 0)
         /\ (d = 0 -> nth i Ttr 0 = nth i T0 0).
Proof.
  intros HI H0 H1 H2 Ht HT0 Hd Htau.
  rewrite (@calc_T_rows R_Float64 nb V I a0 a1 a2 tau T0 None)
    by assumption.
  rewrite (@calc_T_rows R_Float64 nb V I a0 a1 a2 tau T0 (Some d))
    by assumption.
  do 2 eexists. split; [reflexivity|]. split; [reflexivity|].
  rewrite !length_map, !length_seq. split; [reflexivity|].
  split; [reflexivity|].
  intros i Hi.
  change (@f64 R_Float64) with R in *.
  rewrite (map_nth_in _ (seq 0 nb) 0%nat 0) by (rewrite length_seq; exact Hi).
  rewrite (map_nth_in _ (seq 0 nb) 0%nat 0) by (rewrite length_seq; exact Hi).
  rewrite seq_nth by exact Hi. cbn [Nat.add].
  unfold heat_balance_temperature.
  cbn [fadd fsub fmul fdiv fneg fexp fpow of_Z R_Float64].
  change (IZR 0) with 0.
  set (tss := nth i a0 0 + nth i a1 0 * powerRZ (nth i I 0) 2
              + nth i a2 0 * powerRZ (nth i I 0) 4).
  set (t0 := nth i T0 0). set (ti := nth i tau 0).
  assert (Hti : 0 < ti).
  { rewrite Forall_forall in Htau. apply Htau. apply nth_In. lia. }
  assert (He : 0 < exp (- d / ti) <= 1).
  { split; [apply exp_pos|].
    destruct (Req_dec d 0) as [->|Hne].
    - replace (- 0 / ti) with 0 by (field; lra). rewrite exp_0. lra.
    - assert (Hneg : - d / ti < 0).
      { apply Ropp_lt_cancel. rewrite Ropp_0.
        replace (- (- d / ti)) with (d / ti) by (field; lra).
        apply Rdiv_lt_0_compat; lra. }
      pose proof (exp_increasing _ _ Hneg) as Hx. rewrite exp_0 in Hx. lra. }
  split.
  - unfold Rmin, Rmax.
    destruct (Rle_dec t0 tss) as [Hle|Hnle]; split; nra.
  - intros ->. replace (- 0 / ti) with 0 by (field; lra).
    rewrite exp_0. lra.
Qed.

(** X21: in exact arithmetic and without thermal coupling, the temperatures
    newtonpf returns are 20 for every branch. *)
Theorem newtonpf_reference_temperature (Ybus : spmat)
    (Sbus V0 : list complex) (ref pv pq : list Z) (p : ppci) (o : options)
    (mk : option makeYbus_t) (out : output) :
  tdpf_on o = false ->
  newtonpf Ybus Sbus V0 ref pv pq p o mk = Ok out ->
  out_T out = Some (repeat 20 (length (rows (branch p)))).
Proof.
  intros Htd H. apply newtonpf_ok in H.
  destruct H as (e & st0 & st' & Hinit & Hloop & ->).
  apply newtonpf_init_facts in Hinit.
  destruct Hinit as (_ & _ & _ & _ & _ & _ & Htd' & _ & _ & _ & HT0 & _ & _
                     & _ & HT & _).
  rewrite Htd in Htd'. specialize (HT Htd').
  assert (HT' : st_T st' = st_T st0).
  { apply (@newton_loop_invariant_guarded R_Float64 IX X
             (fun s => st_T s = st_T st0) e) with (st := st0);
      [|reflexivity|exact Hloop].
    intros s s' Hs _ _ Hit.
    apply newton_iteration_T_off in Hit; [|exact Htd']. congruence. }
  cbn [out_T newtonpf_return]. f_equal.
  rewrite HT', HT, HT0. unfold ones. rewrite !map_map.
  generalize (length (rows (branch p))) as n.
  induction n as [|n IH]; [reflexivity|].
  cbn [repeat map]. rewrite IH. f_equal.
  unfold T_base, T_ref. cbn [fmul fdiv of_Z R_Float64].
  change (@eq R (1 * 20 / 100 * 100) 20). field.
Qed.

End RealTemperature.

Section RealTolerance.

Local Open Scope R_scope.
#[local] Existing Instance R_Float64.

Context {IX : Indices} {X : Collaborators}.

(** no residual passes a tolerance that is not positive *)
Lemma check_for_convergence_tol_nonpos (Fx : list R) (tol : R) (b : bool) :
  tol <= 0 -> _check_for_convergence Fx tol = Ok b -> b = false.
Proof.
  intros Htol H. unfold _check_for_convergence, norm_inf in H.
  destruct Fx as [|x Fx]; [discriminate H|]. cbn [map bind] in H.
  injection H as <-. cbn [flt R_Float64]. unfold Rltb.
  destruct (Rlt_dec _ tol) as [Hlt|]; [|reflexivity].
  pose proof (fold_left_Rmax_ge (map fabs Fx) (fabs x)) as Hge.
  pose proof (Rabs_pos x) as Hx. cbn [fabs fmax R_Float64] in *.
  change (@f64 R_Float64) with R in *. lra.
Qed.

(** X23: in exact arithmetic a tolerance that is not positive is never met:
    the solver makes every pass the cap allows and reports no
    convergence. *)
Theorem newtonpf_tolerance_not_positive (Ybus : spmat)
    (Sbus V0 : list complex) (ref pv pq : list Z) (p : ppci) (o : options)
    (mk : option makeYbus_t) (out : output) :
  tolerance_mva o <= 0 ->
  newtonpf Ybus Sbus V0 ref pv pq p o mk = Ok out ->
  out_converged out = false
  /\ out_i out = Z.max 0 (max_iteration o).
Proof.
  intros Htol H. apply newtonpf_ok in H.
  destruct H as (e & st0 & st' & Hinit & Hloop & ->).
  apply newtonpf_init_facts in Hinit.
  destruct Hinit as (_ & _ & _ & _ & _ & _ & _ & _ & Het & Hmax & _ & Hi & _
                     & _ & _ & Hchk).
  set (P := fun s : state =>
    st_converged s = false
    /\ (0 <= st_i s <= Z.max 0 (e_max_it e))%Z).
  assert (HP : P st').
  { apply (@newton_loop_invariant_guarded R_Float64 IX X P e)
      with (st := st0); [| |exact Hloop].
    - intros s s' [_ Hs] _ Hlt Hit.
      pose proof Hit as Hc. apply newton_iteration_counter in Hc.
      apply newton_iteration_check in Hit. unfold P. split; [|lia].
      eapply check_for_convergence_tol_nonpos; [|exact Hit].
      rewrite Het. exact Htol.
    - unfold P. split; [|lia].
      eapply check_for_convergence_tol_nonpos; [|exact Hchk].
      rewrite Het. exact Htol. }
  destruct HP as [Hconv Hb]. cbn [out_converged out_i newtonpf_return].
  split; [exact Hconv|].
  apply newton_loop_stops in Hloop. rewrite Hconv in Hloop.
  destruct Hloop as [Hc|Hc]; [discriminate Hc|]. rewrite <- Hmax. lia.
Qed.

(** the iterates on the way to an iterate exist *)
Lemma iterates_prefix (e : env) (n : nat) (st s : state) :
  iterates n e st = Ok s ->
  forall k, (k <= n)%nat -> exists s', iterates k e st = Ok s'.
Proof.
  revert st. induction n as [|n IH]; intros st H k Hk.
  - replace k with 0%nat by lia. exists st. reflexivity.
  - destruct k as [|k]; [exists st; reflexivity|].
    cbn [iterates] in *. apply bind_ok in H. destruct H as [s1 [H1 H]].
    rewrite H1. cbn [bind]. apply (IH s1 H). lia.
Qed.

(** with a tolerance that is not positive the solve is its iterates up to
    the cap *)
Lemma newtonpf_unmet_tolerance_run (Ybus : spmat) (Sbus V0 : list complex)
    (ref pv pq : list Z) (p : ppci) (o : options) (mk : option makeYbus_t)
    (e : env) (st0 s : state) :
  tolerance_mva o <= 0 -> (0 <= max_iteration o)%Z ->
  newtonpf_init Ybus Sbus V0 ref pv pq p o mk = Ok (e, st0) ->
  iterates (Z.to_nat (max_iteration o)) e st0 = Ok s ->
  newton_loop e st0 = Ok s
  /\ newtonpf Ybus Sbus V0 ref pv pq p o mk = Ok (newtonpf_return s).
Proof.
  intros Htol Hcap Hinit Hs.
  pose proof Hinit as Hf. apply newtonpf_init_facts in Hf.
  destruct Hf as (_ & _ & _ & _ & _ & _ & _ & _ & Het & Hmax & _ & Hi & _
                  & _ & _ & Hchk).
  destruct (@newton_loop_runs_to_cap R_Float64 IX X e
              (Z.to_nat (max_iteration o)) st0) as [s' [Hs' Hl]].
  - rewrite Hmax, Hi. lia.
  - intros k Hk.
    pose proof Hs as Hp. eapply iterates_prefix in Hp; [|exact Hk].
    destruct Hp as [sk Hsk].
    exists sk. split; [exact Hsk|].
    assert (Hc : _check_for_convergence (st_F sk) (e_tol e)
                 = Ok (st_converged sk)).
    { eapply (iterates_invariant
                (fun x => _check_for_convergence (st_F x) (e_tol e)
                          = Ok (st_converged x))); [|exact Hchk|exact Hsk].
      intros s1 s2 H12. eapply newton_iteration_check. exact H12. }
    eapply check_for_convergence_tol_nonpos; [|exact Hc].
    rewrite Het. exact Htol.
  - rewrite Hs in Hs'. injection Hs' as <-. split; [exact Hl|].
    unfold newtonpf. rewrite Hinit. cbn [bind]. rewrite Hl. reflexivity.
Qed.

End RealTolerance.


(** * The two-bus network, run *)

Section Runs.

Import Example.
Local Open Scope R_scope.
#[local] Existing Instance R_Float64.
#[local] Existing Instance ex_indices.
#[local] Existing Instance ex_collab.

Ltac run_init :=
  unfold newtonpf_init; cbn; rewrite ?Rtrunc_IZR; cbn; reflexivity.
Ltac run_iteration := unfold newton_iteration; cbn; reflexivity.

(** the stand-ins keep the shapes of the specification *)
Lemma ex_collab_respects_shapes : respects_shapes.
Proof.
  unfold respects_shapes. cbn.
  repeat split; intros;
    repeat match goal with
           | H : Ok _ = Ok _ |- _ => inversion H; subst; clear H
           | H : (if ?b then _ else _) = Ok _ |- _ =>
               destruct b eqn:?; [|discriminate H]
           end;
    cbn; rewrite ?length_map; try reflexivity.
  symmetry. apply Nat.eqb_eq. assumption.
Qed.

Lemma evaluate_Fx_residual_witness :
  exists YV,
    sp_matvec ex_Ybus ex_V0 = Ok YV
    /\ _evaluate_Fx ex_Ybus ex_V0 ex_Sbus ex_ref ex_pv ex_pq [1; 0] true [0]
       = Ok (residual_of (bus_mismatch YV ex_V0 ex_Sbus [1; 0] true 0) true
               ex_ref ex_pv ex_pq).
Proof.
  eexists. split; [reflexivity|].
  apply (@evaluate_Fx_residual R_Float64 ex_collab ex_Ybus ex_V0 ex_Sbus _
           ex_ref ex_pv ex_pq [1; 0] true 0).
  - reflexivity.
  - reflexivity.
  - reflexivity.
  - intros _. split; [reflexivity|]. repeat constructor; cbn; lia.
  - constructor.
  - repeat constructor; cbn; lia.
Defined.

(** the initial guess solves the network: the residual is zero *)
Lemma ex_start_converged :
  exists e st0,
    newtonpf_init ex_Ybus ex_Sbus ex_V0 ex_ref ex_pv ex_pq ex_ppci
      (ex_options 1 10 "nr" false None) (Some ex_makeYbus) = Ok (e, st0)
    /\ _check_for_convergence (st_F st0) 1 = Ok true.
Proof.
  do 2 eexists. split; [run_init|].
  cbn [st_F]. apply check_for_convergence_small; [discriminate|].
  repeat constructor; cbn; unfold Rabs; destruct (Rcase_abs _); lra.
Qed.

Lemma newtonpf_converged_at_start_witness :
  exists out,
    newtonpf ex_Ybus ex_Sbus ex_V0 ex_ref ex_pv ex_pq ex_ppci
      (ex_options 1 10 "nr" false None) (Some ex_makeYbus) = Ok out
    /\ out_i out = 0%Z
    /\ out_converged out = true
    /\ out_V out = ex_V0.
Proof.
  destruct ex_start_converged as (e & st0 & Hinit & Hc).
  exact (@newtonpf_converged_at_start R_Float64 ex_indices ex_collab
           _ _ _ _ _ _ _ _ _ e st0 Hinit Hc).
Defined.

(** with a tolerance of zero no iterate converges; two passes are allowed *)
Lemma ex_never_converged :
  exists e st0,
    newtonpf_init ex_Ybus ex_Sbus ex_V0 ex_ref ex_pv ex_pq ex_ppci
      (ex_options 0 2 "nr" false None) (Some ex_makeYbus) = Ok (e, st0)
    /\ forall k, (k <= 2)%nat ->
         exists s, iterates k e st0 = Ok s
                   /\ _check_for_convergence (st_F s) 0 = Ok false.
Proof.
  do 2 eexists. split; [run_init|].
  intros k Hk. destruct k as [|[|[|k]]]; [| | |lia].
  - eexists. split; [reflexivity|].
    apply check_for_convergence_tol_zero. discriminate.
  - eexists. split; [cbn [iterates]; unfold newton_iteration; cbn; reflexivity|].
    apply check_for_convergence_tol_zero. discriminate.
  - eexists. split; [cbn [iterates]; unfold newton_iteration; cbn; reflexivity|].
    apply check_for_convergence_tol_zero. discriminate.
Qed.

Lemma newtonpf_iteration_cap_witness :
  exists e st0 s out,
    newtonpf_init ex_Ybus ex_Sbus ex_V0 ex_ref ex_pv ex_pq ex_ppci
      (ex_options 0 2 "nr" false None) (Some ex_makeYbus) = Ok (e, st0)
    /\ iterates 2 e st0 = Ok s
    /\ newtonpf ex_Ybus ex_Sbus ex_V0 ex_ref ex_pv ex_pq ex_ppci
         (ex_options 0 2 "nr" false None) (Some ex_makeYbus) = Ok out
    /\ out_converged out = false
    /\ out_i out = 2%Z
    /\ out_V out = st_V s
    /\ out_T out = Some (map (fun t => fmul t T_base) (st_T s)).
Proof.
  destruct ex_never_converged as (e & st0 & Hinit & Hk).
  destruct (@newtonpf_iteration_cap R_Float64 ex_indices ex_collab
              _ _ _ _ _ _ _ _ _ e st0 Hinit
              (Z.le_0_2 : (0 <= max_iteration (ex_options 0 2 "nr" false None))%Z)
              Hk) as (s & out & H).
  exists e, st0, s, out. split; [exact Hinit|exact H].
Defined.

(** two reference buses and distributed slack: bus 1 is reclassified *)
Lemma ex_two_reference_buses :
  exists e st0,
    newtonpf_init ex_Ybus ex_Sbus ex_V0 [0%Z; 1%Z] [] [] ex_ppci
      (ex_options 1 10 "nr" true None) (Some ex_makeYbus) = Ok (e, st0).
Proof. do 2 eexists. run_init. Qed.

Lemma newtonpf_bus_partition_witness :
  exists e st0,
    newtonpf_init ex_Ybus ex_Sbus ex_V0 [0%Z; 1%Z] [] [] ex_ppci
      (ex_options 1 10 "nr" true None) (Some ex_makeYbus) = Ok (e, st0)
    /\ e_pq e = []
    /\ exists r0 rest,
         [0%Z; 1%Z] = r0 :: rest /\ e_ref e = [r0] /\ e_pv e = rest ++ [].
Proof.
  destruct ex_two_reference_buses as (e & st0 & Hinit).
  destruct (@newtonpf_bus_partition R_Float64 ex_indices ex_collab
              _ _ _ _ _ _ _ _ _ e st0 Hinit) as (Hpq & Hmove & _).
  exists e, st0. split; [exact Hinit|]. split; [exact Hpq|].
  apply Hmove; [reflexivity|cbn; lia].
Defined.

(** acceleration and thermal coupling together *)
Lemma ex_accelerated_thermal :
  exists e st0 r,
    newtonpf_init ex_Ybus ex_Sbus ex_V0 ex_ref ex_pv ex_pq ex_ppci
      (ex_options 0 2 "iwamoto_nr" false (Some true)) (Some ex_makeYbus)
    = Ok (e, st0)
    /\ e_iwamoto e = true /\ e_tdpf e = true
    /\ update_voltage e ex_Ybus (identity 3) (st_F st0) [1; 1; 1] st0 = Ok r.
Proof.
  do 3 eexists. split; [run_init|]. split; [reflexivity|].
  split; [reflexivity|]. unfold update_voltage. cbn. reflexivity.
Qed.

Lemma update_voltage_skipped_witness :
  exists e st0 Vm Va dV slack T,
    update_voltage e ex_Ybus (identity 3) (st_F st0) [1; 1; 1] st0
    = Ok (Vm, Va, dV, slack, T)
    /\ Vm = st_Vm st0 /\ Va = st_Va st0.
Proof.
  destruct ex_accelerated_thermal
    as (e & st0 & [[[[Vm Va] dV] slack] T] & _ & Hiw & Htd & Hup).
  exists e, st0, Vm, Va, dV, slack, T. split; [exact Hup|].
  exact (@update_voltage_skipped R_Float64 ex_collab e ex_Ybus
           (identity 3) (st_F st0) [1; 1; 1] st0 Vm Va slack T dV
           Hiw Htd Hup).
Defined.

(** thermal coupling: the first iterate *)
Lemma ex_thermal_iterate :
  exists e st0 s,
    newtonpf_init ex_Ybus ex_Sbus ex_V0 ex_ref ex_pv ex_pq ex_ppci
      (ex_options 0 2 "nr" false (Some true)) (Some ex_makeYbus) = Ok (e, st0)
    /\ e_tdpf e = true
    /\ iterates 1 e st0 = Ok s.
Proof.
  do 3 eexists. split; [run_init|]. split; [reflexivity|].
  cbn [iterates]. unfold newton_iteration. cbn. reflexivity.
Qed.

(** the converged start again, through to the returned tuple *)
Lemma ex_newtonpf_returns :
  exists e st0,
    newtonpf_init ex_Ybus ex_Sbus ex_V0 ex_ref ex_pv ex_pq ex_ppci
      (ex_options 1 10 "nr" false None) (Some ex_makeYbus) = Ok (e, st0)
    /\ newtonpf ex_Ybus ex_Sbus ex_V0 ex_ref ex_pv ex_pq ex_ppci
         (ex_options 1 10 "nr" false None) (Some ex_makeYbus)
       = Ok (newtonpf_return st0).
Proof.
  destruct ex_start_converged as (e & st0 & Hinit & Hc).
  exists e, st0. split; [exact Hinit|].
  pose proof (newtonpf_init_facts _ _ _ _ _ _ _ _ _ Hinit) as Hf.
  destruct Hf as (_ & _ & _ & _ & _ & _ & _ & _ & Htol & _ & _ & _ & _ & _ & _ & Hchk).
  rewrite Htol in Hchk. cbn [tolerance_mva ex_options] in Hchk.
  rewrite Hc in Hchk. inversion Hchk as [Hconv].
  unfold newtonpf. rewrite Hinit. cbn [bind].
  rewrite newton_loop_converged by (symmetry; exact Hconv). reflexivity.
Qed.

(** C9 as stated fails: without thermal coupling the solver still returns a
    temperature vector, the reference temperature of the one branch. *)
Lemma newtonpf_temperature_without_thermal :
  exists out,
    newtonpf ex_Ybus ex_Sbus ex_V0 ex_ref ex_pv ex_pq ex_ppci
      (ex_options 1 10 "nr" false None) (Some ex_makeYbus) = Ok out
    /\ out_T out = Some [1 * 20 / 100 * 100]
    /\ out_T out <> None.
Proof.
  destruct ex_newtonpf_returns as (e & st0 & Hinit & Hrun).
  exists (newtonpf_return st0). split; [exact Hrun|].
  pose proof (newtonpf_init_facts _ _ _ _ _ _ _ _ _ Hinit) as Hf.
  destruct Hf as (_ & _ & _ & _ & _ & _ & Htd & _ & _ & _ & HT0 & _ & _ & _ & HT & _).
  cbn [out_T newtonpf_return]. rewrite (HT Htd), HT0.
  split; [reflexivity|discriminate].
Qed.

(** C2 fails with distributed slack and thermal coupling together: the
    network has one branch, the residual starts with the 4 entries the
    specification counts, and after one pass it has 5, for a temperature
    vector of 2 entries; the Jacobian of that pass is 4 by 4. *)
Lemma residual_length_slack_thermal :
  exists e st0 st1 J,
    newtonpf_init ex_Ybus ex_Sbus ex_V0 ex_ref ex_pv ex_pq ex_ppci
      (ex_options 0 2 "nr" true (Some true)) (Some ex_makeYbus) = Ok (e, st0)
    /\ newton_iteration e st0 = Ok st1
    /\ length (rows (branch ex_ppci)) = 1%nat
    /\ residual_length e 1 = 4%nat
    /\ length (st_F st0) = 4%nat
    /\ length (st_F st1) = 5%nat
    /\ length (st_T st1) = 2%nat
    /\ st_J st1 = Some J /\ jac_shape J = (4%nat, 4%nat).
Proof.
  do 4 eexists. split; [run_init|]. split; [run_iteration|].
  cbn. repeat split; reflexivity.
Qed.

(** C8 fails with distributed slack and thermal coupling together: the
    network has one branch; after one pass the temperature state has 2
    entries and the rows appended to the 3 entries of the power part are 2,
    not one per branch. *)
Lemma thermal_rows_slack_thermal :
  exists e st0 st1,
    newtonpf_init ex_Ybus ex_Sbus ex_V0 ex_ref ex_pv ex_pq ex_ppci
      (ex_options 0 2 "nr" true (Some true)) (Some ex_makeYbus) = Ok (e, st0)
    /\ newton_iteration e st0 = Ok st1
    /\ length (rows (branch ex_ppci)) = 1%nat
    /\ power_length e = 3%nat
    /\ length (st_T st1) = 2%nat
    /\ exists th Fx F_t,
         st_th st1 = Some th
         /\ thermal_residual e (st_V st1) (st_T st1) th = Ok F_t
         /\ st_F st1 = Fx ++ F_t
         /\ length Fx = 3%nat /\ length F_t = 2%nat.
Proof.
  do 3 eexists. split; [run_init|]. split; [run_iteration|].
  cbn [length rows branch ex_ppci].
  split; [reflexivity|]. split; [reflexivity|]. split; [reflexivity|].
  eexists.
  match goal with
  | |- context [st_F ?s] =>
      exists (firstn 3 (st_F s)), (skipn 3 (st_F s))
  end.
  split; [reflexivity|].
  split; [unfold thermal_residual, _evaluate_dT, _calc_T; cbn; reflexivity|].
  split; [cbn; reflexivity|]. split; reflexivity.
Qed.

(** thermal coupling, a tolerance of zero and a cap of one: one pass *)
Lemma ex_thermal_run :
  exists e st0 s,
    newtonpf_init ex_Ybus ex_Sbus ex_V0 ex_ref ex_pv ex_pq ex_ppci
      (ex_options 0 1 "nr" false (Some true)) (Some ex_makeYbus) = Ok (e, st0)
    /\ newton_loop e st0 = Ok s
    /\ newtonpf ex_Ybus ex_Sbus ex_V0 ex_ref ex_pv ex_pq ex_ppci
         (ex_options 0 1 "nr" false (Some true)) (Some ex_makeYbus)
       = Ok (newtonpf_return s)
    /\ st_i s = 1%Z.
Proof.
  assert (H : exists e st0 s,
             newtonpf_init ex_Ybus ex_Sbus ex_V0 ex_ref ex_pv ex_pq ex_ppci
               (ex_options 0 1 "nr" false (Some true)) (Some ex_makeYbus)
             = Ok (e, st0)
             /\ iterates 1 e st0 = Ok s /\ st_i s = 1%Z).
  { do 3 eexists. split; [run_init|].
    split; [cbn [iterates]; unfold newton_iteration; cbn; reflexivity|].
    reflexivity. }
  destruct H as (e & st0 & s & Hinit & Hs & Hi).
  exists e, st0, s. split; [exact Hinit|].
  destruct (@newtonpf_unmet_tolerance_run ex_indices ex_collab
              ex_Ybus ex_Sbus ex_V0 ex_ref ex_pv ex_pq ex_ppci
              (ex_options 0 1 "nr" false (Some true)) (Some ex_makeYbus)
              e st0 s) as [Hl Hr];
    [apply Rle_refl|cbn; lia|exact Hinit|exact Hs|].
  split; [exact Hl|]. split; [exact Hr|exact Hi].
Qed.

Lemma newtonpf_returns_temperature_witness :
  exists out e st0 st',
    newtonpf ex_Ybus ex_Sbus ex_V0 ex_ref ex_pv ex_pq ex_ppci
      (ex_options 0 1 "nr" false (Some true)) (Some ex_makeYbus) = Ok out
    /\ out_i out = 1%Z
    /\ newtonpf_init ex_Ybus ex_Sbus ex_V0 ex_ref ex_pv ex_pq ex_ppci
         (ex_options 0 1 "nr" false (Some true)) (Some ex_makeYbus)
       = Ok (e, st0)
    /\ newton_loop e st0 = Ok st'
    /\ out_T out = Some (map (fun t => fmul t (of_Z 100)) (st_T st'))
    /\ length (st_T st') = length (rows (branch ex_ppci))
    /\ exists th, st_th st' = Some th.
Proof.
  destruct ex_thermal_run as (e0 & s0 & s & _ & _ & Hrun & Hi).
  exists (newtonpf_return s).
  destruct (@newtonpf_returns_temperature R_Float64 ex_indices ex_collab
              _ _ _ _ _ _ _ _ _ (newtonpf_return s) Hrun)
    as (e & st0 & st' & Hinit & Hloop & HT & _ & Hon).
  exists e, st0, st'. split; [exact Hrun|]. split; [exact Hi|].
  split; [exact Hinit|]. split; [exact Hloop|]. split; [exact HT|].
  exact (Hon eq_refl eq_refl ex_collab_respects_shapes).
Defined.



(** one fault bus, bus 1, then two, and the inverse of a diagonal
    admittance matrix *)
Lemma unit_source :
  cmul (cmul (c_of_real 1) (cexp (cmul c_1j (c_of_real (fdeg2rad 0)))))
       (c_of_real 1) = C 1 0.
Proof.
  rewrite polar_entry. unfold cmul, c_of_real, C.
  cbn [re im fmul fsub fadd of_Z fdeg2rad R_Float64].
  replace (0 * PI / 180) with 0 by lra. rewrite cos_0, sin_0.
  f_equal; lra.
Qed.

Lemma ex_selected_one :
  V_ikss_selected [1; 1] [0; 0] [1; 1] [[C 1 0; C 0 0]; [C 0 0; C 2 0]] [1%Z]
  = Ok (as_column [C 0 0; C 2 0]).
Proof.
  unfold V_ikss_selected.
  cbn [bcast2 map length Nat.eqb zip_with combine fst snd bind].
  rewrite unit_source.
  unfold C, cmul. cbn. rewrite ?Pos2Nat.inj_1. cbn.
  repeat f_equal; lra.
Qed.

Lemma ex_selected_two :
  V_ikss_selected [1; 1] [0; 0] [1; 1] [[C 1 0; C 0 0]; [C 0 0; C 2 0]]
    [0%Z; 1%Z]
  = Ok [[C 1 0; C 0 0]; [C 0 0; C 2 0]].
Proof.
  unfold V_ikss_selected.
  cbn [bcast2 map length Nat.eqb zip_with combine fst snd bind].
  rewrite unit_source.
  unfold C, cmul. cbn. rewrite ?Pos2Nat.inj_1. cbn.
  repeat f_equal; lra.
Qed.

Lemma Rhypot_real (x : R) : 0 <= x -> Rhypot x 0 = x.
Proof.
  intros H. unfold Rhypot. replace (x * x + 0 * 0) with (x * x) by lra.
  apply sqrt_square. exact H.
Qed.

Lemma ex_corrected_column :
  map (corrected_entry (first_max_abs (C 0 0) [C 2 0])) [C 0 0; C 2 0]
  = [C 2 0; C 0 0].
Proof.
  assert (Heps : 0 < Q2R (1 # 10000000000) < 1).
  { unfold Q2R. cbn. lra. }
  assert (Hm : first_max_abs (C 0 0) [C 2 0] = C 2 0).
  { unfold first_max_abs, magnitude, C.
    cbn [fold_left re im fhypot flt R_Float64].
    rewrite !Rhypot_real by lra. unfold Rltb.
    destruct (Rlt_dec 0 2) as [_|Hn]; [reflexivity|lra]. }
  rewrite Hm. unfold corrected_entry, magnitude, C.
  cbn [map re im fneg fsub fhypot flt of_Z of_Q R_Float64].
  replace (- (0 - 2)) with 2 by lra. replace (- (0 - 0)) with 0 by lra.
  replace (- (2 - 2)) with 0 by lra.
  rewrite !Rhypot_real by lra. unfold Rltb.
  destruct (Rlt_dec 2 (Q2R (1 # 10000000000))) as [Hl|_]; [lra|].
  destruct (Rlt_dec 0 (Q2R (1 # 10000000000))) as [_|Hn]; [reflexivity|lra].
Qed.

Lemma as_column_inj (a b : list complex) :
  as_column a = as_column b -> a = b.
Proof.
  revert b. induction a as [|x a IH]; intros [|y b] H; try discriminate H;
    [reflexivity|].
  cbn in H. injection H as -> H. f_equal. apply IH. exact H.
Qed.

Lemma sign_correction_single_fault_bus_witness :
  V_ikss_inverse_y [1; 1] [0; 0] [1; 1] [[C 1 0; C 0 0]; [C 0 0; C 2 0]]
    [1%Z] = Ok (as_column [C 2 0; C 0 0])
  /\ V_ikss_inverse_y [1; 1] [0; 0] [1; 1] [[C 1 0; C 0 0]; [C 0 0; C 2 0]]
       [0%Z; 1%Z] = Ok [[C 1 0; C 0 0]; [C 0 0; C 2 0]].
Proof.
  split.
  - destruct (@sign_correction_single_fault_bus R_Float64 [1; 1] [0; 0]
                [1; 1] [[C 1 0; C 0 0]; [C 0 0; C 2 0]] [1%Z]) as [_ H].
    destruct (H _ ex_selected_one) as [_ H1].
    destruct (H1 eq_refl) as (zs & Hzs & _ & Hcorr).
    apply as_column_inj in Hzs. subst zs.
    rewrite (Hcorr (C 0 0) [C 2 0] eq_refl).
    rewrite ex_corrected_column. reflexivity.
  - destruct (@sign_correction_single_fault_bus R_Float64 [1; 1] [0; 0]
                [1; 1] [[C 1 0; C 0 0]; [C 0 0; C 2 0]] [0%Z; 1%Z])
      as [_ H].
    destruct (H _ ex_selected_two) as [H2 _].
    apply H2. cbn. discriminate.
Defined.

End Runs.

(** * The two-bus network, run again *)

Section RunsMore.

Import Example.
Local Open Scope R_scope.
#[local] Existing Instance R_Float64.
#[local] Existing Instance ex_indices.
#[local] Existing Instance ex_collab.

Ltac run_init :=
  unfold newtonpf_init; cbn; rewrite ?Rtrunc_IZR; cbn; reflexivity.
Ltac run_iteration := unfold newton_iteration; cbn; reflexivity.

Lemma newtonpf_iteration_count_witness :
  exists out,
    newtonpf ex_Ybus ex_Sbus ex_V0 ex_ref ex_pv ex_pq ex_ppci
      (ex_options 1 10 "nr" false None) (Some ex_makeYbus) = Ok out
    /\ (0 <= out_i out <= Z.max 0 10)%Z
    /\ (out_converged out = true \/ out_i out = Z.max 0 10).
Proof.
  destruct ex_newtonpf_returns as (e & st0 & _ & Hrun).
  exists (newtonpf_return st0). split; [exact Hrun|].
  exact (@newtonpf_iteration_count R_Float64 ex_indices ex_collab
           _ _ _ _ _ _ _ _ _ _ Hrun).
Defined.

(** a cap of zero *)
Lemma ex_no_pass :
  exists e st0,
    newtonpf_init ex_Ybus ex_Sbus ex_V0 ex_ref ex_pv ex_pq ex_ppci
      (ex_options 0 0 "nr" false None) (Some ex_makeYbus) = Ok (e, st0).
Proof. do 2 eexists. run_init. Qed.

Lemma newtonpf_without_pass_witness :
  exists e st0 out,
    newtonpf_init ex_Ybus ex_Sbus ex_V0 ex_ref ex_pv ex_pq ex_ppci
      (ex_options 0 0 "nr" false None) (Some ex_makeYbus) = Ok (e, st0)
    /\ newtonpf ex_Ybus ex_Sbus ex_V0 ex_ref ex_pv ex_pq ex_ppci
         (ex_options 0 0 "nr" false None) (Some ex_makeYbus) = Ok out
    /\ out_i out = 0%Z
    /\ out_V out = ex_V0
    /\ out_J out = None
    /\ _check_for_convergence (st_F st0) 0 = Ok (out_converged out).
Proof.
  destruct ex_no_pass as (e & st0 & Hinit).
  destruct (@newtonpf_without_pass R_Float64 ex_indices ex_collab
              _ _ _ _ _ _ _ _ _ e st0
              (Z.le_refl 0 : (max_iteration (ex_options 0 0 "nr" false None)
                              <= 0)%Z)
              Hinit) as (out & H).
  exists e, st0, out. split; [exact Hinit|exact H].
Defined.

Lemma newtonpf_jacobian_slot_witness :
  exists out,
    newtonpf ex_Ybus ex_Sbus ex_V0 ex_ref ex_pv ex_pq ex_ppci
      (ex_options 1 10 "nr" false None) (Some ex_makeYbus) = Ok out
    /\ (out_J out = None <-> out_i out = 0%Z).
Proof.
  destruct ex_newtonpf_returns as (e & st0 & _ & Hrun).
  exists (newtonpf_return st0). split; [exact Hrun|].
  exact (@newtonpf_jacobian_slot R_Float64 ex_indices ex_collab
           _ _ _ _ _ _ _ _ _ _ Hrun).
Defined.

(** the converged start, as far as the end of the loop *)
Lemma ex_loop_returns :
  exists e st0,
    newtonpf_init ex_Ybus ex_Sbus ex_V0 ex_ref ex_pv ex_pq ex_ppci
      (ex_options 1 10 "nr" false None) (Some ex_makeYbus) = Ok (e, st0)
    /\ newton_loop e st0 = Ok st0.
Proof.
  destruct ex_start_converged as (e & st0 & Hinit & Hc).
  exists e, st0. split; [exact Hinit|].
  pose proof (newtonpf_init_facts _ _ _ _ _ _ _ _ _ Hinit) as Hf.
  destruct Hf as (_ & _ & _ & _ & _ & _ & _ & _ & Htol & _ & _ & _ & _ & _
                  & _ & Hchk).
  rewrite Htol in Hchk. cbn [tolerance_mva ex_options] in Hchk.
  rewrite Hc in Hchk. inversion Hchk as [Hconv].
  apply newton_loop_converged. symmetry. exact Hconv.
Qed.

Lemma newtonpf_thermal_needs_makeYbus_witness :
  tdpf_on (ex_options 1 10 "nr" false (Some true)) = true
  /\ newtonpf ex_Ybus ex_Sbus ex_V0 ex_ref ex_pv ex_pq ex_ppci
       (ex_options 1 10 "nr" false (Some true)) None
     <> Ok (mkOutput ex_V0 true 0 None None None None).
Proof.
  split; [reflexivity|].
  apply (@newtonpf_thermal_needs_makeYbus R_Float64 ex_indices ex_collab).
  reflexivity.
Defined.

Lemma newtonpf_empty_residual_witness :
  newtonpf ex_Ybus ex_Sbus ex_V0 [0%Z; 1%Z] [] [] ex_ppci
    (ex_options 1 10 "nr" false None) (Some ex_makeYbus)
  <> Ok (mkOutput ex_V0 true 0 None None None None).
Proof.
  apply (@newtonpf_empty_residual R_Float64 ex_indices ex_collab);
    reflexivity.
Defined.

Lemma newtonpf_pq_lookup_bound_witness :
  In 2%Z [2%Z] /\ (Z.of_nat (length ex_pv + length [2%Z] + 1) <= 2)%Z
  /\ newtonpf ex_Ybus ex_Sbus ex_V0 ex_ref ex_pv [2%Z] ex_ppci
       (ex_options 1 10 "nr" false None) (Some ex_makeYbus)
     <> Ok (mkOutput ex_V0 true 0 None None None None).
Proof.
  assert (Hin : In 2%Z [2%Z]) by (left; reflexivity).
  assert (Hb : (Z.of_nat (length ex_pv + length [2%Z] + 1) <= 2)%Z)
    by (cbn; lia).
  split; [exact Hin|]. split; [exact Hb|].
  apply (@newtonpf_pq_lookup_bound R_Float64 ex_indices ex_collab)
    with (b := 2%Z); [reflexivity|exact Hin|exact Hb].
Defined.

Lemma newtonpf_bus_order_witness :
  exists e st0,
    newtonpf_init ex_Ybus ex_Sbus ex_V0 [0%Z; 1%Z] [] [] ex_ppci
      (ex_options 1 10 "nr" true None) (Some ex_makeYbus) = Ok (e, st0)
    /\ e_ref e ++ e_pv e = [0%Z; 1%Z] ++ []
    /\ e_pvpq e = e_pv e ++ []
    /\ e_refpvpq e = [0%Z; 1%Z] ++ [] ++ [].
Proof.
  destruct ex_two_reference_buses as (e & st0 & Hinit).
  exists e, st0. split; [exact Hinit|].
  exact (@newtonpf_bus_order R_Float64 ex_indices ex_collab
           _ _ _ _ _ _ _ _ _ e st0 Hinit).
Defined.

(** the buses the lookup tables are filled for are distinct *)
Lemma ex_lookup_domain :
  exists e st0,
    newtonpf_init ex_Ybus ex_Sbus ex_V0 ex_ref ex_pv ex_pq ex_ppci
      (ex_options 1 10 "nr" true None) (Some ex_makeYbus) = Ok (e, st0)
    /\ NoDup (lookup_domain e)
    /\ Forall (fun b => (0 <= b)%Z) (lookup_domain e).
Proof.
  do 2 eexists. split; [run_init|]. cbn. split.
  - repeat constructor; cbn; intuition discriminate.
  - repeat constructor; lia.
Qed.

End RunsMore.

Section RunsResults.

Import Example.
Import ExampleSC.
Local Open Scope R_scope.
#[local] Existing Instance R_Float64.
#[local] Existing Instance ex_indices.
#[local] Existing Instance ex_collab.
#[local] Existing Instance R_Float64Log.
#[local] Existing Instance ex_indices_sc.

Ltac run_init :=
  unfold newtonpf_init; cbn; rewrite ?Rtrunc_IZR; cbn; reflexivity.
Ltac run_iteration := unfold newton_iteration; cbn; reflexivity.

Lemma newtonpf_flag_is_verdict_witness :
  exists out ref' pv' w slack Fx,
    newtonpf ex_Ybus ex_Sbus ex_V0 ex_ref ex_pv ex_pq ex_ppci
      (ex_options 1 10 "nr" false None) (Some ex_makeYbus) = Ok out
    /\ bus_partition false ex_ref ex_pv = Ok (ref', pv')
    /\ col (bus ex_ppci) SL_FAC = Ok w
    /\ (false = false ->
        exists pg pd, col (gen ex_ppci) PG = Ok pg
                      /\ col (bus ex_ppci) PD = Ok pd
                      /\ slack = [fsub (fsum pg) (fsum pd)])
    /\ _evaluate_Fx (if (out_i out =? 0)%Z then ex_Ybus else sp_tocsr ex_Ybus)
         (out_V out) ex_Sbus ref' pv' ex_pq w false slack = Ok Fx
    /\ _check_for_convergence Fx 1 = Ok (out_converged out).
Proof.
  destruct ex_newtonpf_returns as (e & st0 & _ & Hrun).
  exists (newtonpf_return st0).
  assert (Htd : tdpf_on (ex_options 1 10 "nr" false None) = false)
    by reflexivity.
  assert (Hvdl : voltage_depend_loads (ex_options 1 10 "nr" false None)
                 = false) by reflexivity.
  destruct (@newtonpf_flag_is_verdict R_Float64 ex_indices ex_collab
              _ _ _ _ _ _ _ _ _ _ Htd Hvdl Hrun)
    as (ref' & pv' & w & slack & Fx & H).
  exists ref', pv', w, slack, Fx. split; [exact Hrun|exact H].
Defined.

Lemma check_for_convergence_iff_witness :
  exists b, _check_for_convergence [1; -3] 2 = Ok b
            /\ (b = true <-> Forall (fun x => Rabs x < 2) [1; -3]).
Proof.
  apply (@check_for_convergence_iff [1; -3] 2). discriminate.
Defined.

(** two fault buses and the inverse of a diagonal admittance matrix *)
Lemma ex_fault_voltages :
  exists V,
    V_ikss_inverse_y [1; 1] [0; 0] [1; 1] [[C 1 0; C 0 0]; [C 0 0; C 2 0]]
      [0%Z; 1%Z] = Ok V.
Proof. eexists. reflexivity. Qed.

Lemma V_ikss_inverse_y_shape_witness :
  exists V,
    V_ikss_inverse_y [1; 1] [0; 0] [1; 1] [[C 1 0; C 0 0]; [C 0 0; C 2 0]]
      [0%Z; 1%Z] = Ok V
    /\ length V = 2%nat
    /\ Forall (fun r => length r = 2%nat) V.
Proof.
  destruct ex_fault_voltages as [V HV]. exists V. split; [exact HV|].
  exact (@V_ikss_inverse_y_shape R_Float64 _ _ _ _ _ V HV).
Defined.

Lemma ex_bus_sc_rectangular : rectangular ex_bus_sc.
Proof. repeat constructor. Qed.

Lemma ex_peak_current : exists bus', _calc_ip ex_bus_sc = Ok bus'.
Proof. eexists. unfold _calc_ip. cbn. reflexivity. Qed.

Lemma calc_ip_column_witness :
  exists bus',
    _calc_ip ex_bus_sc = Ok bus'
    /\ rectangular bus' /\ ncols bus' = ncols ex_bus_sc
    /\ length (rows bus') = length (rows ex_bus_sc)
    /\ (forall j, j <> IP -> col bus' j = col ex_bus_sc j)
    /\ exists kappa ikss1 ikss2 ip,
         col ex_bus_sc KAPPA = Ok kappa /\ col ex_bus_sc IKSS1 = Ok ikss1
         /\ col ex_bus_sc IKSS2 = Ok ikss2 /\ col bus' IP = Ok ip
         /\ length ip = length (rows ex_bus_sc)
         /\ forall i, (i < length (rows ex_bus_sc))%nat ->
              nth i ip (of_Z 0)
              = fmul (fsqrt (of_Z 2))
                  (fadd (fmul (nth i kappa (of_Z 0)) (nth i ikss1 (of_Z 0)))
                        (nth i ikss2 (of_Z 0))).
Proof.
  destruct ex_peak_current as [bus' H]. exists bus'. split; [exact H|].
  exact (@calc_ip_column R_Float64 ex_indices_sc ex_bus_sc bus'
           ex_bus_sc_rectangular H).
Defined.

Lemma ex_thermal_current : exists bus', _calc_ith 1 ex_bus_sc = Ok bus'.
Proof. eexists. unfold _calc_ith. cbn. reflexivity. Qed.

Lemma calc_ith_at_least_ikss_witness :
  exists bus' kappa ikss1 ikss2 ith,
    _calc_ith 1 ex_bus_sc = Ok bus'
    /\ col ex_bus_sc KAPPA = Ok kappa /\ col ex_bus_sc IKSS1 = Ok ikss1
    /\ col ex_bus_sc IKSS2 = Ok ikss2 /\ col bus' ITH = Ok ith
    /\ forall i, (i < length (rows ex_bus_sc))%nat ->
         (199 / 100 < nth i kappa 0 ->
          nth i ith 0 = nth i ikss1 0 + nth i ikss2 0)
         /\ (1 < nth i kappa 0 -> 0 <= nth i ikss1 0 + nth i ikss2 0 ->
             nth i ikss1 0 + nth i ikss2 0 <= nth i ith 0).
Proof.
  destruct ex_thermal_current as [bus' H].
  assert (H1 : M <> IKSS1) by discriminate.
  assert (H2 : M <> IKSS2) by discriminate.
  destruct (@calc_ith_at_least_ikss ex_indices_sc 1 ex_bus_sc bus'
              ex_bus_sc_rectangular H1 H2 Rlt_0_1 H)
    as (kappa & ikss1 & ikss2 & ith & Hc).
  exists bus', kappa, ikss1, ikss2, ith. split; [exact H|exact Hc].
Defined.

Lemma calc_T_between_witness :
  exists Tss Ttr,
    _calc_T [] [1] [25] [1] [0] [600] None [20] = Ok Tss
    /\ _calc_T [] [1] [25] [1] [0] [600] (Some 60) [20] = Ok Ttr
    /\ length Tss = 1%nat /\ length Ttr = 1%nat
    /\ forall i, (i < 1)%nat ->
         Rmin (nth i [20] 0) (nth i Tss 0) <= nth i Ttr 0
           <= Rmax (nth i [20] 0) (nth i Tss 0)
         /\ (60 = 0 -> nth i Ttr 0 = nth i [20] 0).
Proof.
  apply (@calc_T_between 1%nat [] [1] [25] [1] [0] [600] [20] 60);
    try reflexivity.
  - lra.
  - repeat constructor. lra.
Defined.

Lemma newtonpf_reference_temperature_witness :
  exists out,
    newtonpf ex_Ybus ex_Sbus ex_V0 ex_ref ex_pv ex_pq ex_ppci
      (ex_options 1 10 "nr" false None) (Some ex_makeYbus) = Ok out
    /\ out_T out = Some (repeat 20 (length (rows (branch ex_ppci)))).
Proof.
  destruct ex_newtonpf_returns as (e & st0 & _ & Hrun).
  exists (newtonpf_return st0). split; [exact Hrun|].
  assert (Htd : tdpf_on (ex_options 1 10 "nr" false None) = false)
    by reflexivity.
  exact (@newtonpf_reference_temperature ex_indices ex_collab
           _ _ _ _ _ _ _ _ _ _ Htd Hrun).
Defined.

(** one pass of the plain algorithm *)
Lemma ex_plain_pass :
  exists e st0 s,
    newtonpf_init ex_Ybus ex_Sbus ex_V0 ex_ref ex_pv ex_pq ex_ppci
      (ex_options 0 2 "nr" false None) (Some ex_makeYbus) = Ok (e, st0)
    /\ e_iwamoto e = false
    /\ Forall (fun b => (0 <= b)%Z) (e_pv e)
    /\ Forall (fun b => (0 <= b)%Z) (e_pq e)
    /\ newton_iteration e st0 = Ok s.
Proof.
  do 3 eexists. split; [run_init|]. split; [reflexivity|].
  split; [constructor|]. split; [repeat constructor; cbn; lia|].
  run_iteration.
Qed.

Lemma newton_iteration_fixed_buses_witness :
  exists e st s Vm Va,
    newton_iteration e st = Ok s
    /\ polar Vm Va = Ok (st_V s)
    /\ length Vm = length (st_Vm st) /\ length Va = length (st_Va st)
    /\ (forall j, ~ In (Z.of_nat j) (e_pq e) ->
          nth j Vm (of_Z 0) = nth j (st_Vm st) (of_Z 0))
    /\ (forall j, ~ In (Z.of_nat j) (e_pv e) -> ~ In (Z.of_nat j) (e_pq e) ->
          nth j Va (of_Z 0) = nth j (st_Va st) (of_Z 0)).
Proof.
  destruct ex_plain_pass as (e & st0 & s & _ & Hiw & Hpv & Hpq & Hit).
  destruct (@newton_iteration_fixed_buses R_Float64 ex_indices ex_collab
              e st0 s Hiw Hpv Hpq Hit) as (Vm & Va & H).
  exists e, st0, s, Vm, Va. split; [exact Hit|exact H].
Defined.

(** a tolerance of zero and a cap of zero *)
Lemma ex_run_tolerance_zero :
  exists out,
    newtonpf ex_Ybus ex_Sbus ex_V0 ex_ref ex_pv ex_pq ex_ppci
      (ex_options 0 0 "nr" false None) (Some ex_makeYbus) = Ok out.
Proof.
  assert (H : exists e st0,
             newtonpf_init ex_Ybus ex_Sbus ex_V0 ex_ref ex_pv ex_pq ex_ppci
               (ex_options 0 0 "nr" false None) (Some ex_makeYbus)
             = Ok (e, st0)
             /\ e_max_it e = 0%Z /\ st_i st0 = 0%Z).
  { do 2 eexists. split; [run_init|]. split; reflexivity. }
  destruct H as (e & st0 & Hinit & Hmax & Hi).
  exists (newtonpf_return st0). unfold newtonpf. rewrite Hinit. cbn [bind].
  rewrite newton_loop_eq, Hmax, Hi. cbn [Z.ltb Z.compare].
  rewrite andb_false_r. reflexivity.
Qed.

Lemma newtonpf_tolerance_not_positive_witness :
  exists out,
    newtonpf ex_Ybus ex_Sbus ex_V0 ex_ref ex_pv ex_pq ex_ppci
      (ex_options 0 0 "nr" false None) (Some ex_makeYbus) = Ok out
    /\ out_converged out = false
    /\ out_i out = Z.max 0 0.
Proof.
  destruct ex_run_tolerance_zero as [out Hrun].
  exists out. split; [exact Hrun|].
  assert (Htol : tolerance_mva (ex_options 0 0 "nr" false None) <= 0)
    by apply Rle_refl.
  exact (@newtonpf_tolerance_not_positive ex_indices ex_collab
           _ _ _ _ _ _ _ _ _ out Htol Hrun).
Defined.

End RunsResults.

Section Runs3.
Import Example.
Import ExampleSC.
Local Open Scope R_scope.
#[local] Existing Instance R_Float64.
#[local] Existing Instance ex_indices.
#[local] Existing Instance ex_collab.
#[local] Existing Instance R_Float64Log.
#[local] Existing Instance ex_indices_sc.

Ltac run_init :=
  unfold newtonpf_init; cbn; rewrite ?Rtrunc_IZR; cbn; reflexivity.
Ltac run_iterates :=
  cbn [iterates]; unfold newton_iteration; cbn; reflexivity.

(** the debug trace on, a tolerance of zero and a cap of two: two passes *)
Lemma ex_debug_run :
  exists out,
    newtonpf ex_Ybus ex_Sbus ex_V0 ex_ref ex_pv ex_pq ex_ppci
      (mkOptions 0 2 false "nr" false false true false "COLAMD" None None)
      (Some ex_makeYbus) = Ok out
    /\ out_i out = 2%Z.
Proof.
  assert (H : exists e st0 s,
             newtonpf_init ex_Ybus ex_Sbus ex_V0 ex_ref ex_pv ex_pq ex_ppci
               (mkOptions 0 2 false "nr" false false true false "COLAMD"
                  None None) (Some ex_makeYbus)
             = Ok (e, st0)
             /\ iterates 2 e st0 = Ok s /\ st_i s = 2%Z).
  { do 3 eexists. split; [run_init|]. split; [run_iterates|reflexivity]. }
  destruct H as (e & st0 & s & Hinit & Hs & Hi).
  exists (newtonpf_return s).
  destruct (@newtonpf_unmet_tolerance_run ex_indices ex_collab
              ex_Ybus ex_Sbus ex_V0 ex_ref ex_pv ex_pq ex_ppci
              (@mkOptions R_Float64 0 2 false "nr" false false true false
                 "COLAMD" None None) (Some ex_makeYbus) e st0 s) as [Hl Hr];
    [apply Rle_refl|cbn; lia|exact Hinit|exact Hs|].
  split; [exact Hr|exact Hi].
Qed.

Lemma newtonpf_debug_trace_witness :
  exists out hm ha,
    newtonpf ex_Ybus ex_Sbus ex_V0 ex_ref ex_pv ex_pq ex_ppci
      (mkOptions 0 2 false "nr" false false true false "COLAMD" None None)
      (Some ex_makeYbus) = Ok out
    /\ out_i out = 2%Z
    /\ out_Vm_it out = Some hm /\ out_Va_it out = Some ha
    /\ Z.of_nat (length hm) = (out_i out + 1)%Z
    /\ Z.of_nat (length ha) = (out_i out + 1)%Z
    /\ nth 0 hm [] = map cabs ex_V0
    /\ last hm [] = map cabs (out_V out)
    /\ nth 0 ha [] = map angle ex_V0
    /\ last ha [] = map angle (out_V out).
Proof.
  destruct ex_debug_run as (out & Hrun & Hi).
  destruct (@newtonpf_debug_trace R_Float64 ex_indices ex_collab
              _ _ _ _ _ _ _ _ _ out Hrun) as (hm & ha & H).
  exists out, hm, ha. split; [exact Hrun|]. split; [exact Hi|exact H].
Defined.

(** a tolerance of zero and a cap of two: two passes *)
Lemma ex_two_passes :
  exists e st0 s,
    newtonpf_init ex_Ybus ex_Sbus ex_V0 ex_ref ex_pv ex_pq ex_ppci
      (ex_options 0 2 "nr" false None) (Some ex_makeYbus) = Ok (e, st0)
    /\ newton_loop e st0 = Ok s
    /\ st_i s = 2%Z.
Proof.
  assert (H : exists e st0 s,
             newtonpf_init ex_Ybus ex_Sbus ex_V0 ex_ref ex_pv ex_pq ex_ppci
               (ex_options 0 2 "nr" false None) (Some ex_makeYbus)
             = Ok (e, st0)
             /\ iterates 2 e st0 = Ok s /\ st_i s = 2%Z).
  { do 3 eexists. split; [run_init|]. split; [run_iterates|reflexivity]. }
  destruct H as (e & st0 & s & Hinit & Hs & Hi).
  exists e, st0, s.
  destruct (@newtonpf_unmet_tolerance_run ex_indices ex_collab
              ex_Ybus ex_Sbus ex_V0 ex_ref ex_pv ex_pq ex_ppci
              (ex_options 0 2 "nr" false None) (Some ex_makeYbus) e st0 s)
    as [Hl Hr]; [apply Rle_refl|cbn; lia|exact Hinit|exact Hs|].
  split; [exact Hinit|]. split; [exact Hl|exact Hi].
Qed.

Lemma newtonpf_untouched_witness :
  exists e st0 st',
    newtonpf_init ex_Ybus ex_Sbus ex_V0 ex_ref ex_pv ex_pq ex_ppci
      (ex_options 0 2 "nr" false None) (Some ex_makeYbus) = Ok (e, st0)
    /\ newton_loop e st0 = Ok st'
    /\ st_i st' = 2%Z
    /\ (st_branch st' = branch ex_ppci /\ st_Ybus st' = sp_tocsr ex_Ybus
        /\ st_th st' = None)
    /\ (exists pg pd, col (gen ex_ppci) PG = Ok pg
                      /\ col (bus ex_ppci) PD = Ok pd
                      /\ st_slack st' = [fsub (fsum pg) (fsum pd)])
    /\ st_Sbus st' = ex_Sbus.
Proof.
  destruct ex_two_passes as (e & st0 & st' & Hinit & Hloop & Hi).
  exists e, st0, st'. split; [exact Hinit|]. split; [exact Hloop|].
  split; [exact Hi|].
  destruct (@newtonpf_untouched R_Float64 ex_indices ex_collab
              _ _ _ _ _ _ _ _ _ e st0 st' Hinit Hloop) as (H1 & H2 & H3).
  split; [exact (H1 eq_refl)|]. split; [exact (H2 eq_refl)|].
  exact (H3 eq_refl).
Defined.

Lemma newtonpf_lookup_tables_witness :
  exists e st0,
    newtonpf_init ex_Ybus ex_Sbus ex_V0 ex_ref ex_pv ex_pq ex_ppci
      (ex_options 1 10 "nr" true None) (Some ex_makeYbus) = Ok (e, st0)
    /\ (exists m, np_max (sp_indices ex_Ybus) = Ok m
                  /\ length (e_pvpq_lookup e) = Z.to_nat (m + 1))
    /\ length (e_pq_lookup e) = (length (e_pvpq e) + 1)%nat
    /\ (forall k, (k < length (lookup_domain e))%nat ->
          item (e_pvpq_lookup e) (nth k (lookup_domain e) 0%Z)
          = Ok (Z.of_nat k))
    /\ (forall j, (j < length (e_pvpq_lookup e))%nat ->
          ~ In (Z.of_nat j) (lookup_domain e) ->
          item (e_pvpq_lookup e) (Z.of_nat j) = Ok 0%Z)
    /\ (forall k, (k < length (e_pq e))%nat ->
          item (e_pq_lookup e) (nth k (e_pq e) 0%Z) = Ok (Z.of_nat k))
    /\ (forall j, (j < length (e_pq_lookup e))%nat ->
          ~ In (Z.of_nat j) (e_pq e) ->
          item (e_pq_lookup e) (Z.of_nat j) = Ok 0%Z).
Proof.
  destruct ex_lookup_domain as (e & st0 & Hinit & Hnd & Hpos).
  exists e, st0. split; [exact Hinit|].
  exact (@newtonpf_lookup_tables R_Float64 ex_indices ex_collab
           _ _ _ _ _ _ _ _ _ e st0 Hinit Hnd Hpos).
Defined.

(** thermal coupling, a tolerance of zero and a cap of one: one pass *)
Lemma ex_thermal_pass :
  exists out J,
    newtonpf ex_Ybus ex_Sbus ex_V0 ex_ref ex_pv ex_pq ex_ppci
      (ex_options 0 1 "nr" false (Some true)) (Some ex_makeYbus) = Ok out
    /\ out_i out = 1%Z /\ out_J out = Some J.
Proof.
  assert (H : exists e st0 s J,
             newtonpf_init ex_Ybus ex_Sbus ex_V0 ex_ref ex_pv ex_pq ex_ppci
               (ex_options 0 1 "nr" false (Some true)) (Some ex_makeYbus)
             = Ok (e, st0)
             /\ iterates 1 e st0 = Ok s /\ st_i s = 1%Z
             /\ st_J s = Some J).
  { do 4 eexists. split; [run_init|]. split; [run_iterates|].
    split; reflexivity. }
  destruct H as (e & st0 & s & J & Hinit & Hs & Hi & HJ).
  exists (newtonpf_return s), J.
  destruct (@newtonpf_unmet_tolerance_run ex_indices ex_collab
              ex_Ybus ex_Sbus ex_V0 ex_ref ex_pv ex_pq ex_ppci
              (ex_options 0 1 "nr" false (Some true)) (Some ex_makeYbus)
              e st0 s) as [Hl Hr];
    [apply Rle_refl|cbn; lia|exact Hinit|exact Hs|].
  split; [exact Hr|]. split; [exact Hi|exact HJ].
Qed.

Lemma newtonpf_result_shapes_witness :
  exists out J ref' pv' n,
    newtonpf ex_Ybus ex_Sbus ex_V0 ex_ref ex_pv ex_pq ex_ppci
      (ex_options 0 1 "nr" false (Some true)) (Some ex_makeYbus) = Ok out
    /\ out_i out = 1%Z /\ out_J out = Some J
    /\ bus_partition false ex_ref ex_pv = Ok (ref', pv')
    /\ n = (length pv' + 2 * length ex_pq + 0
            + length (rows (branch ex_ppci)))%nat
    /\ (forall J', out_J out = Some J' -> jac_shape J' = (n, n))
    /\ (exists T, out_T out = Some T
                  /\ length T = length (rows (branch ex_ppci))).
Proof.
  destruct ex_thermal_pass as (out & J & Hrun & Hi & HJ).
  assert (Href : distributed_slack (ex_options 0 1 "nr" false (Some true))
                 = true -> ex_ref <> []) by (intros _; discriminate).
  assert (Hcomb : distributed_slack (ex_options 0 1 "nr" false (Some true))
                  && tdpf_on (ex_options 0 1 "nr" false (Some true)) = false)
    by reflexivity.
  destruct (@newtonpf_result_shapes R_Float64 ex_indices ex_collab
              _ _ _ _ _ _ _ _ _ _ ex_collab_respects_shapes Href Hcomb Hrun)
    as (ref' & pv' & n & H).
  exists out, J, ref', pv', n. split; [exact Hrun|]. split; [exact Hi|].
  split; [exact HJ|exact H].
Defined.

Lemma calc_ith_columns_witness :
  exists bus',
    _calc_ith 1 ex_bus_sc = Ok bus'
    /\ rectangular bus' /\ ncols bus' = ncols ex_bus_sc
    /\ length (rows bus') = length (rows ex_bus_sc)
    /\ (forall j, j <> M -> j <> ITH -> col bus' j = col ex_bus_sc j)
    /\ exists kappa m ith,
         col ex_bus_sc KAPPA = Ok kappa
         /\ (M <> ITH -> col bus' M = Ok m)
         /\ col bus' ITH = Ok ith
         /\ forall i, (i < length (rows ex_bus_sc))%nat ->
              nth i m 0
              = (if Rltb (Q2R (199 # 100)) (nth i kappa 0) then 0
                 else (exp (IZR (4 * 50) * 1 * ln (nth i kappa 0 - 1)) - 1)
                      / (IZR (2 * 50) * 1 * ln (nth i kappa 0 - 1)))
              /\ forall ikss1 ikss2,
                   M <> IKSS1 -> M <> IKSS2 ->
                   col ex_bus_sc IKSS1 = Ok ikss1 ->
                   col ex_bus_sc IKSS2 = Ok ikss2 ->
                   nth i ith 0
                   = (nth i ikss1 0 + nth i ikss2 0)
                     * sqrt (nth i m 0 + 1).
Proof.
  destruct ex_thermal_current as [bus' H]. exists bus'. split; [exact H|].
  exact (@calc_ith_columns R_Float64 R_Float64Log ex_indices_sc 1 ex_bus_sc
           bus' ex_bus_sc_rectangular H).
Defined.

End Runs3.

Section Runs4.
Import Example.
Local Open Scope R_scope.
#[local] Existing Instance R_Float64.
#[local] Existing Instance ex_indices.
#[local] Existing Instance ex_collab.

Ltac run_init :=
  unfold newtonpf_init; cbn; rewrite ?Rtrunc_IZR; cbn; reflexivity.
Ltac run_iterates :=
  cbn [iterates]; unfold newton_iteration; cbn; reflexivity.

Lemma Rhypot_unit : Rhypot 1 0 = 1.
Proof.
  unfold Rhypot. replace (1 * 1 + 0 * 0) with (1 * 1) by lra.
  apply sqrt_square. lra.
Qed.

Lemma Ratan2_unit : Ratan2 0 1 = 0.
Proof.
  unfold Ratan2. destruct (Rlt_dec 0 1) as [_|Hn]; [|lra].
  replace (0 / 1) with 0 by lra. apply atan_0.
Qed.

(** a load of 1 at bus 1, a tolerance of zero and a cap of one: the pass
    turns the voltage of the load bus by one radian *)
Lemma ex_loaded_pass :
  exists out,
    newtonpf ex_Ybus [C 0 0; C 1 0] ex_V0 ex_ref ex_pv ex_pq ex_ppci
      (ex_options 0 1 "nr" false None) (Some ex_makeYbus) = Ok out
    /\ out_i out = 1%Z
    /\ im (nth 1 ex_V0 czero) = 0
    /\ 0 < im (nth 1 (out_V out) czero).
Proof.
  assert (Hsin : 0 < sin 1).
  { apply sin_gt_0; [lra|]. pose proof PI2_1. pose proof PI2_Rlt_PI. lra. }
  assert (H : exists e st0 s,
    newtonpf_init ex_Ybus [C 0 0; C 1 0] ex_V0 ex_ref ex_pv ex_pq ex_ppci
      (ex_options 0 1 "nr" false None) (Some ex_makeYbus) = Ok (e, st0)
    /\ iterates 1 e st0 = Ok s /\ st_i s = 1%Z
    /\ im (nth 1 (st_V s) czero) = sin 1).
  { do 3 eexists. split; [run_init|]. split; [run_iterates|].
    split; [reflexivity|]. cbn. rewrite Pos2Nat.inj_1.
    cbn [map zip_with combine fst snd nth].
    rewrite polar_entry. cbn [im]. rewrite Rhypot_unit, Ratan2_unit.
    match goal with
    | |- ?m * sin ?a = _ =>
        replace m with 1 by lra; replace a with 1 by lra
    end.
    lra. }
  destruct H as (e & st0 & s & Hinit & Hs & Hi & Him).
  exists (newtonpf_return s).
  destruct (@newtonpf_unmet_tolerance_run ex_indices ex_collab
              ex_Ybus [C 0 0; C 1 0] ex_V0 ex_ref ex_pv ex_pq ex_ppci
              (ex_options 0 1 "nr" false None) (Some ex_makeYbus) e st0 s)
    as [Hl Hr]; [apply Rle_refl|cbn; lia|exact Hinit|exact Hs|].
  split; [exact Hr|]. split; [exact Hi|]. split; [reflexivity|].
  cbn [out_V newtonpf_return]. rewrite Him. exact Hsin.
Qed.

Lemma newtonpf_holds_fixed_buses_witness :
  exists out ref' pv',
    newtonpf ex_Ybus [C 0 0; C 1 0] ex_V0 ex_ref ex_pv ex_pq ex_ppci
      (ex_options 0 1 "nr" false None) (Some ex_makeYbus) = Ok out
    /\ out_i out = 1%Z
    /\ im (nth 1 ex_V0 czero) = 0
    /\ 0 < im (nth 1 (out_V out) czero)
    /\ bus_partition false ex_ref ex_pv = Ok (ref', pv')
    /\ length (out_V out) = length ex_V0
    /\ (0 <= out_i out)%Z
    /\ forall k, (k < length ex_V0)%nat ->
         ~ In (Z.of_nat k) pv' -> ~ In (Z.of_nat k) ex_pq ->
         nth k (out_V out) czero
         = Nat.iter (Z.to_nat (out_i out)) repolar (nth k ex_V0 czero).
Proof.
  destruct ex_loaded_pass as (out & Hrun & Hi & Him0 & Him).
  assert (Href : Forall (fun b => (0 <= b)%Z) ex_ref)
    by (repeat constructor; cbn; lia).
  assert (Hpv : Forall (fun b => (0 <= b)%Z) ex_pv) by constructor.
  assert (Hpq : Forall (fun b => (0 <= b)%Z) ex_pq)
    by (repeat constructor; cbn; lia).
  assert (Halg : String.eqb (algorithm (ex_options 0 1 "nr" false None))
                   "iwamoto_nr" = false) by reflexivity.
  destruct (@newtonpf_holds_fixed_buses R_Float64 ex_indices ex_collab
              _ _ _ _ _ _ _ _ _ _ Halg Href Hpv Hpq Hrun)
    as (ref' & pv' & H).
  exists out, ref', pv'. split; [exact Hrun|]. split; [exact Hi|].
  split; [exact Him0|]. split; [exact Him|exact H].
Defined.

End Runs4.
